(** * The Claude bridge channel manager (claude-bridge/channel-manager.js)

    A shallow embedding of the per-invocation bridge process: its resolvers
    (credentials, working directory), the two delivery paths, the transcript
    store, the attachment loader and the single-use async channel, followed
    by the properties stated about them.

    Conventions of the embedding.
    - A JavaScript string is a [string]; the ASCII range is modelled exactly
      ([toLowerCase], [trim] and the character classes act on ASCII, bytes
      above 127 are left alone).
    - A JavaScript value is a [value]: the JSON data model plus [undefined].
      Numbers are integers, which is all the bridge itself ever builds.
    - Effects (console, file system, process state, the SDK calls, the UUID
      and clock sources) are threaded through a state-and-exception monad
      [M] over a [World], in which a computation may also stay unsettled
      (an [await] on a message that never arrives); the built-ins whose
      behaviour lies outside the program (path resolution, JSON text
      conversion, the external services) are the fields of the [Host] class
      and every statement holds for every host. *)

From Stdlib Require Import ZArith Ascii String List Bool Lia.
From stdpp Require Import base option list strings pretty gmap.
Import ListNotations.

Set Warnings "-register-all".

Local Open Scope string_scope.
Local Open Scope list_scope.

(** ** Strings *)

Module Str.

Definition lower_ascii (c : ascii) : ascii :=
  let n := nat_of_ascii c in
  if (65 <=? n)%nat && (n <=? 90)%nat then ascii_of_nat (n + 32) else c.

(** [s.toLowerCase()] *)
Fixpoint toLowerCase (s : string) : string :=
  match s with
  | EmptyString => EmptyString
  | String c r => String (lower_ascii c) (toLowerCase r)
  end.

(** [s.startsWith(p)] *)
Fixpoint startsWith (p s : string) : bool :=
  match p, s with
  | EmptyString, _ => true
  | String _ _, EmptyString => false
  | String a p', String b s' => if Ascii.eqb a b then startsWith p' s' else false
  end.

(** [s.includes(p)] *)
Fixpoint includes (p s : string) : bool :=
  startsWith p s ||
  match s with
  | EmptyString => false
  | String _ s' => includes p s'
  end.

Definition eqb (a b : string) : bool := String.eqb a b.

Definition is_blank (c : ascii) : bool := Ascii.is_space c.

Fixpoint trim_start (s : string) : string :=
  match s with
  | EmptyString => EmptyString
  | String c r => if is_blank c then trim_start r else s
  end.

(** [s.trim()] *)
Definition trim (s : string) : string :=
  String.rev (trim_start (String.rev (trim_start s))).

(** [s.split('\n')] *)
Fixpoint split_go (sep : ascii) (cur : string) (s : string) : list string :=
  match s with
  | EmptyString => [String.rev cur]
  | String c r =>
      if Ascii.eqb c sep then String.rev cur :: split_go sep EmptyString r
      else split_go sep (String c cur) r
  end.
Definition split (sep : ascii) (s : string) : list string :=
  split_go sep EmptyString s.

Definition newline : ascii := "010"%char.

Definition is_alnum (c : ascii) : bool :=
  let n := nat_of_ascii c in
  ((48 <=? n) && (n <=? 57) || (65 <=? n) && (n <=? 90) || (97 <=? n) && (n <=? 122))%nat.

(** [s.replace(/[^a-zA-Z0-9]/g, '-')] *)
Fixpoint dash_non_alnum (s : string) : string :=
  match s with
  | EmptyString => EmptyString
  | String c r => String (if is_alnum c then c else "-"%char) (dash_non_alnum r)
  end.

(** [s.replace(/\\/g, '/')] *)
Fixpoint slash_backslashes (s : string) : string :=
  match s with
  | EmptyString => EmptyString
  | String c r =>
      String (if Ascii.eqb c "\"%char then "/"%char else c) (slash_backslashes r)
  end.

Definition is_empty (s : string) : bool :=
  match s with EmptyString => true | _ => false end.

End Str.

(** ** JavaScript values *)

Inductive value : Type :=
| VUndefined
| VNull
| VBool (b : bool)
| VNum (n : Z)
| VStr (s : string)
| VArr (items : list value)
| VObj (fields : list (string * value)).

(** The truthiness test applied by [if (x)], [!x], [x || y] and [x && y]. *)
Definition truthy (v : value) : bool :=
  match v with
  | VUndefined | VNull => false
  | VBool b => b
  | VNum n => negb (n =? 0)%Z
  | VStr s => negb (Str.is_empty s)
  | VArr _ | VObj _ => true
  end.

(** [a || b] *)
Definition js_or (a b : value) : value := if truthy a then a else b.

Fixpoint assoc (k : string) (fs : list (string * value)) : option value :=
  match fs with
  | [] => None
  | (k', v) :: r => if Str.eqb k k' then Some v else assoc k r
  end.

(** [o.k] when [o] is neither [null] nor [undefined]: an own property of an
    object, [undefined] otherwise (none of the property names the bridge
    reads exists on a prototype). *)
Definition prop (k : string) (o : value) : value :=
  match o with
  | VObj fs => default VUndefined (assoc k fs)
  | _ => VUndefined
  end.

Definition nullish (v : value) : bool :=
  match v with VUndefined | VNull => true | _ => false end.

(** [o?.k] *)
Definition opt_prop (k : string) (o : value) : value :=
  if nullish o then VUndefined else prop k o.

(** [Array.isArray(v)] *)
Definition isArray (v : value) : bool :=
  match v with VArr _ => true | _ => false end.

(** [typeof v === 'string'] *)
Definition is_string (v : value) : bool :=
  match v with VStr _ => true | _ => false end.

(** The characters of a value already known to be a string. *)
Definition as_str (v : value) : string :=
  match v with VStr s => s | _ => EmptyString end.

(** [v === 's'] for a string literal ['s'] *)
Definition is_str (s : string) (v : value) : bool :=
  match v with VStr t => Str.eqb t s | _ => false end.

(** [{...o, k: v}]: an existing key keeps its place and takes the new value,
    a new key is added last. *)
Fixpoint set_field (k : string) (v : value) (fs : list (string * value))
  : list (string * value) :=
  match fs with
  | [] => [(k, v)]
  | (k', v') :: r =>
      if Str.eqb k k' then (k', v) :: r else (k', v') :: set_field k v r
  end.

(** A thrown [Error], identified by its [message]. *)
Inductive outcome (A : Type) : Type :=
| Ok (a : A)
| Throw (message : string).
Arguments Ok {A} a.
Arguments Throw {A} message.

(** [String(v)], the conversion behind template literals, [+] on strings and
    assignments to [process.env].  A plain object prints as
    [[object Object]] unless an own [toString] property (never callable in
    JSON data) hides the inherited method, in which case the conversion
    throws a TypeError. *)
Fixpoint to_string (v : value) : outcome string :=
  match v with
  | VUndefined => Ok "undefined"
  | VNull => Ok "null"
  | VBool b => Ok (if b then "true" else "false")
  | VNum n => Ok (pretty n)
  | VStr s => Ok s
  | VArr items =>
      (fix join (first : bool) (xs : list value) : outcome string :=
         match xs with
         | [] => Ok EmptyString
         | x :: rest =>
             match (if nullish x then Ok EmptyString else to_string x) with
             | Throw e => Throw e
             | Ok sx =>
                 match join false rest with
                 | Throw e => Throw e
                 | Ok sr => Ok ((if first then EmptyString else ",") +:+ sx +:+ sr)
                 end
             end
         end) true items
  | VObj fields =>
      match assoc "toString" fields with
      | Some _ => Throw "Cannot convert object to primitive value"
      | None => Ok "[object Object]"
      end
  end.

(** ** Model name mapping *)

(** [mapModelIdToSdkName(modelId)] *)
Definition mapModelIdToSdkName (modelId : value) : string :=
  if negb (truthy modelId) || negb (is_string modelId) then "sonnet"
  else
    let lowerModel := Str.toLowerCase (as_str modelId) in
    if Str.includes "opus" lowerModel then "opus"
    else if Str.includes "haiku" lowerModel then "haiku"
    else "sonnet".

(** ** The console *)

(** One [console.log] call.  The protocol lines carry their payload; a debug
    line is kept by its fixed text, its interpolated values are logging
    detail. *)
Inductive line : Type :=
| DEBUG (text : string)
| PERSIST (file : string)
| MESSAGE_START
| MESSAGE (msg : value)
| CONTENT (text : value)
| SESSION_ID (id : value)
| RESUMING (id : value)
| MESSAGE_END
| JSON_LINE (record : value).

(** ** The single-use async channel *)

Module AsyncStream.

(** The result object [{done, value}] of the iterator protocol. *)
Inductive iter_result : Type :=
| Yield (v : value)        (* { done: false, value: v } *)
| Finished.                (* { done: true, value: undefined } *)

(** What a call of [next()] hands back: a settled result, or a promise
    (numbered by creation order) that is still pending. *)
Inductive next_result : Type :=
| Now (r : iter_result)
| Pending (promise : nat).

Record t : Type := mk {
  queue : list value;
  readResolve : option nat;      (* the pending promise's resolver *)
  isDone : bool;
  started : bool;
  promises : nat;                (* promises created so far *)
  settled : list (nat * iter_result)   (* resolver calls, oldest first *)
}.

(** [constructor()] *)
Definition new : t :=
  {| queue := []; readResolve := None; isDone := false; started := false;
     promises := 0; settled := [] |}.

(** [[Symbol.asyncIterator]()] returns [this], or throws. *)
Definition asyncIterator (s : t) : outcome unit * t :=
  if started s then (Throw "Stream can only be iterated once", s)
  else
    (Ok tt,
     {| queue := queue s; readResolve := readResolve s; isDone := isDone s;
        started := true; promises := promises s; settled := settled s |}).

(** [next()] *)
Definition next (s : t) : next_result * t :=
  match queue s with
  | v :: rest =>
      (Now (Yield v),
       {| queue := rest; readResolve := readResolve s; isDone := isDone s;
          started := started s; promises := promises s; settled := settled s |})
  | [] =>
      if isDone s then (Now Finished, s)
      else
        (Pending (promises s),
         {| queue := queue s; readResolve := Some (promises s); isDone := isDone s;
            started := started s; promises := S (promises s); settled := settled s |})
  end.

(** [enqueue(value)] *)
Definition enqueue (v : value) (s : t) : t :=
  match readResolve s with
  | Some p =>
      {| queue := queue s; readResolve := None; isDone := isDone s;
         started := started s; promises := promises s;
         settled := settled s ++ [(p, Yield v)] |}
  | None =>
      {| queue := queue s ++ [v]; readResolve := readResolve s; isDone := isDone s;
         started := started s; promises := promises s; settled := settled s |}
  end.

(** [done()] *)
Definition done (s : t) : t :=
  match readResolve s with
  | Some p =>
      {| queue := queue s; readResolve := None; isDone := true;
         started := started s; promises := promises s;
         settled := settled s ++ [(p, Finished)] |}
  | None =>
      {| queue := queue s; readResolve := None; isDone := true;
         started := started s; promises := promises s; settled := settled s |}
  end.

(** [return()] *)
Definition return_ (s : t) : iter_result * t :=
  (Finished,
   {| queue := queue s; readResolve := readResolve s; isDone := true;
      started := started s; promises := promises s; settled := settled s |}).

(** The operations a producer or a consumer can perform on a channel. *)
Inductive op : Type :=
| OpIterate
| OpNext
| OpEnqueue (v : value)
| OpDone
| OpReturn.

Definition step (o : op) (s : t) : t :=
  match o with
  | OpIterate => snd (asyncIterator s)
  | OpNext => snd (next s)
  | OpEnqueue v => enqueue v s
  | OpDone => done s
  | OpReturn => snd (return_ s)
  end.

Definition run (ops : list op) (s : t) : t :=
  fold_left (fun acc o => step o acc) ops s.

End AsyncStream.

(** ** The external services, the world and the monad *)

(** The argument of the agent SDK's [query({prompt, options})]. *)
Inductive prompt : Type :=
| PromptText (message : value)
| PromptStream (inputStream : AsyncStream.t).

Record query_options : Type := {
  opt_cwd : string;
  opt_permissionMode : value;
  opt_model : string;
  opt_maxTurns : Z;
  opt_additionalDirectories : list string;
  opt_canUseTool : bool;
  opt_pathToClaudeCodeExecutable : value;
  opt_settingSources : list string;
  opt_resume : value
}.

(** What [query({ prompt, options })] does.  The SDK's [query] returns the
    message stream itself, an async iterable that is no promise, unless it
    throws.  So [Promise.race([queryPromise, timeoutPromise])] settles at once
    with that stream, [finally] clears the 60000 ms timer, and the timer's
    callback never runs: nothing bounds the iteration that follows.  What is
    left open is what iterating the stream delivers. *)
Inductive query_result : Type :=
| Streams (events : list value) (failure : option string)
    (* iterating yields [events] and then ends, or fails with an error *)
| Stalls (events : list value)
    (* iterating yields [events], and the message awaited next never
       arrives; a stream that goes on for ever is seen, at any moment, as
       one that stalled after the events read so far *)
| Rejects (message : string).      (* the call throws *)

(** A request leaving the process. *)
Inductive call : Type :=
| Query (p : prompt) (options : query_options)   (* native streaming path *)
| MessagesCreate (client request : value).       (* Anthropic SDK, non-streaming *)

(** The built-ins and services the program relies on but does not define. *)
Class Host : Type := {
  platform : string;                          (* process.platform *)
  homedir : string;                           (* os.homedir() *)
  tmpdir : string;                            (* os.tmpdir() *)
  path_resolve : string -> string -> string;  (* path.resolve, from a cwd *)
  path_join : list string -> string;          (* path.join *)
  JSON_parse : string -> option value;        (* None: SyntaxError *)
  JSON_stringify : value -> string;
  randomUUID : nat -> string;                 (* the n-th draw of crypto.randomUUID *)
  toISOString : nat -> string;                (* the n-th reading of new Date() *)
  execSync : string -> option string;         (* None: the command failed *)
  sdk_query : prompt -> query_options -> query_result;
  messages_create : value -> value -> outcome value
}.

Record World : Type := {
  env : gmap string string;     (* process.env *)
  cwd : string;                 (* process.cwd() *)
  files : gmap string string;   (* regular files and their content *)
  dirs : gset string;           (* directories *)
  uuids : nat;                  (* UUIDs drawn so far *)
  ticks : nat;                  (* clock readings so far *)
  stdout : list line;           (* console.log, oldest first *)
  stderr : list string;         (* console.error, oldest first *)
  calls : list call             (* requests issued, oldest first *)
}.

(** What becomes of a computation that is awaited: it settles, returning or
    throwing, or it never does and whatever follows the [await] never
    runs. *)
Inductive fate (A : Type) : Type :=
| Settled (o : outcome A)
| Unsettled.
Arguments Settled {A} o.
Arguments Unsettled {A}.

(** An outcome stands for the settled computation that has it, also as a
    component of a pair. *)
Coercion Settled : outcome >-> fate.
Arguments pair {A B}%_type_scope & a b.

Definition M (A : Type) : Type := World -> fate A * World.

Definition ret {A} (a : A) : M A := fun w => (Ok a, w).

Definition bind {A B} (m : M A) (k : A -> M B) : M B :=
  fun w =>
    match m w with
    | (Settled (Ok a), w') => k a w'
    | (Settled (Throw e), w') => (Throw e, w')
    | (Unsettled, w') => (Unsettled, w')
    end.

(** [throw new Error(message)] *)
Definition throw {A} (message : string) : M A := fun w => (Throw message, w).

(** [await] of a promise that never settles. *)
Definition never {A} : M A := fun w => (Unsettled, w).

(** [try { m } catch (error) { handler(error.message) }] *)
Definition try_catch {A} (m : M A) (handler : string -> M A) : M A :=
  fun w =>
    match m w with
    | (Settled (Ok a), w') => (Ok a, w')
    | (Settled (Throw e), w') => handler e w'
    | (Unsettled, w') => (Unsettled, w')
    end.

Definition lift {A} (o : outcome A) : M A := fun w => (o, w).

Declare Scope bridge_scope.
Delimit Scope bridge_scope with bridge.
Notation "x <- m ;; k" := (bind m (fun x => k))
  (at level 100, m at next level, right associativity) : bridge_scope.
Notation "m ;; k" := (bind m (fun _ => k))
  (at level 100, right associativity) : bridge_scope.
Local Open Scope bridge_scope.

Definition with_env (f : gmap string string -> gmap string string) (w : World) : World :=
  {| env := f (env w); cwd := cwd w; files := files w; dirs := dirs w;
     uuids := uuids w; ticks := ticks w; stdout := stdout w; stderr := stderr w;
     calls := calls w |}.
Definition with_cwd (d : string) (w : World) : World :=
  {| env := env w; cwd := d; files := files w; dirs := dirs w;
     uuids := uuids w; ticks := ticks w; stdout := stdout w; stderr := stderr w;
     calls := calls w |}.
Definition with_files (f : gmap string string -> gmap string string) (w : World) : World :=
  {| env := env w; cwd := cwd w; files := f (files w); dirs := dirs w;
     uuids := uuids w; ticks := ticks w; stdout := stdout w; stderr := stderr w;
     calls := calls w |}.
Definition with_dirs (f : gset string -> gset string) (w : World) : World :=
  {| env := env w; cwd := cwd w; files := files w; dirs := f (dirs w);
     uuids := uuids w; ticks := ticks w; stdout := stdout w; stderr := stderr w;
     calls := calls w |}.
Definition with_uuids (n : nat) (w : World) : World :=
  {| env := env w; cwd := cwd w; files := files w; dirs := dirs w;
     uuids := n; ticks := ticks w; stdout := stdout w; stderr := stderr w;
     calls := calls w |}.
Definition with_ticks (n : nat) (w : World) : World :=
  {| env := env w; cwd := cwd w; files := files w; dirs := dirs w;
     uuids := uuids w; ticks := n; stdout := stdout w; stderr := stderr w;
     calls := calls w |}.
Definition with_stdout (l : list line) (w : World) : World :=
  {| env := env w; cwd := cwd w; files := files w; dirs := dirs w;
     uuids := uuids w; ticks := ticks w; stdout := l; stderr := stderr w;
     calls := calls w |}.
Definition with_stderr (l : list string) (w : World) : World :=
  {| env := env w; cwd := cwd w; files := files w; dirs := dirs w;
     uuids := uuids w; ticks := ticks w; stdout := stdout w; stderr := l;
     calls := calls w |}.
Definition with_calls (l : list call) (w : World) : World :=
  {| env := env w; cwd := cwd w; files := files w; dirs := dirs w;
     uuids := uuids w; ticks := ticks w; stdout := stdout w; stderr := stderr w;
     calls := l |}.

(** *** Primitive effects *)

(** [console.log(...)] *)
Definition console_log (l : line) : M unit :=
  fun w => (Ok tt, with_stdout (stdout w ++ [l]) w).

(** [console.error(tag, text)] *)
Definition console_error (tag text : string) : M unit :=
  fun w => (Ok tt, with_stderr (stderr w ++ [tag +:+ " " +:+ text]) w).

(** [process.env[name]] *)
Definition getenv (name : string) : M value :=
  fun w => (Ok (match env w !! name with Some s => VStr s | None => VUndefined end), w).

(** [process.env[name] = text] *)
Definition setenv (name text : string) : M unit :=
  fun w => (Ok tt, with_env (insert name text) w).

(** [process.cwd()] *)
Definition process_cwd : M string := fun w => (Ok (cwd w), w).

(** [process.chdir(d)] *)
Definition process_chdir (d : string) : M unit :=
  fun w =>
    if decide (d ∈ dirs w) then (Ok tt, with_cwd d w)
    else (Throw ("ENOENT: no such file or directory, chdir " +:+ d), w).

(** [fs.existsSync(p)] *)
Definition existsSync (p : string) : M bool :=
  fun w => (Ok (bool_decide (is_Some (files w !! p)) || bool_decide (p ∈ dirs w)), w).

(** [fs.statSync(p).isDirectory()] *)
Definition statSync_isDirectory (p : string) : M bool :=
  fun w =>
    if decide (p ∈ dirs w) then (Ok true, w)
    else if decide (is_Some (files w !! p)) then (Ok false, w)
    else (Throw ("ENOENT: no such file or directory, stat " +:+ p), w).

(** [fs.readFileSync(p, 'utf8')] *)
Definition readFileSync (p : string) : M string :=
  fun w =>
    match files w !! p with
    | Some content => (Ok content, w)
    | None =>
        if decide (p ∈ dirs w)
        then (Throw "EISDIR: illegal operation on a directory, read", w)
        else (Throw ("ENOENT: no such file or directory, open " +:+ p), w)
    end.

(** [fs.mkdirSync(p, { recursive: true })] *)
Definition mkdirSync (p : string) : M unit :=
  fun w =>
    if decide (is_Some (files w !! p))
    then (Throw ("EEXIST: file already exists, mkdir " +:+ p), w)
    else (Ok tt, with_dirs (union {[ p ]}) w).

(** [fs.appendFileSync(p, data, 'utf8')] *)
Definition appendFileSync (p data : string) : M unit :=
  fun w =>
    if decide (p ∈ dirs w)
    then (Throw ("EISDIR: illegal operation on a directory, open " +:+ p), w)
    else (Ok tt, with_files (insert p (default EmptyString (files w !! p) +:+ data)) w).

Section Effects.
Context `{Host}.

(** [randomUUID()] *)
Definition draw_uuid : M string :=
  fun w => (Ok (randomUUID (uuids w)), with_uuids (S (uuids w)) w).

(** [new Date().toISOString()] *)
Definition now_iso : M string :=
  fun w => (Ok (toISOString (ticks w)), with_ticks (S (ticks w)) w).

(** [execSync(command, { encoding: 'utf-8' })] *)
Definition run_command (command : string) : M string :=
  match execSync command with
  | Some output => ret output
  | None => throw ("Command failed: " +:+ command)
  end.

(** [query({ prompt, options })] and the [await Promise.race(...)] on what
    it returned. *)
Definition race_query (p : prompt) (options : query_options) : M query_result :=
  fun w => (Ok (sdk_query p options), with_calls (calls w ++ [Query p options]) w).

(** [await client.messages.create(request)] *)
Definition await_messages_create (client request : value) : M value :=
  fun w => (messages_create client request,
            with_calls (calls w ++ [MessagesCreate client request]) w).

(** [resolve(p)] *)
Definition resolve (p : string) : M string :=
  fun w => (Ok (path_resolve (cwd w) p), w).

End Effects.

(** ** The resolvers *)

Record credentials : Type := {
  apiKey : value;
  baseUrl : value;
  apiKeySource : string;
  baseUrlSource : string
}.

(** The [officialUrls] of [isCustomBaseUrl]. *)
Definition officialUrls : list string :=
  ["https://api.anthropic.com"; "https://api.anthropic.com/"; "api.anthropic.com"].

(** [isCustomBaseUrl(baseUrl)] *)
Definition isCustomBaseUrl (baseUrl : value) : outcome bool :=
  if negb (truthy baseUrl) then Ok false
  else
    match baseUrl with
    | VStr s =>
        Ok (negb (existsb
                    (fun _url => Str.includes "api.anthropic.com" (Str.toLowerCase s))
                    officialUrls))
    | _ => Throw "baseUrl.toLowerCase is not a function"
    end.

(** [[...new Set(xs)]]: the first occurrence of each element, in order. *)
Fixpoint dedupe (seen xs : list string) : list string :=
  match xs with
  | [] => []
  | x :: r =>
      if existsb (Str.eqb x) seen then dedupe seen r
      else x :: dedupe (x :: seen) r
  end.

Section Resolvers.
Context `{Host}.

(** [loadClaudeSettings()] *)
Definition loadClaudeSettings : M value :=
  try_catch
    (let settingsPath := path_join [homedir; ".claude"; "settings.json"] in
     text <- readFileSync settingsPath ;;
     match JSON_parse text with
     | Some settings => ret settings
     | None => throw "Unexpected token in JSON"
     end)
    (fun _error => ret VNull).

(** [setupApiKey()] *)
Definition setupApiKey : M credentials :=
  settings <- loadClaudeSettings ;;
  let settings_env := opt_prop "env" settings in
  process_key <- getenv "ANTHROPIC_API_KEY" ;;
  process_url <- getenv "ANTHROPIC_BASE_URL" ;;
  let '(apiKey, apiKeySource) :=
    if truthy (opt_prop "ANTHROPIC_API_KEY" settings_env)
    then (opt_prop "ANTHROPIC_API_KEY" settings_env, "settings.json")
    else if truthy (opt_prop "ANTHROPIC_AUTH_TOKEN" settings_env)
    then (opt_prop "ANTHROPIC_AUTH_TOKEN" settings_env, "settings.json")
    else if truthy process_key
    then (process_key, "environment")
    else (VUndefined, "default") in
  let '(baseUrl, baseUrlSource) :=
    if truthy (opt_prop "ANTHROPIC_BASE_URL" settings_env)
    then (opt_prop "ANTHROPIC_BASE_URL" settings_env, "settings.json")
    else if truthy process_url
    then (process_url, "environment")
    else (VUndefined, "default") in
  if negb (truthy apiKey) then
    console_error "[ERROR]"
      "API Key not configured. Please set ANTHROPIC_API_KEY in environment or ~/.claude/settings.json" ;;
    throw "API Key not configured"
  else
    key_text <- lift (to_string apiKey) ;;
    setenv "ANTHROPIC_API_KEY" key_text ;;
    (if truthy baseUrl then
       url_text <- lift (to_string baseUrl) ;;
       setenv "ANTHROPIC_BASE_URL" url_text
     else ret tt) ;;
    ret {| apiKey := apiKey; baseUrl := baseUrl;
           apiKeySource := apiKeySource; baseUrlSource := baseUrlSource |}.

(** [normalizePathForComparison(pathValue)] *)
Definition normalizePathForComparison (pathValue : string) : string :=
  if Str.is_empty pathValue then EmptyString
  else
    let normalized := Str.slash_backslashes pathValue in
    if Str.eqb platform "win32" then Str.toLowerCase normalized else normalized.

(** [getTempPathPrefixes()] *)
Definition getTempPathPrefixes : M (list string) :=
  let prefixes :=
    if Str.is_empty tmpdir then [] else [normalizePathForComparison tmpdir] in
  if Str.eqb platform "win32" then
    TEMP <- getenv "TEMP" ;;
    TMP <- getenv "TMP" ;;
    LOCALAPPDATA <- getenv "LOCALAPPDATA" ;;
    let of_var (value : value) : list string :=
      if truthy value then [normalizePathForComparison (as_str value)] else [] in
    let local_temp :=
      if truthy LOCALAPPDATA
      then [normalizePathForComparison (path_join [as_str LOCALAPPDATA; "Temp"])]
      else [] in
    ret (dedupe []
           (prefixes ++ of_var TEMP ++ of_var TMP ++ of_var LOCALAPPDATA ++ local_temp
              ++ ["c:\windows\temp"; "c:\temp"]))
  else
    TMPDIR <- getenv "TMPDIR" ;;
    ret (dedupe []
           (prefixes ++ ["/tmp"; "/var/tmp"; "/private/tmp"]
              ++ (if truthy TMPDIR then [normalizePathForComparison (as_str TMPDIR)] else []))).

(** [sanitizePath(candidate)]: a resolved path, or [null] ([None]). *)
Definition sanitizePath (candidate : value) : M (option string) :=
  if negb (truthy candidate) || negb (is_string candidate)
     || Str.is_empty (Str.trim (as_str candidate))
  then ret None
  else
    try_catch
      (p <- resolve (Str.trim (as_str candidate)) ;; ret (Some p))
      (fun _ => ret None).

(** [isTempDirectory(pathValue)] *)
Definition isTempDirectory (pathValue : string) : M bool :=
  if Str.is_empty pathValue then ret false
  else
    let normalizedPath := normalizePathForComparison pathValue in
    tempPrefixes <- getTempPathPrefixes ;;
    ret (existsb
           (fun tempPath =>
              if Str.is_empty tempPath then false
              else Str.startsWith tempPath normalizedPath
                   || Str.eqb normalizedPath tempPath)
           tempPrefixes).

(** The [for (const candidate of candidates)] loop of
    [selectWorkingDirectory]; [Some d] is [return d] from inside the loop. *)
Fixpoint selectWorkingDirectory_loop (envProjectPath : value) (candidates : list value)
  : M (option string) :=
  match candidates with
  | [] => ret None
  | candidate :: rest =>
      normalized <- sanitizePath candidate ;;
      match normalized with
      | None => selectWorkingDirectory_loop envProjectPath rest
      | Some normalized =>
          temp <- isTempDirectory normalized ;;
          if temp && truthy envProjectPath then
            console_log (DEBUG "Skipping temp directory candidate:") ;;
            selectWorkingDirectory_loop envProjectPath rest
          else
            found <-
              try_catch
                (isDirectory <- statSync_isDirectory normalized ;;
                 if isDirectory then
                   console_log (DEBUG "selectWorkingDirectory resolved:") ;;
                   ret true
                 else ret false)
                (fun _ =>
                   console_log (DEBUG "Candidate is invalid:") ;;
                   ret false) ;;
            if (found : bool) then ret (Some normalized)
            else selectWorkingDirectory_loop envProjectPath rest
      end
  end.

(** The candidate list built at the top of [selectWorkingDirectory]. *)
Definition selectWorkingDirectory_candidates
    (requestedCwd envProjectPath : value) (current : string) : list value :=
  (if truthy requestedCwd && negb (is_str "undefined" requestedCwd)
      && negb (is_str "null" requestedCwd)
   then [requestedCwd] else [])
  ++ (if truthy envProjectPath then [envProjectPath] else [])
  ++ [VStr current; VStr homedir].

(** [selectWorkingDirectory(requestedCwd)] *)
Definition selectWorkingDirectory (requestedCwd : value) : M string :=
  IDEA_PROJECT_PATH <- getenv "IDEA_PROJECT_PATH" ;;
  PROJECT_PATH <- getenv "PROJECT_PATH" ;;
  let envProjectPath := js_or IDEA_PROJECT_PATH PROJECT_PATH in
  current <- process_cwd ;;
  let candidates :=
    selectWorkingDirectory_candidates requestedCwd envProjectPath current in
  console_log (DEBUG "selectWorkingDirectory candidates:") ;;
  chosen <- selectWorkingDirectory_loop envProjectPath candidates ;;
  match chosen with
  | Some normalized => ret normalized
  | None =>
      console_log (DEBUG "selectWorkingDirectory fallback triggered") ;;
      ret (as_str (js_or envProjectPath (VStr homedir)))
  end.

End Resolvers.

(** [o.k]: reading a property of [null] or [undefined] throws a TypeError. *)
Definition member (k : string) (o : value) : outcome value :=
  if nullish o then Throw ("Cannot read properties of null (reading '" +:+ k +:+ "')")
  else Ok (prop k o).

(** A receiver that must be a string for a string method to exist on it. *)
Definition string_method (name : string) (v : value) : outcome string :=
  match v with
  | VStr s => Ok s
  | _ => Throw (name +:+ " is not a function")
  end.

(** ** The transcript store *)

Section Transcript.
Context `{Host}.

(** [(cwd || process.cwd()).replace(/[^a-zA-Z0-9]/g, '-')] *)
Definition sanitizedCwd (cwd : value) : M string :=
  current <- process_cwd ;;
  base <- lift (string_method "replace" (js_or cwd (VStr current))) ;;
  ret (Str.dash_non_alnum base).

(** [`${sessionId}.jsonl`] *)
Definition sessionFileName (sessionId : value) : M string :=
  id <- lift (to_string sessionId) ;;
  ret (id +:+ ".jsonl").

(** [{ ...obj, uuid, sessionId, timestamp }] *)
Definition enrich (obj : list (string * value)) (uuid : string)
    (sessionId : value) (timestamp : string) : list (string * value) :=
  set_field "timestamp" (VStr timestamp)
    (set_field "sessionId" sessionId
       (set_field "uuid" (VStr uuid) obj)).

(** [persistJsonlMessage(sessionId, cwd, obj)]; [obj] is an object, given
    by its fields. *)
Definition persistJsonlMessage (sessionId cwd : value) (obj : list (string * value))
  : M unit :=
  try_catch
    (let projectsDir := path_join [homedir; ".claude"; "projects"] in
     sanitized <- sanitizedCwd cwd ;;
     let projectHistoryDir := path_join [projectsDir; sanitized] in
     mkdirSync projectHistoryDir ;;
     name <- sessionFileName sessionId ;;
     let sessionFile := path_join [projectHistoryDir; name] in
     uuid <- draw_uuid ;;
     timestamp <- now_iso ;;
     let enrichedObj := enrich obj uuid sessionId timestamp in
     appendFileSync sessionFile
       (JSON_stringify (VObj enrichedObj) +:+ String Str.newline EmptyString) ;;
     console_log (PERSIST sessionFile))
    (fun e => console_error "[PERSIST_ERROR]" e).

Definition history_entry (role : string) (content : value) : value :=
  VObj [("role", VStr role); ("content", content)].

(** The body of the [for (const line of lines)] loop of
    [loadSessionHistory], with its own [try]/[catch]; [messages] is the
    array built so far and the result is the array afterwards. *)
Definition loadSessionHistory_line (line : string) (messages : list value)
  : M (list value) :=
  try_catch
    (msg <- (match JSON_parse line with
             | Some msg => ret msg
             | None => throw "Unexpected token in JSON"
             end) ;;
     type <- lift (member "type" msg) ;;
     if is_str "user" type && truthy (prop "message" msg)
        && truthy (prop "content" (prop "message" msg))
     then ret (messages ++ [history_entry "user" (prop "content" (prop "message" msg))])
     else if is_str "assistant" type && truthy (prop "message" msg)
             && truthy (prop "content" (prop "message" msg))
     then ret (messages ++ [history_entry "assistant" (prop "content" (prop "message" msg))])
     else ret messages)
    (fun _ => ret messages).

Fixpoint loadSessionHistory_loop (lines : list string) (messages : list value)
  : M (list value) :=
  match lines with
  | [] => ret messages
  | line :: rest =>
      messages' <- loadSessionHistory_line line messages ;;
      loadSessionHistory_loop rest messages'
  end.

(** [messages.length > 0 && messages[messages.length - 1].role === 'user'] *)
Definition last_is_user (messages : list value) : bool :=
  match last messages with
  | Some m => is_str "user" (prop "role" m)
  | None => false
  end.

(** [loadSessionHistory(sessionId, cwd)] *)
Definition loadSessionHistory (sessionId cwd : value) : M (list value) :=
  try_catch
    (let projectsDir := path_join [homedir; ".claude"; "projects"] in
     sanitized <- sanitizedCwd cwd ;;
     name <- sessionFileName sessionId ;;
     let sessionFile := path_join [projectsDir; sanitized; name] in
     present <- existsSync sessionFile ;;
     if negb present then ret []
     else
       content <- readFileSync sessionFile ;;
       let lines :=
         List.filter (fun line => negb (Str.is_empty (Str.trim line)))
                     (Str.split Str.newline content) in
       messages <- loadSessionHistory_loop lines [] ;;
       if last_is_user messages then ret (removelast messages) else ret messages)
    (fun e => console_error "[LOAD_HISTORY_ERROR]" e ;; ret []).

End Transcript.

(** ** The delivery paths *)

(** A parameter declared with the default [= null]. *)
Definition or_null (v : value) : value :=
  match v with VUndefined => VNull | _ => v end.

Fixpoint for_each {A} (body : A -> M unit) (xs : list A) : M unit :=
  match xs with
  | [] => ret tt
  | x :: rest => body x ;; for_each body rest
  end.

Definition nl : string := String Str.newline EmptyString.

Definition zero_usage : value :=
  VObj [("input_tokens", VNum 0); ("output_tokens", VNum 0);
        ("cache_creation_input_tokens", VNum 0); ("cache_read_input_tokens", VNum 0)].

(** The terminal record of a failed exchange. *)
Definition failure_record (message : value) : value :=
  VObj [("success", VBool false); ("error", message)].

(** The terminal record of a completed exchange. *)
Definition success_record (sessionId : value) : value :=
  VObj [("success", VBool true); ("sessionId", sessionId)].

(** [resumeSessionId && resumeSessionId !== ''] *)
Definition resuming (resumeSessionId : value) : bool :=
  truthy resumeSessionId && negb (is_str EmptyString resumeSessionId).

(** The values a [for ... of] loop draws from [v]. *)
Definition iterate (v : value) : outcome (list value) :=
  match v with
  | VArr items => Ok items
  | VStr s => Ok (map (fun c => VStr (String c EmptyString)) (list_ascii_of_string s))
  | _ => Throw "respContent is not iterable"
  end.

(** [parts.join('')] *)
Fixpoint join_empty (parts : list value) : outcome string :=
  match parts with
  | [] => Ok EmptyString
  | x :: rest =>
      match (if nullish x then Ok EmptyString else to_string x) with
      | Throw e => Throw e
      | Ok sx =>
          match join_empty rest with
          | Throw e => Throw e
          | Ok sr => Ok (sx +:+ sr)
          end
      end
  end.

(** [blocks.map(b => b.type === 'text' ? b.text : '')] *)
Fixpoint map_block_text (blocks : list value) : outcome (list value) :=
  match blocks with
  | [] => Ok []
  | b :: rest =>
      match member "type" b with
      | Throw e => Throw e
      | Ok type =>
          match map_block_text rest with
          | Throw e => Throw e
          | Ok texts =>
              Ok ((if is_str "text" type then prop "text" b else VStr EmptyString) :: texts)
          end
      end
  end.

Section Delivery.
Context `{Host}.

(** The body of [for (const block of content)] in the message loop. *)
Definition relay_block (block : value) : M unit :=
  type <- lift (member "type" block) ;;
  if is_str "text" type then console_log (CONTENT (prop "text" block))
  else if is_str "tool_use" type then console_log (DEBUG "Tool use payload:")
  else ret tt.

(** The body of [for await (const msg of result)]; the result is
    [currentSessionId] afterwards. *)
Definition relay_event (msg currentSessionId : value) : M value :=
  type <- lift (member "type" msg) ;;
  _ <- lift (to_string type) ;;
  console_log (DEBUG "Received message") ;;
  console_log (MESSAGE msg) ;;
  (if is_str "assistant" type then
     let content := opt_prop "content" (prop "message" msg) in
     match content with
     | VArr blocks => for_each relay_block blocks
     | VStr _ => console_log (CONTENT content)
     | _ => ret tt
     end
   else ret tt) ;;
  if is_str "system" type && truthy (prop "session_id" msg) then
    console_log (SESSION_ID (prop "session_id" msg)) ;;
    ret (prop "session_id" msg)
  else ret currentSessionId.

Fixpoint relay_events (events : list value) (currentSessionId : value) : M value :=
  match events with
  | [] => ret currentSessionId
  | msg :: rest =>
      currentSessionId' <- relay_event msg currentSessionId ;;
      relay_events rest currentSessionId'
  end.

(** From [await Promise.race([queryPromise, timeoutPromise])] to the end of
    the [try] block; the same code in [sendMessage] and in
    [sendMessageWithAttachments].  The race is decided as soon as it is
    awaited (see [query_result]) and the timer is cleared then, so the
    timer's callback, which would log "Query timeout after 60 seconds" and
    reject with "Claude Code process aborted by user", has no run in which
    it is called; the [for await] loop that follows waits for each message
    without a bound. *)
Definition race_and_relay (p : prompt) (options : query_options)
    (resumeSessionId : value) : M unit :=
  result <- race_query p options ;;
  match result with
  | Rejects message => throw message
  | Stalls events =>
      console_log (DEBUG "Starting message loop...") ;;
      relay_events events resumeSessionId ;;
      never
  | Streams events failure =>
      console_log (DEBUG "Starting message loop...") ;;
      currentSessionId <- relay_events events resumeSessionId ;;
      match failure with
      | Some message => throw message
      | None =>
          console_log (DEBUG "Message loop completed.") ;;
          console_log MESSAGE_END ;;
          console_log (JSON_LINE (success_record currentSessionId))
      end
  end.

(** [for (const p of commonPaths) if (existsSync(p)) return p] *)
Fixpoint first_existing (verbose : bool) (paths : list string) : M (option string) :=
  match paths with
  | [] => ret None
  | p :: rest =>
      present <- existsSync p ;;
      if present then
        (if verbose then console_log (DEBUG "Found Claude CLI at common path:") else ret tt) ;;
        ret (Some p)
      else first_existing verbose rest
  end.

(** One [try { ... execSync(command) ... } catch] step of the executable
    locator; [first_line] is the [.split('\n')[0]] of the second step. *)
Definition locate_with (verbose : bool) (command : string) (first_line : bool)
  : M (option string) :=
  try_catch
    (output <- run_command command ;;
     let found :=
       if first_line then hd EmptyString (Str.split Str.newline (Str.trim output))
       else Str.trim output in
     present <- (if Str.is_empty found then ret false else existsSync found) ;;
     if present then
       (if verbose then console_log (DEBUG "Found Claude CLI via:") else ret tt) ;;
       ret (Some found)
     else ret None)
    (fun _ =>
       (if verbose then console_log (DEBUG "locate command failed:") else ret tt) ;;
       ret None).

(** The closure [getClaudeCliPath] of [sendMessage] ([verbose], six common
    paths) and of [sendMessageWithAttachments] (silent, four). *)
Definition getClaudeCliPath (verbose : bool) : M value :=
  which <- locate_with verbose "which claude" false ;;
  match which with
  | Some p => ret (VStr p)
  | None =>
      where_ <- locate_with verbose "where claude" true ;;
      match where_ with
      | Some p => ret (VStr p)
      | None =>
          HOME <- getenv "HOME" ;;
          home <- lift (to_string HOME) ;;
          USERNAME <- getenv "USERNAME" ;;
          user <- lift (to_string (js_or USERNAME (VStr EmptyString))) ;;
          let commonPaths :=
            ["/usr/local/bin/claude"; "/usr/bin/claude";
             home +:+ "/.nvm/versions/node/v24.11.1/bin/claude";
             home +:+ "/.local/bin/claude"]
            ++ (if verbose
                then ["C:\Program Files\Claude\claude.exe";
                      "C:\Users\" +:+ user +:+ "\AppData\Local\Programs\Claude\claude.exe"]
                else []) in
          common <- first_existing verbose commonPaths ;;
          match common with
          | Some p => ret (VStr p)
          | None =>
              (if verbose then console_log (DEBUG "Claude CLI not found, using SDK default")
               else ret tt) ;;
              ret VUndefined
          end
      end
  end.

(** The [options] object of both native senders. *)
Definition build_options (workingDirectory : string) (permissionMode : value)
    (sdkModelName : string) (claudeCliPath : value) : M query_options :=
  IDEA_PROJECT_PATH <- getenv "IDEA_PROJECT_PATH" ;;
  PROJECT_PATH <- getenv "PROJECT_PATH" ;;
  ret {| opt_cwd := workingDirectory;
         opt_permissionMode := js_or permissionMode (VStr "default");
         opt_model := sdkModelName;
         opt_maxTurns := 100;
         opt_additionalDirectories :=
           dedupe []
             (map as_str
                (List.filter truthy
                   [VStr workingDirectory; IDEA_PROJECT_PATH; PROJECT_PATH]));
         opt_canUseTool := is_str "default" permissionMode;
         opt_pathToClaudeCodeExecutable := claudeCliPath;
         opt_settingSources := ["user"; "project"; "local"];
         opt_resume := VUndefined |}.

(** [options.resume = resumeSessionId] *)
Definition set_resume (resumeSessionId : value) (o : query_options) : query_options :=
  {| opt_cwd := opt_cwd o;
     opt_permissionMode := opt_permissionMode o;
     opt_model := opt_model o;
     opt_maxTurns := opt_maxTurns o;
     opt_additionalDirectories := opt_additionalDirectories o;
     opt_canUseTool := opt_canUseTool o;
     opt_pathToClaudeCodeExecutable := opt_pathToClaudeCodeExecutable o;
     opt_settingSources := opt_settingSources o;
     opt_resume := resumeSessionId |}.

(** [process.env.CLAUDE_CODE_ENTRYPOINT = process.env.CLAUDE_CODE_ENTRYPOINT || 'sdk-ts'] *)
Definition set_entrypoint : M unit :=
  current <- getenv "CLAUDE_CODE_ENTRYPOINT" ;;
  setenv "CLAUDE_CODE_ENTRYPOINT" (as_str (js_or current (VStr "sdk-ts"))).

(** [try { process.chdir(workingDirectory) } catch (chdirError) { ... }] *)
Definition enter_directory (workingDirectory : string) : M unit :=
  try_catch
    (process_chdir workingDirectory ;;
     console_log (DEBUG "Using working directory:"))
    (fun e => console_error "[WARNING]" ("Failed to change process.cwd(): " +:+ e)).

(** [sendMessage(message, resumeSessionId, cwd, permissionMode, model)] *)
Definition sendMessage (message resumeSessionId cwd permissionMode model : value)
  : M unit :=
  let resumeSessionId := or_null resumeSessionId in
  let cwd := or_null cwd in
  let permissionMode := or_null permissionMode in
  let model := or_null model in
  try_catch
    (set_entrypoint ;;
     console_log (DEBUG "CLAUDE_CODE_ENTRYPOINT:") ;;
     creds <- setupApiKey ;;
     custom <- lift (isCustomBaseUrl (baseUrl creds)) ;;
     (if custom then
        console_log (DEBUG "Custom Base URL detected:") ;;
        console_log (DEBUG "Will use system Claude CLI (not Anthropic SDK fallback)")
      else ret tt) ;;
     console_log (DEBUG "sendMessage called with params:") ;;
     _ <- (if truthy (apiKey creds)
           then lift (string_method "apiKey.substring" (apiKey creds))
           else ret EmptyString) ;;
     console_log (DEBUG "API Key loaded:") ;;
     console_log (DEBUG "API Key source:") ;;
     console_log (DEBUG "Base URL:") ;;
     console_log (DEBUG "Base URL source:") ;;
     console_log MESSAGE_START ;;
     console_log (DEBUG "Calling query() with prompt:") ;;
     workingDirectory <- selectWorkingDirectory cwd ;;
     console_log (DEBUG "process.cwd() before chdir:") ;;
     enter_directory workingDirectory ;;
     console_log (DEBUG "process.cwd() after chdir:") ;;
     console_log (DEBUG "Using system temp directory:") ;;
     let sdkModelName := mapModelIdToSdkName model in
     console_log (DEBUG "Model mapping:") ;;
     claudeCliPath <- getClaudeCliPath true ;;
     options <- build_options workingDirectory permissionMode sdkModelName claudeCliPath ;;
     (if truthy claudeCliPath then console_log (DEBUG "Using system Claude CLI:")
      else console_log (DEBUG "Using SDK built-in Claude CLI")) ;;
     console_log (DEBUG "Options:") ;;
     options <- (if resuming resumeSessionId then
                   console_log (RESUMING resumeSessionId) ;;
                   ret (set_resume resumeSessionId options)
                 else ret options) ;;
     console_log (DEBUG "Query started, waiting for messages...") ;;
     race_and_relay (PromptText message) options resumeSessionId)
    (fun error =>
       console_error "[SEND_ERROR]" error ;;
       console_log (JSON_LINE (failure_record (VStr error)))).

End Delivery.

Section Fallback.
Context `{Host}.

Definition text_block (text : value) : value :=
  VObj [("type", VStr "text"); ("text", text)].

(** The diagnostic text shown to the user for an API-level error. *)
Definition api_error_text (errorMsg : string) : string :=
  "API 错误: " +:+ errorMsg +:+ nl +:+ nl +:+ "可能的原因:" +:+ nl
  +:+ "1. API Key 配置不正确" +:+ nl
  +:+ "2. 第三方代理服务配置问题" +:+ nl
  +:+ "3. 请检查 ~/.claude/settings.json 中的配置".

(** [response.error || response.type === 'error'] *)
Definition is_error_response (response : value) : bool :=
  truthy (prop "error" response) || is_str "error" (prop "type" response).

(** The [if (response.error || response.type === 'error') { ... return; }]
    block of [sendMessageWithAnthropicSDK]. *)
Definition report_api_error (response sessionId : value) (modelId : value) : M unit :=
  let errorMsg :=
    js_or (opt_prop "message" (prop "error" response))
      (js_or (prop "message" response) (VStr "Unknown API error")) in
  let errorType :=
    js_or (opt_prop "type" (prop "error" response))
      (js_or (prop "type" response) (VStr "error")) in
  type_text <- lift (to_string errorType) ;;
  console_error "[API_ERROR]" (type_text +:+ ":") ;;
  msg_text <- lift (to_string errorMsg) ;;
  let errorContent := [text_block (VStr (api_error_text msg_text))] in
  message_id <- draw_uuid ;;
  uuid <- draw_uuid ;;
  let assistantMsg :=
    VObj [("type", VStr "assistant");
          ("message",
            VObj [("id", VStr message_id); ("model", modelId);
                  ("role", VStr "assistant"); ("stop_reason", VStr "error");
                  ("type", VStr "message"); ("usage", zero_usage);
                  ("content", VArr errorContent)]);
          ("session_id", sessionId); ("uuid", VStr uuid)] in
  console_log (MESSAGE assistantMsg) ;;
  console_log (CONTENT (VStr (api_error_text msg_text))) ;;
  result_uuid <- draw_uuid ;;
  let resultMsg :=
    VObj [("type", VStr "result"); ("subtype", VStr "error"); ("is_error", VBool true);
          ("duration_ms", VNum 0); ("num_turns", VNum 1);
          ("result", VStr (api_error_text msg_text));
          ("session_id", sessionId); ("total_cost_usd", VNum 0);
          ("usage", zero_usage); ("uuid", VStr result_uuid)] in
  console_log (MESSAGE resultMsg) ;;
  console_log MESSAGE_END ;;
  console_log (JSON_LINE (failure_record errorMsg)).

(** The rest of the [try] block after the error check. *)
Definition report_api_success (response sessionId cwd : value) (modelId : value)
  : M unit :=
  let respContent := js_or (prop "content" response) (VArr []) in
  let usage := js_or (prop "usage" response) (VObj []) in
  let usage_record :=
    VObj [("input_tokens", js_or (prop "input_tokens" usage) (VNum 0));
          ("output_tokens", js_or (prop "output_tokens" usage) (VNum 0));
          ("cache_creation_input_tokens", VNum 0);
          ("cache_read_input_tokens", VNum 0)] in
  message_id <- (if truthy (prop "id" response) then ret (prop "id" response)
                 else fresh <- draw_uuid ;; ret (VStr fresh)) ;;
  uuid <- draw_uuid ;;
  let assistantMsg :=
    VObj [("type", VStr "assistant");
          ("message",
            VObj [("id", message_id);
                  ("model", js_or (prop "model" response) modelId);
                  ("role", VStr "assistant");
                  ("stop_reason", js_or (prop "stop_reason" response) (VStr "end_turn"));
                  ("type", VStr "message"); ("usage", usage_record);
                  ("content", respContent)]);
          ("session_id", sessionId); ("uuid", VStr uuid)] in
  console_log (MESSAGE assistantMsg) ;;
  persistJsonlMessage sessionId cwd
    [("type", VStr "assistant"); ("message", VObj [("content", respContent)])] ;;
  blocks <- lift (iterate respContent) ;;
  for_each
    (fun block =>
       type <- lift (member "type" block) ;;
       if is_str "text" type then console_log (CONTENT (prop "text" block)) else ret tt)
    blocks ;;
  texts <- lift (match respContent with
                 | VArr items => map_block_text items
                 | _ => Throw "respContent.map is not a function"
                 end) ;;
  result <- lift (join_empty texts) ;;
  result_uuid <- draw_uuid ;;
  let resultMsg :=
    VObj [("type", VStr "result"); ("subtype", VStr "success"); ("is_error", VBool false);
          ("duration_ms", VNum 0); ("num_turns", VNum 1);
          ("result", VStr result);
          ("session_id", sessionId); ("total_cost_usd", VNum 0);
          ("usage", usage_record); ("uuid", VStr result_uuid)] in
  console_log (MESSAGE resultMsg) ;;
  console_log MESSAGE_END ;;
  console_log (JSON_LINE (success_record sessionId)).

(** [sendMessageWithAnthropicSDK(message, resumeSessionId, cwd, permissionMode,
    model, apiKey, baseUrl)] *)
Definition sendMessageWithAnthropicSDK
    (message resumeSessionId cwd permissionMode model apiKey baseUrl : value) : M unit :=
  try_catch
    (workingDirectory <- selectWorkingDirectory cwd ;;
     try_catch (process_chdir workingDirectory) (fun _ => ret tt) ;;
     sessionId <- (if resuming resumeSessionId then ret resumeSessionId
                   else fresh <- draw_uuid ;; ret (VStr fresh)) ;;
     let modelId := js_or model (VStr "claude-sonnet-4-5") in
     let client :=
       VObj [("apiKey", apiKey); ("baseURL", js_or baseUrl VUndefined)] in
     console_log MESSAGE_START ;;
     console_log (SESSION_ID sessionId) ;;
     console_log (DEBUG "Using Anthropic SDK fallback for custom Base URL (non-streaming)") ;;
     console_log (DEBUG "Model:") ;;
     console_log (DEBUG "Base URL:") ;;
     let userContent := VArr [text_block message] in
     persistJsonlMessage sessionId cwd
       [("type", VStr "user"); ("message", VObj [("content", userContent)])] ;;
     let current := history_entry "user" userContent in
     messagesForApi <-
       (if resuming resumeSessionId then
          historyMessages <- loadSessionHistory sessionId cwd ;;
          match historyMessages with
          | [] => ret [current]
          | _ :: _ =>
              console_log (DEBUG "Loaded history messages for session continuity") ;;
              ret (historyMessages ++ [current])
          end
        else ret [current]) ;;
     init_uuid <- draw_uuid ;;
     let systemMsg :=
       VObj [("type", VStr "system"); ("subtype", VStr "init");
             ("cwd", VStr workingDirectory); ("session_id", sessionId);
             ("tools", VArr []); ("mcp_servers", VArr []); ("model", modelId);
             ("permissionMode", js_or permissionMode (VStr "default"));
             ("apiKeySource", VStr "ANTHROPIC_API_KEY"); ("uuid", VStr init_uuid)] in
     console_log (MESSAGE systemMsg) ;;
     console_log (DEBUG "Calling messages.create() with non-streaming API...") ;;
     console_log (DEBUG "Request payload:") ;;
     response <- await_messages_create client
                   (VObj [("model", modelId); ("max_tokens", VNum 8192);
                          ("messages", VArr messagesForApi)]) ;;
     console_log (DEBUG "API response received") ;;
     console_log (DEBUG "Raw response:") ;;
     (if nullish response
      then throw "Cannot convert undefined or null to object"
      else console_log (DEBUG "Response keys:")) ;;
     console_log (DEBUG "Response.content:") ;;
     console_log (DEBUG "Response.usage:") ;;
     if is_error_response response
     then report_api_error response sessionId modelId
     else report_api_success response sessionId cwd modelId)
    (fun error =>
       console_error "[SEND_ERROR]" error ;;
       console_log (JSON_LINE (failure_record (VStr error)))).

End Fallback.

Section Attachments.
Context `{Host}.

(** [loadAttachmentsFromEnv()] *)
Definition loadAttachmentsFromEnv : M (list value) :=
  try_catch
    (filePath <- getenv "CLAUDE_ATTACHMENTS_FILE" ;;
     if negb (truthy filePath) then ret []
     else
       content <- readFileSync (as_str filePath) ;;
       match JSON_parse content with
       | None => throw "Unexpected token in JSON"
       | Some (VArr arr) => ret arr
       | Some _ => ret []
       end)
    (fun e =>
       console_error "[ATTACHMENTS]" ("Failed to load attachments: " +:+ e) ;;
       ret []).

(** [loadAttachments(stdinData)] *)
Definition loadAttachments (stdinData : value) : M (list value) :=
  direct <-
    (if truthy stdinData then
       match stdinData with
       | VArr items =>
           console_log (DEBUG "Using attachments from stdin (array format), count:") ;;
           ret (Some items)
       | _ =>
           match prop "attachments" stdinData with
           | VArr items =>
               console_log (DEBUG "Using attachments from stdin (wrapped format), count:") ;;
               ret (Some items)
           | _ => ret None
           end
       end
     else ret None) ;;
  match direct with
  | Some items => ret items
  | None =>
      console_log (DEBUG "Falling back to file-based attachments") ;;
      loadAttachmentsFromEnv
  end.

(** The body of [for (const a of attachments)]: the content block pushed
    for one attachment. *)
Definition attachment_block (a : value) : M value :=
  mediaType <- lift (member "mediaType" a) ;;
  let mt := if is_string mediaType then as_str mediaType else EmptyString in
  if Str.startsWith "image/" mt then
    console_log (DEBUG "Added image block, media_type:") ;;
    ret (VObj [("type", VStr "image");
               ("source",
                 VObj [("type", VStr "base64");
                       ("media_type", js_or (VStr mt) (VStr "image/png"));
                       ("data", prop "data" a)])])
  else
    name <- lift (to_string (js_or (prop "fileName" a) (VStr "附件"))) ;;
    console_log (DEBUG "Added text block for non-image attachment:") ;;
    ret (VObj [("type", VStr "text"); ("text", VStr ("[附件: " +:+ name +:+ "]"))]).

Fixpoint attachment_blocks (attachments : list value) : M (list value) :=
  match attachments with
  | [] => ret []
  | a :: rest =>
      block <- attachment_block a ;;
      blocks <- attachment_blocks rest ;;
      ret (block :: blocks)
  end.

Definition count_blocks (kind : string) (blocks : list value) : nat :=
  length (List.filter (fun b => is_str kind (prop "type" b)) blocks).

(** The text sent for an empty message. *)
Definition placeholder_text (contentBlocks : list value) : string :=
  let imageCount := count_blocks "image" contentBlocks in
  let textCount := count_blocks "text" contentBlocks in
  if (0 <? imageCount)%nat then "[已上传 " +:+ pretty imageCount +:+ " 张图片]"
  else if (0 <? textCount)%nat then "[已上传附件]"
  else "[空消息]".

(** [sendMessageWithAttachments(message, resumeSessionId, cwd, permissionMode,
    model, stdinData)] *)
Definition sendMessageWithAttachments
    (message resumeSessionId cwd permissionMode model stdinData : value) : M unit :=
  let resumeSessionId := or_null resumeSessionId in
  let cwd := or_null cwd in
  let permissionMode := or_null permissionMode in
  let model := or_null model in
  let stdinData := or_null stdinData in
  try_catch
    (set_entrypoint ;;
     creds <- setupApiKey ;;
     console_log (DEBUG "============================================") ;;
     console_log (DEBUG "sendMessageWithAttachments called (using Claude Agent SDK)") ;;
     console_log (DEBUG "Base URL:") ;;
     _ <- lift (isCustomBaseUrl (baseUrl creds)) ;;
     console_log (DEBUG "Is custom Base URL:") ;;
     console_log (DEBUG "Model:") ;;
     console_log (DEBUG "Session ID:") ;;
     console_log (DEBUG "API Key source:") ;;
     console_log (DEBUG "Base URL source:") ;;
     console_log (DEBUG "stdin data provided:") ;;
     console_log (DEBUG "============================================") ;;
     console_log MESSAGE_START ;;
     workingDirectory <- selectWorkingDirectory cwd ;;
     console_log (DEBUG "process.cwd() before chdir:") ;;
     enter_directory workingDirectory ;;
     attachments <- loadAttachments stdinData ;;
     console_log (DEBUG "Loaded attachments count:") ;;
     contentBlocks <- attachment_blocks attachments ;;
     blank <- (if negb (truthy message) then ret true
               else
                 text <- lift (string_method "userText.trim" message) ;;
                 ret (Str.is_empty (Str.trim text))) ;;
     userText <- (if (blank : bool) then
                    console_log (DEBUG "Empty message replaced with:") ;;
                    ret (VStr (placeholder_text contentBlocks))
                  else ret message) ;;
     let contentBlocks := contentBlocks ++ [VObj [("type", VStr "text"); ("text", userText)]] in
     let userMessage :=
       VObj [("type", VStr "user"); ("session_id", VStr EmptyString);
             ("parent_tool_use_id", VNull);
             ("message", VObj [("role", VStr "user"); ("content", VArr contentBlocks)])] in
     console_log (DEBUG "Built SDKUserMessage with content blocks:") ;;
     let sdkModelName := mapModelIdToSdkName model in
     console_log (DEBUG "Model mapping:") ;;
     claudeCliPath <- getClaudeCliPath false ;;
     console_log (DEBUG "Claude CLI path:") ;;
     let inputStream := AsyncStream.done (AsyncStream.enqueue userMessage AsyncStream.new) in
     options <- build_options workingDirectory permissionMode sdkModelName claudeCliPath ;;
     options <- (if resuming resumeSessionId then
                   console_log (RESUMING resumeSessionId) ;;
                   ret (set_resume resumeSessionId options)
                 else ret options) ;;
     console_log (DEBUG "Options:") ;;
     console_log (DEBUG "Calling query() with inputStream...") ;;
     race_and_relay (PromptStream inputStream) options resumeSessionId)
    (fun error =>
       console_error "[DEBUG]" "sendMessageWithAttachments FAILED!" ;;
       console_error "[SEND_ERROR]" error ;;
       console_log (JSON_LINE (failure_record (VStr error)))).

End Attachments.

(** ** The session reader and the command surface *)

(** [msg !== null] *)
Definition not_null (v : value) : bool :=
  match v with VNull => false | _ => true end.

(** What the standard input does first once it is listened to: it ends after
    delivering [data], it fails, or it stays silent until the 5000 ms timer
    fires. *)
Inductive stdin_behaviour : Type :=
| StdinEnds (data : string)
| StdinFails (message : string)
| StdinSilent.

(** How a run of the script is left: it ran to its end, where [Some code]
    is the code [process.exit] was called with and [None] says it was not
    called; or the command it awaits never settled. *)
Inductive ending : Type :=
| Ended (exit : option Z)
| Waiting.

(** [args[i]] *)
Definition arg (i : nat) (args : list value) : value := nth i args VUndefined.

Section Commands.
Context `{Host}.

(** [getSessionMessages(sessionId, cwd)] *)
Definition getSessionMessages (sessionId cwd : value) : M unit :=
  let cwd := or_null cwd in
  try_catch
    (let projectsDir := path_join [homedir; ".claude"; "projects"] in
     sanitized <- sanitizedCwd cwd ;;
     let projectHistoryDir := path_join [projectsDir; sanitized] in
     name <- sessionFileName sessionId ;;
     let sessionFile := path_join [projectHistoryDir; name] in
     present <- existsSync sessionFile ;;
     if negb present then
       console_log (JSON_LINE (failure_record (VStr "Session file not found")))
     else
       content <- readFileSync sessionFile ;;
       let messages :=
         List.filter not_null
           (map (fun line => match JSON_parse line with
                             | Some msg => msg
                             | None => VNull
                             end)
                (List.filter (fun line => negb (Str.is_empty (Str.trim line)))
                             (Str.split Str.newline content))) in
       console_log (JSON_LINE (VObj [("success", VBool true); ("messages", VArr messages)])))
    (fun error =>
       console_error "[GET_SESSION_ERROR]" error ;;
       console_log (JSON_LINE (failure_record (VStr error)))).

(** [readStdinData()]; the promise resolves with the parsed input or with
    [null]. *)
Definition readStdinData (stdin : stdin_behaviour) : M value :=
  flag <- getenv "CLAUDE_USE_STDIN" ;;
  if negb (is_str "true" flag) then ret VNull
  else
    match stdin with
    | StdinSilent =>
        console_log (DEBUG "stdin read timeout, no data received") ;;
        ret VNull
    | StdinFails message =>
        console_error "[STDIN]" ("Error reading stdin: " +:+ message) ;;
        ret VNull
    | StdinEnds data =>
        if Str.is_empty (Str.trim data) then ret VNull
        else
          try_catch
            (parsed <- (match JSON_parse data with
                        | Some parsed => ret parsed
                        | None => throw "Unexpected token in JSON"
                        end) ;;
             (if nullish parsed
              then throw "Cannot convert undefined or null to object"
              else console_log (DEBUG "Successfully read stdin data, keys:")) ;;
             ret parsed)
            (fun e =>
               console_error "[STDIN]" ("Failed to parse stdin JSON: " +:+ e) ;;
               ret VNull)
    end.

(** The [switch (command)] of the entry point; [Some code] is
    [process.exit(code)]. *)
Definition dispatch (command : value) (args : list value) (stdin : stdin_behaviour)
  : M (option Z) :=
  if is_str "send" command then
    sendMessage (arg 0 args) (arg 1 args) (arg 2 args) (arg 3 args) (arg 4 args) ;;
    ret None
  else if is_str "sendWithAttachments" command then
    stdinData <- readStdinData stdin ;;
    sendMessageWithAttachments (arg 0 args) (arg 1 args) (arg 2 args) (arg 3 args)
      (arg 4 args) stdinData ;;
    ret None
  else if is_str "getSession" command then
    getSessionMessages (arg 0 args) (arg 1 args) ;;
    ret None
  else
    console_error "Unknown command:" EmptyString ;;
    name <- lift (to_string command) ;;
    console_log (JSON_LINE (failure_record (VStr ("Unknown command: " +:+ name)))) ;;
    ret (Some 1%Z).

(** The entry point: the command and its arguments are [process.argv[2]]
    and [process.argv.slice(3)]. *)
Definition main (command : value) (args : list value) (stdin : stdin_behaviour)
  : World -> ending * World :=
  fun w =>
    match
      try_catch (dispatch command args stdin)
        (fun error =>
           console_error "[COMMAND_ERROR]" error ;;
           console_log (JSON_LINE (failure_record (VStr error))) ;;
           ret (Some 1%Z)) w
    with
    | (Settled (Ok exit), w') => (Ended exit, w')
    | (Settled (Throw reason), w') =>
        (Ended (Some 1%Z),
         snd ((console_error "[UNHANDLED_REJECTION]" reason ;;
               console_log (JSON_LINE (failure_record (VStr reason)))) w'))
    | (Unsettled, w') => (Waiting, w')
    end.

End Commands.

(** ** A reference host

    A concrete [Host] on which the model runs: POSIX-style paths, a JSON
    reader and printer for the JSON grammar with integer numbers (and
    without [\u] escapes), and numbered UUIDs and timestamps.  The external
    services are its parameters. *)

Module Reference.

Definition quote : ascii := "034"%char.

Definition is_json_space (c : ascii) : bool :=
  match c with
  | " "%char | "009"%char | "010"%char | "013"%char => true
  | _ => false
  end.

Fixpoint skip_ws (s : string) : string :=
  match s with
  | String c r => if is_json_space c then skip_ws r else s
  | EmptyString => s
  end.

(** The characters of a string literal after its opening quote, up to the
    closing one. *)
Fixpoint read_string (s : string) : option (string * string) :=
  match s with
  | EmptyString => None
  | String c r =>
      if Ascii.eqb c quote then Some (EmptyString, r)
      else if Ascii.eqb c "\"%char then
        match r with
        | String e r' =>
            let unescaped :=
              match e with
              | "034"%char => Some "034"%char
              | "\"%char => Some "\"%char
              | "/"%char => Some "/"%char
              | "b"%char => Some "008"%char
              | "f"%char => Some "012"%char
              | "n"%char => Some "010"%char
              | "r"%char => Some "013"%char
              | "t"%char => Some "009"%char
              | _ => None
              end in
            match unescaped, read_string r' with
            | Some u, Some (body, rest) => Some (String u body, rest)
            | _, _ => None
            end
        | EmptyString => None
        end
      else if (nat_of_ascii c <? 32)%nat then None
      else
        match read_string r with
        | Some (body, rest) => Some (String c body, rest)
        | None => None
        end
  end.

Definition digit_of (c : ascii) : option Z :=
  let n := nat_of_ascii c in
  if (48 <=? n)%nat && (n <=? 57)%nat then Some (Z.of_nat (n - 48)) else None.

Fixpoint read_digits (acc : Z) (s : string) : Z * string :=
  match s with
  | String c r =>
      match digit_of c with
      | Some d => read_digits (10 * acc + d) r
      | None => (acc, s)
      end
  | EmptyString => (acc, s)
  end.

(** An integer numeral: no leading zero, no fraction, no exponent. *)
Definition read_number (s : string) : option (Z * string) :=
  let '(negative, body) :=
    match s with
    | String "-"%char r => (true, r)
    | _ => (false, s)
    end in
  match body with
  | String c r =>
      match digit_of c with
      | None => None
      | Some d =>
          let '(n, rest) := if (d =? 0)%Z then (0%Z, r) else read_digits d r in
          match rest with
          | String "."%char _ | String "e"%char _ | String "E"%char _ => None
          | _ => Some (if negative then (- n)%Z else n, rest)
          end
      end
  | EmptyString => None
  end.

Inductive mode : Type :=
| MValue
| MElements (acc : list value)
| MMembers (acc : list (string * value)).

Fixpoint read (fuel : nat) (m : mode) (s : string) : option (value * string) :=
  match fuel with
  | O => None
  | S fuel' =>
      match m with
      | MValue =>
          match skip_ws s with
          | String "{"%char r =>
              match skip_ws r with
              | String "}"%char r' => Some (VObj [], r')
              | _ => read fuel' (MMembers []) r
              end
          | String "["%char r =>
              match skip_ws r with
              | String "]"%char r' => Some (VArr [], r')
              | _ => read fuel' (MElements []) r
              end
          | String "034"%char r =>
              match read_string r with
              | Some (text, rest) => Some (VStr text, rest)
              | None => None
              end
          | String "t"%char (String "r"%char (String "u"%char (String "e"%char r))) =>
              Some (VBool true, r)
          | String "f"%char
              (String "a"%char (String "l"%char (String "s"%char (String "e"%char r)))) =>
              Some (VBool false, r)
          | String "n"%char (String "u"%char (String "l"%char (String "l"%char r))) =>
              Some (VNull, r)
          | other =>
              match read_number other with
              | Some (n, rest) => Some (VNum n, rest)
              | None => None
              end
          end
      | MElements acc =>
          match read fuel' MValue s with
          | Some (v, rest) =>
              match skip_ws rest with
              | String ","%char r => read fuel' (MElements (acc ++ [v])) r
              | String "]"%char r => Some (VArr (acc ++ [v]), r)
              | _ => None
              end
          | None => None
          end
      | MMembers acc =>
          match skip_ws s with
          | String "034"%char r =>
              match read_string r with
              | Some (key, rest) =>
                  match skip_ws rest with
                  | String ":"%char r' =>
                      match read fuel' MValue r' with
                      | Some (v, rest') =>
                          match skip_ws rest' with
                          | String ","%char r'' =>
                              read fuel' (MMembers (set_field key v acc)) r''
                          | String "}"%char r'' => Some (VObj (set_field key v acc), r'')
                          | _ => None
                          end
                      | None => None
                      end
                  | _ => None
                  end
              | None => None
              end
          | _ => None
          end
      end
  end.

(** [JSON.parse(text)] *)
Definition parse (text : string) : option value :=
  match read (2 * String.length text + 2) MValue text with
  | Some (v, rest) => if Str.is_empty (skip_ws rest) then Some v else None
  | None => None
  end.

Definition hex_digit (n : nat) : ascii :=
  ascii_of_nat (if (n <? 10)%nat then 48 + n else 87 + n).

Fixpoint escape (s : string) : string :=
  match s with
  | EmptyString => EmptyString
  | String c r =>
      let n := nat_of_ascii c in
      (if Ascii.eqb c quote then String "\"%char (String quote EmptyString)
       else if Ascii.eqb c "\"%char then "\\"
       else if Ascii.eqb c "010"%char then "\n"
       else if Ascii.eqb c "013"%char then "\r"
       else if Ascii.eqb c "009"%char then "\t"
       else if Ascii.eqb c "008"%char then "\b"
       else if Ascii.eqb c "012"%char then "\f"
       else if (n <? 32)%nat
       then "\u00" +:+ String (hex_digit (n / 16)) (String (hex_digit (n mod 16)) EmptyString)
       else String c EmptyString) +:+ escape r
  end.

Definition quoted (s : string) : string :=
  String quote (escape s) +:+ String quote EmptyString.

Definition comma (first : bool) : string :=
  if first then EmptyString else ",".

(** [JSON.stringify(v)]; [undefined] prints as [null] inside an array and
    its key is left out of an object. *)
Fixpoint print (v : value) : string :=
  match v with
  | VUndefined => "null"
  | VNull => "null"
  | VBool b => if b then "true" else "false"
  | VNum n => pretty n
  | VStr s => quoted s
  | VArr items =>
      "[" +:+
      (fix elements (first : bool) (xs : list value) : string :=
         match xs with
         | [] => EmptyString
         | x :: rest => comma first +:+ print x +:+ elements false rest
         end) true items
      +:+ "]"
  | VObj fields =>
      "{" +:+
      (fix members (first : bool) (fs : list (string * value)) : string :=
         match fs with
         | [] => EmptyString
         | (k, VUndefined) :: rest => members first rest
         | (k, x) :: rest =>
             comma first +:+ quoted k +:+ ":" +:+ print x +:+ members false rest
         end) true fields
      +:+ "}"
  end.

Fixpoint join_path (parts : list string) : string :=
  match parts with
  | [] => "."
  | [p] => p
  | p :: rest => p +:+ "/" +:+ join_path rest
  end.

Definition resolve_path (cwd p : string) : string :=
  if Str.startsWith "/" p then p else cwd +:+ "/" +:+ p.

(** A Linux host whose streaming calls end as [streaming] says and whose
    non-streaming requests are answered by [answer]. *)
Definition host (streaming : query_result) (answer : outcome value) : Host :=
  {| platform := "linux";
     homedir := "/home/user";
     tmpdir := "/tmp";
     path_resolve := resolve_path;
     path_join := join_path;
     JSON_parse := parse;
     JSON_stringify := print;
     randomUUID := fun n => "uuid-" +:+ pretty n;
     toISOString := fun n => "2025-01-01T00:00:00." +:+ pretty n +:+ "Z";
     execSync := fun _ => None;
     sdk_query := fun _ _ => streaming;
     messages_create := fun _ _ => answer |}.

(** A process started in [/home/user/proj] with the given environment and
    files, on a machine with the usual directories. *)
Definition world (environment files : list (string * string)) : World :=
  {| env := list_to_map environment;
     cwd := "/home/user/proj";
     files := list_to_map files;
     dirs := list_to_set ["/"; "/tmp"; "/home/user"; "/home/user/proj"];
     uuids := 0; ticks := 0; stdout := []; stderr := []; calls := [] |}.

End Reference.


(** ** Sample runs *)

Module Scenario.

(** A process that was given an API key. *)
Definition keyed_world : World :=
  Reference.world [("ANTHROPIC_API_KEY", "sk-test-0123456789abcdef")] [].

(** The same behind a third-party endpoint. *)
Definition proxied_world : World :=
  Reference.world [("ANTHROPIC_API_KEY", "sk-test-0123456789abcdef");
                   ("ANTHROPIC_BASE_URL", "https://proxy.example.com")] [].

(** The options both native senders build in these worlds. *)
Definition options (resume : value) : query_options :=
  {| opt_cwd := "/home/user/proj";
     opt_permissionMode := VStr "default";
     opt_model := "sonnet";
     opt_maxTurns := 100;
     opt_additionalDirectories := ["/home/user/proj"];
     opt_canUseTool := false;
     opt_pathToClaudeCodeExecutable := VUndefined;
     opt_settingSources := ["user"; "project"; "local"];
     opt_resume := resume |}.

(** A stream that announces session [sess-1] and answers "hi". *)
Definition greeting : query_result :=
  Streams
    [VObj [("type", VStr "system"); ("subtype", VStr "init");
           ("session_id", VStr "sess-1")];
     VObj [("type", VStr "assistant");
           ("message",
             VObj [("content", VArr [VObj [("type", VStr "text"); ("text", VStr "hi")]])])]]
    None.

(** A stream that announces session [sess-1] and then delivers nothing
    more. *)
Definition stalled : query_result :=
  Stalls
    [VObj [("type", VStr "system"); ("subtype", VStr "init");
           ("session_id", VStr "sess-1")]].

(** An error-shaped response of the messages API. *)
Definition rejected : value :=
  VObj [("type", VStr "error");
        ("error", VObj [("type", VStr "authentication_error");
                        ("message", VStr "invalid x-api-key")])].

(** A successful response that carries an [error] field set to [null]. *)
Definition answered : value :=
  VObj [("id", VStr "msg_1"); ("error", VNull);
        ("content", VArr [VObj [("type", VStr "text"); ("text", VStr "hi")]])].

(** The client and the request of a first "hello" on the fallback path. *)
Definition client : value :=
  VObj [("apiKey", VStr "sk-test-0123456789abcdef");
        ("baseURL", VStr "https://proxy.example.com")].

Definition request : value :=
  VObj [("model", VStr "claude-sonnet-4-5"); ("max_tokens", VNum 8192);
        ("messages",
          VArr [VObj [("role", VStr "user");
                      ("content",
                        VArr [VObj [("type", VStr "text"); ("text", VStr "hello")]])]])].

End Scenario.

(** ** Notions used to state the properties *)

(** [p] occurs in [s]. *)
Definition contains (p s : string) : Prop :=
  exists before after, s = before +:+ p +:+ after.

(** [p] is an initial segment of [s]. *)
Definition has_prefix (p s : string) : Prop :=
  exists after, s = p +:+ after.

(** A computation that only reads the world: it settles, it never changes
    the world, and its result does not depend on what was printed so far. *)
Definition reader {A} (m : M A) : Prop :=
  forall w l,
    m (with_stdout l w) = (fst (m w), with_stdout l w) /\ fst (m w) <> Unsettled.

Section ResolverNotions.
Context `{Host}.

Definition env_value (e : gmap string string) (name : string) : value :=
  match e !! name with Some s => VStr s | None => VUndefined end.

(** [process.env.IDEA_PROJECT_PATH || process.env.PROJECT_PATH] *)
Definition env_project_path (w : World) : value :=
  js_or (env_value (env w) "IDEA_PROJECT_PATH") (env_value (env w) "PROJECT_PATH").

(** The prefixes [getTempPathPrefixes()] returns in [w]. *)
Definition temp_prefixes (w : World) : list string :=
  match fst (getTempPathPrefixes w) with Settled (Ok l) => l | _ => [] end.

(** What the resolver's loop makes of one candidate on its own. *)
Definition judged (envProjectPath : value) (w : World) (candidate : value)
  : option string :=
  match fst (selectWorkingDirectory_loop envProjectPath [candidate] w) with
  | Settled (Ok accepted) => accepted
  | _ => None
  end.

(** The first candidate, in order, that is accepted on its own. *)
Fixpoint first_accepted (envProjectPath : value) (w : World) (candidates : list value)
  : option string :=
  match candidates with
  | [] => None
  | candidate :: rest =>
      match judged envProjectPath w candidate with
      | Some normalized => Some normalized
      | None => first_accepted envProjectPath w rest
      end
  end.

End ResolverNotions.

Section AttachmentNotions.
Context `{Host}.

(** The attachment sequence a side-channel payload delivers directly: a bare
    array, or the [attachments] array of a wrapper object. *)
Definition direct_attachments (stdinData : value) : option (list value) :=
  match stdinData with
  | VArr items => Some items
  | VObj _ =>
      match prop "attachments" stdinData with
      | VArr items => Some items
      | _ => None
      end
  | _ => None
  end.

(** The content of the legacy file named by [CLAUDE_ATTACHMENTS_FILE]: the
    array it holds, and the empty sequence when the variable is unset or
    empty, the file cannot be read, is no JSON, or holds no array. *)
Definition legacy_attachments (w : World) : list value :=
  match env w !! "CLAUDE_ATTACHMENTS_FILE" with
  | None => []
  | Some path =>
      if Str.is_empty path then []
      else
        match files w !! path with
        | None => []
        | Some text =>
            match JSON_parse text with
            | Some (VArr items) => items
            | _ => []
            end
        end
  end.

(** The loader as the claim words it: the direct sequence only when it is
    present and non-empty, the legacy file otherwise. *)
Definition loadAttachments_as_claimed (stdinData : value) (w : World) : list value :=
  match direct_attachments stdinData with
  | Some (a :: rest) => a :: rest
  | _ => legacy_attachments w
  end.

End AttachmentNotions.

Section TranscriptNotions.
Context `{Host}.

(** The lines of a transcript that are handed to the JSON reader. *)
Definition transcript_lines (content : string) : list string :=
  List.filter (fun line => negb (Str.is_empty (Str.trim line)))
              (Str.split Str.newline content).

Definition role_of (type : value) : option string :=
  if is_str "user" type then Some "user"
  else if is_str "assistant" type then Some "assistant"
  else None.

(** The history entry a parsed line is kept as, by the rule of the code: its
    type is 'user' or 'assistant' and both [message] and [message.content]
    are truthy. *)
Definition kept_entry (msg : value) : option value :=
  match role_of (prop "type" msg) with
  | Some role =>
      if truthy (prop "message" msg) && truthy (prop "content" (prop "message" msg))
      then Some (history_entry role (prop "content" (prop "message" msg)))
      else None
  | None => None
  end.

(** The same by the wording of the claim: its type is 'user' or 'assistant'
    and it has a [message.content] field. *)
Definition kept_entry_as_claimed (msg : value) : option value :=
  match role_of (prop "type" msg), prop "message" msg with
  | Some role, VObj fields =>
      match assoc "content" fields with
      | Some content => Some (history_entry role content)
      | None => None
      end
  | _, _ => None
  end.

(** The entries read from a transcript, in file order: unparsable lines are
    skipped, parsed ones are kept or not by [keep]. *)
Definition entries_of (keep : value -> option value) (content : string) : list value :=
  omap (fun line => match JSON_parse line with
                    | Some msg => keep msg
                    | None => None
                    end)
       (transcript_lines content).

(** ... with the final entry removed when its role is 'user'. *)
Definition history_of (keep : value -> option value) (content : string) : list value :=
  let entries := entries_of keep content in
  if last_is_user entries then removelast entries else entries.

(** The transcript file of a session, as [loadSessionHistory] names it. *)
Definition session_file (sessionId projectPath : value) (w : World) : outcome string :=
  match string_method "replace" (js_or projectPath (VStr (cwd w))), to_string sessionId with
  | Ok base, Ok id =>
      Ok (path_join [path_join [homedir; ".claude"; "projects"];
                     Str.dash_non_alnum base; id +:+ ".jsonl"])
  | Throw e, _ => Throw e
  | _, Throw e => Throw e
  end.

End TranscriptNotions.

(** *** What a run adds to the console and to the requests issued *)

Definition is_session_id_line (l : line) : bool :=
  match l with SESSION_ID _ => true | _ => false end.

Definition not_session_id (l : line) : Prop := is_session_id_line l = false.

Definition any_line (l : line) : Prop := True.

(** [m] extends the console by some lines [ls] and the requests by some
    calls [cs], and these and what becomes of [m] satisfy [C]. *)
Definition emits {A} (C : list line -> list call -> fate A -> Prop) (m : M A) : Prop :=
  forall w, exists ls cs,
    stdout (snd (m w)) = stdout w ++ ls
    /\ calls (snd (m w)) = calls w ++ cs
    /\ C ls cs (fst (m w)).

(** [m] settles, issues no request and prints only lines satisfying [P]. *)
Definition silent {A} (P : line -> Prop) (m : M A) : Prop :=
  emits (fun ls cs r => Forall P ls /\ cs = [] /\ r <> Unsettled) m.

(** [C] still holds when lines satisfying [P] were printed before, and it
    holds of a failure that came with such lines and no request. *)
Definition absorbs {A} (P : line -> Prop)
    (C : list line -> list call -> fate A -> Prop) : Prop :=
  (forall l1 ls cs r, Forall P l1 -> C ls cs r -> C (l1 ++ ls) cs r)
  /\ (forall l1 e, Forall P l1 -> C l1 [] (Throw e)).

Section DeliveryNotions.
Context `{Host}.

(** At most one request was issued, and it is the native streaming call
    carrying [message] as its prompt. *)
Definition native_only (message : value) (ls : list line) (cs : list call)
    (r : fate unit) : Prop :=
  cs = [] \/ exists options, cs = [Query (PromptText message) options].

End DeliveryNotions.

(** The [catch] block of a sender prints the failure record and nothing else
    on the console. *)
Definition reports_failure (handler : string -> M unit) : Prop :=
  forall e, emits (fun ls cs r =>
                     ls = [JSON_LINE (failure_record (VStr e))] /\ cs = [] /\ r = Ok tt)
                  (handler e).

Section FallbackNotions.
Context `{Host}.

(** [response.error?.message || response.message || 'Unknown API error'] *)
Definition error_message_of (response : value) : value :=
  js_or (opt_prop "message" (prop "error" response))
    (js_or (prop "message" response) (VStr "Unknown API error")).

(** [response.error?.type || response.type || 'error'] *)
Definition error_type_of (response : value) : value :=
  js_or (opt_prop "type" (prop "error" response))
    (js_or (prop "type" response) (VStr "error")).

(** The console lines that close an exchange whose response was an API
    error with message text [msg_text]: an assistant message with stop
    reason "error" carrying the diagnostic text, the text itself, a result
    message flagged [is_error], the end marker and the failure record. *)
Definition error_report (response : value) (msg_text : string) (ls : list line) : Prop :=
  exists before assistantMsg resultMsg,
    ls = before
         ++ [MESSAGE assistantMsg; CONTENT (VStr (api_error_text msg_text));
             MESSAGE resultMsg; MESSAGE_END;
             JSON_LINE (failure_record (error_message_of response))]
    /\ prop "type" assistantMsg = VStr "assistant"
    /\ prop "stop_reason" (prop "message" assistantMsg) = VStr "error"
    /\ prop "content" (prop "message" assistantMsg)
       = VArr [text_block (VStr (api_error_text msg_text))]
    /\ prop "type" resultMsg = VStr "result"
    /\ prop "is_error" resultMsg = VBool true.

(** If the one request issued was answered by an error-shaped response whose
    type and message convert to text, the run ended normally with the error
    report. *)
Definition api_error_outcome (ls : list line) (cs : list call) (r : fate unit) : Prop :=
  forall client request response type_text msg_text,
    cs = [MessagesCreate client request] ->
    messages_create client request = Ok response ->
    is_error_response response = true ->
    to_string (error_type_of response) = Ok type_text ->
    to_string (error_message_of response) = Ok msg_text ->
    r = Ok tt /\ error_report response msg_text ls.

End FallbackNotions.

(** ** Further notions *)

(** [n] successive calls of [next()] and what each handed back. *)
Fixpoint reads (n : nat) (s : AsyncStream.t) : list AsyncStream.next_result :=
  match n with
  | O => []
  | S n' => fst (AsyncStream.next s) :: reads n' (snd (AsyncStream.next s))
  end.

(** [enqueue] applied to each value in turn. *)
Definition enqueue_all (vs : list value) (s : AsyncStream.t) : AsyncStream.t :=
  fold_left (fun acc v => AsyncStream.enqueue v acc) vs s.

(** The promises resolved so far. *)
Definition settled_ids (s : AsyncStream.t) : list nat :=
  map fst (AsyncStream.settled s).

(** The bookkeeping every reachable channel state satisfies: a reader waits
    only on an empty queue, its promise exists and is unresolved, and no
    promise was resolved twice. *)
Definition channel_ok (s : AsyncStream.t) : Prop :=
  (forall p, AsyncStream.readResolve s = Some p ->
             AsyncStream.queue s = [] /\ (p < AsyncStream.promises s)%nat
             /\ ~ In p (settled_ids s))
  /\ NoDup (settled_ids s)
  /\ Forall (fun p => (p < AsyncStream.promises s)%nat) (settled_ids s).

Section CredentialNotions.
Context `{Host}.

(** The settings object [loadClaudeSettings()] returns in [w]. *)
Definition settings_of (w : World) : value :=
  match fst (loadClaudeSettings w) with Settled (Ok settings) => settings | _ => VNull end.

(** [settings?.env?.[name]] *)
Definition settings_var (w : World) (name : string) : value :=
  opt_prop name (opt_prop "env" (settings_of w)).

(** The API key by precedence: [env.ANTHROPIC_API_KEY] of the settings file,
    then its [env.ANTHROPIC_AUTH_TOKEN], then the process environment. *)
Definition configured_key (w : World) : value :=
  js_or (settings_var w "ANTHROPIC_API_KEY")
    (js_or (settings_var w "ANTHROPIC_AUTH_TOKEN")
       (env_value (env w) "ANTHROPIC_API_KEY")).

(** The base URL by precedence: the settings file, then the process
    environment. *)
Definition configured_url (w : World) : value :=
  js_or (settings_var w "ANTHROPIC_BASE_URL") (env_value (env w) "ANTHROPIC_BASE_URL").

(** The temp prefixes a Windows host takes from [os.tmpdir()] and from the
    variables [TEMP], [TMP] and [LOCALAPPDATA]. *)
Definition windows_environment_prefixes (w : World) : list string :=
  let of_var (name : string) : list string :=
    if truthy (env_value (env w) name)
    then [normalizePathForComparison (as_str (env_value (env w) name))] else [] in
  (if Str.is_empty tmpdir then [] else [normalizePathForComparison tmpdir])
  ++ of_var "TEMP" ++ of_var "TMP" ++ of_var "LOCALAPPDATA"
  ++ (if truthy (env_value (env w) "LOCALAPPDATA")
      then [normalizePathForComparison
              (path_join [as_str (env_value (env w) "LOCALAPPDATA"); "Temp"])]
      else []).

End CredentialNotions.

(** [path.join] on Windows, for parts that need no normalization. *)
Fixpoint join_backslash (parts : list string) : string :=
  match parts with
  | [] => "."
  | [p] => p
  | p :: rest => p +:+ "\" +:+ join_backslash rest
  end.

(** A Windows machine: the reference host with another platform, home and
    temp directory, and paths that are given in full. *)
Definition windows_host : Host :=
  let linux := Reference.host (Rejects "unused") (Throw "unused") in
  {| platform := "win32";
     homedir := "C:\Users\user";
     tmpdir := "C:\Users\user\AppData\Local\Temp";
     path_resolve := fun _ p => p;
     path_join := join_backslash;
     JSON_parse := @JSON_parse linux;
     JSON_stringify := @JSON_stringify linux;
     randomUUID := @randomUUID linux;
     toISOString := @toISOString linux;
     execSync := @execSync linux;
     sdk_query := @sdk_query linux;
     messages_create := @messages_create linux |}.

(** No backslash occurs in [s]. *)
Definition no_backslash_in (s : string) : Prop :=
  forall before after, s <> before +:+ String "\"%char after.

(** What [setupApiKey] writes to the error stream when no key is found. *)
Definition missing_key_notice : string :=
  "[ERROR] API Key not configured. Please set ANTHROPIC_API_KEY in environment or ~/.claude/settings.json".

(** *** Kinds of console lines *)

(** A line of the progress trace that precedes the exchange with the SDK. *)
Definition trace_line (l : line) : Prop :=
  match l with DEBUG _ | MESSAGE_START | RESUMING _ => True | _ => False end.

(** A line that closes an exchange: the end marker or the result record. *)
Definition closing_line (l : line) : bool :=
  match l with MESSAGE_END | JSON_LINE _ => true | _ => false end.

Definition open_line (l : line) : Prop := closing_line l = false.

(** The payloads of the [[MESSAGE]], [[SESSION_ID]] and [[CONTENT]] lines
    among [ls], in order. *)
Definition messages_in (ls : list line) : list value :=
  omap (fun l => match l with MESSAGE msg => Some msg | _ => None end) ls.

Definition session_ids_in (ls : list line) : list value :=
  omap (fun l => match l with SESSION_ID id => Some id | _ => None end) ls.

Definition contents_in (ls : list line) : list value :=
  omap (fun l => match l with CONTENT text => Some text | _ => None end) ls.

(** [m] returns [a], appends [ls] to the console and changes nothing else,
    whatever the world. *)
Definition prints {A} (m : M A) (a : A) (ls : list line) : Prop :=
  forall w, m w = (Ok a, with_stdout (stdout w ++ ls) w).

(** Every result [m] returns satisfies [R]. *)
Definition returns {A} (R : A -> Prop) (m : M A) : Prop :=
  forall w a, fst (m w) = Ok a -> R a.

(** *** Events of a stream *)

(** The event announces a session: [msg.type === 'system' && msg.session_id]. *)
Definition announces (msg : value) : bool :=
  is_str "system" (prop "type" msg) && truthy (prop "session_id" msg).

(** The session id after [events]: the last one announced, or [sid]. *)
Definition announced (events : list value) (sid : value) : value :=
  fold_left (fun sid msg => if announces msg then prop "session_id" msg else sid)
            events sid.

Definition announcements (events : list value) : list value :=
  map (prop "session_id") (List.filter announces events).

(** The texts an event shows: of an assistant event, the text of each text
    block of its content array, or its content when that is a string. *)
Definition shown_texts (msg : value) : list value :=
  if is_str "assistant" (prop "type" msg) then
    match opt_prop "content" (prop "message" msg) with
    | VArr blocks =>
        map (prop "text") (List.filter (fun b => is_str "text" (prop "type" b)) blocks)
    | VStr text => [VStr text]
    | _ => []
    end
  else [].

(** An event the relay loop can read: it is not [null] or [undefined], its
    type converts to text, and an assistant event's content array holds no
    [null] or [undefined] block. *)
Definition relayable (msg : value) : bool :=
  negb (nullish msg)
  && match to_string (prop "type" msg) with Ok _ => true | Throw _ => false end
  && (if is_str "assistant" (prop "type" msg) then
        match opt_prop "content" (prop "message" msg) with
        | VArr blocks => forallb (fun b => negb (nullish b)) blocks
        | _ => true
        end
      else true).

(** *** Options of a streaming call *)

(** The options follow the request: permission mode (default 'default'),
    the permission callback only for an explicit 'default', the model tier,
    100 turns, the three setting sources, [resume] exactly for a non-empty
    resume id, and the working directory among the additional directories,
    which hold no duplicate. *)
Definition requested_options (resumeSessionId permissionMode model : value)
    (o : query_options) : Prop :=
  opt_permissionMode o = js_or permissionMode (VStr "default")
  /\ opt_canUseTool o = is_str "default" permissionMode
  /\ opt_model o = mapModelIdToSdkName model
  /\ opt_maxTurns o = 100%Z
  /\ opt_settingSources o = ["user"; "project"; "local"]
  /\ opt_resume o = (if resuming resumeSessionId then resumeSessionId else VUndefined)
  /\ (opt_cwd o <> EmptyString -> In (opt_cwd o) (opt_additionalDirectories o))
  /\ NoDup (opt_additionalDirectories o).

(** [C] of the [try] block of a sender, seen from outside its [catch]: the
    sender ends normally, a failure adding the failure record, unless the
    block stays unsettled, and then so does the sender. *)
Definition closed_by (C : list line -> list call -> fate unit -> Prop)
    (ls : list line) (cs : list call) (r : fate unit) : Prop :=
  exists ls0 r0,
    C ls0 cs r0
    /\ match r0 with
       | Settled (Ok _) => r = Ok tt /\ ls = ls0
       | Settled (Throw e) =>
           r = Ok tt /\ ls = ls0 ++ [JSON_LINE (failure_record (VStr e))]
       | Unsettled => r = Unsettled /\ ls = ls0
       end.

(** *** The prompt of the multimodal sender *)

(** [!userText || userText.trim() === ''] *)
Definition blank_message (message : value) : bool :=
  negb (truthy message)
  || match message with VStr s => Str.is_empty (Str.trim s) | _ => false end.

(** The text block that ends the content: the message, or the placeholder
    that stands for a blank one. *)
Definition closing_text (blocks : list value) (message : value) : value :=
  VObj [("type", VStr "text");
        ("text", if blank_message message then VStr (placeholder_text blocks)
                 else message)].

(** The SDK user message built around [content]. *)
Definition user_message (content : list value) : value :=
  VObj [("type", VStr "user"); ("session_id", VStr EmptyString);
        ("parent_tool_use_id", VNull);
        ("message", VObj [("role", VStr "user"); ("content", VArr content)])].

(** The block that stands for attachment [a]: an image block with its
    base64 data when the media type starts with "image/", a text block
    naming the file otherwise. *)
Definition stands_for (a block : value) : Prop :=
  match prop "mediaType" a with
  | VStr mt =>
      if Str.startsWith "image/" mt then
        prop "type" block = VStr "image"
        /\ prop "data" (prop "source" block) = prop "data" a
        /\ prop "media_type" (prop "source" block) = VStr mt
      else
        prop "type" block = VStr "text"
        /\ exists name, to_string (js_or (prop "fileName" a) (VStr "附件")) = Ok name
                        /\ prop "text" block = VStr ("[附件: " +:+ name +:+ "]")
  | _ =>
      prop "type" block = VStr "text"
      /\ exists name, to_string (js_or (prop "fileName" a) (VStr "附件")) = Ok name
                      /\ prop "text" block = VStr ("[附件: " +:+ name +:+ "]")
  end.

(** *** The frame of an exchange *)

Definition debug_line (l : line) : Prop :=
  match l with DEBUG _ => True | _ => False end.

(** A line printed between the start marker and the closing lines. *)
Definition inner_line (l : line) : Prop :=
  match l with MESSAGE_START | MESSAGE_END | JSON_LINE _ => False | _ => True end.

(** What the [try] block of a sender leaves after the start marker: on
    success the end marker and the success record, after inner lines only;
    on failure, and while it stays unsettled, inner lines only. *)
Definition closes (P : line -> Prop) (ls : list line) (r : fate unit) : Prop :=
  match r with
  | Settled (Ok _) =>
      exists body sid,
        ls = body ++ [MESSAGE_END; JSON_LINE (success_record sid)] /\ Forall P body
  | Settled (Throw _) | Unsettled => Forall P ls
  end.

Section StallNotions.
Context `{Host}.

(** The one request issued was a streaming call whose stream stalls. *)
Definition waits_on_stall (cs : list call) : Prop :=
  exists p options events, cs = [Query p options] /\ sdk_query p options = Stalls events.

(** What the [try] block of a sender leaves as a whole: debug lines and a
    failure, or debug lines, the start marker, and the rest as [closes]
    says; it stays unsettled only on a stream that stalls. *)
Definition starts (ls : list line) (cs : list call) (r : fate unit) : Prop :=
  (Forall debug_line ls /\ cs = [] /\ exists e, r = Throw e)
  \/ exists pre post,
      ls = pre ++ MESSAGE_START :: post /\ Forall debug_line pre
      /\ closes inner_line post r
      /\ (r = Unsettled -> waits_on_stall cs).

(** What follows the start marker: the closing lines, and a stalled stream
    when the block stays unsettled. *)
Definition after_start (ls : list line) (cs : list call) (r : fate unit) : Prop :=
  closes inner_line ls r /\ (r = Unsettled -> waits_on_stall cs).

End StallNotions.

(** The console lines of one exchange are framed: debug lines first; then
    either the failure record alone, or the start marker, inner lines, and
    the closing lines: the failure record, or the end marker followed by
    the success record. *)
Definition framed (added : list line) : Prop :=
  exists pre,
    Forall debug_line pre
    /\ ((exists e, added = pre ++ [JSON_LINE (failure_record (VStr e))])
        \/ (exists body e,
              added = pre ++ [MESSAGE_START] ++ body
                          ++ [JSON_LINE (failure_record (VStr e))]
              /\ Forall inner_line body)
        \/ (exists body sid,
              added = pre ++ [MESSAGE_START] ++ body
                          ++ [MESSAGE_END; JSON_LINE (success_record sid)]
              /\ Forall inner_line body)).

(** The console lines of an exchange that was begun and not closed: debug
    lines, the start marker and inner lines; no end marker and no record. *)
Definition open_frame (added : list line) : Prop :=
  exists pre body,
    added = pre ++ [MESSAGE_START] ++ body
    /\ Forall debug_line pre /\ Forall inner_line body.

(** What a streaming call that delivered [events] leaves on the console:
    the relayed events, then the end marker and the success record with the
    session id in force, or the failure record when the stream broke. *)
Definition stream_reported (resumeSessionId : value) (events : list value)
    (failure : option string) (added : list line) : Prop :=
  exists body,
    added = body ++ match failure with
                    | None =>
                        [MESSAGE_END;
                         JSON_LINE (success_record (announced events resumeSessionId))]
                    | Some e => [JSON_LINE (failure_record (VStr e))]
                    end
    /\ messages_in body = events
    /\ session_ids_in body = announcements events
    /\ contents_in body = flat_map shown_texts events
    /\ Forall open_line body.

Section ExchangeNotions.
Context `{Host}.

(** If the one request issued was the streaming call [Query p options] and
    it delivered readable [events], the run printed them and the closing
    lines, and failed exactly when the stream broke. *)
Definition stream_outcome (resumeSessionId : value)
    (ls : list line) (cs : list call) (r : fate unit) : Prop :=
  forall p options events failure,
    cs = [Query p options] ->
    sdk_query p options = Streams events failure ->
    forallb relayable events = true ->
    exists body,
      messages_in body = events
      /\ session_ids_in body = announcements events
      /\ contents_in body = flat_map shown_texts events
      /\ Forall open_line body
      /\ match failure with
         | None =>
             r = Ok tt
             /\ ls = body ++ [MESSAGE_END;
                              JSON_LINE (success_record (announced events resumeSessionId))]
         | Some e => r = Throw e /\ ls = body
         end.

(** What a streaming call that stalled after [events] leaves on the console:
    the relayed events and nothing that closes the exchange, neither the end
    marker nor a record. *)
Definition stall_reported (events : list value) (added : list line) : Prop :=
  messages_in added = events
  /\ session_ids_in added = announcements events
  /\ contents_in added = flat_map shown_texts events
  /\ Forall open_line added.

(** If the one request issued was the streaming call [Query p options] and
    its stream stalled after readable [events], the run printed them and
    stays unsettled. *)
Definition stall_outcome (ls : list line) (cs : list call) (r : fate unit) : Prop :=
  forall p options events,
    cs = [Query p options] ->
    sdk_query p options = Stalls events ->
    forallb relayable events = true ->
    r = Unsettled /\ stall_reported events ls.

End ExchangeNotions.

(** No request, or the one streaming call with a text prompt and options
    that follow the request. *)
Definition asks_as_requested (message resumeSessionId permissionMode model : value)
    (cs : list call) : Prop :=
  cs = []
  \/ exists options,
      cs = [Query (PromptText message) options]
      /\ requested_options resumeSessionId permissionMode model options.

(** No request, or the one streaming call whose prompt is a finished stream
    of a single user message: one block per attachment, in order, then the
    text block. *)
Definition asks_with_attachments
    (message resumeSessionId permissionMode model stdinData : value)
    (cs : list call) : Prop :=
  cs = []
  \/ exists attachments blocks options inputStream,
      cs = [Query (PromptStream inputStream) options]
      /\ requested_options resumeSessionId permissionMode model options
      /\ (forall k,
            reads (1 + k) inputStream
            = AsyncStream.Now
                (AsyncStream.Yield (user_message (blocks ++ [closing_text blocks message])))
              :: repeat (AsyncStream.Now AsyncStream.Finished) k)
      /\ Forall2 stands_for attachments blocks
      /\ (forall items, direct_attachments stdinData = Some items -> attachments = items).

(** *** The session reader *)

Section ReaderNotions.
Context `{Host}.

(** The transcript file of a session, as [getSessionMessages] and
    [persistJsonlMessage] name it: the file name joined to the joined
    project directory. *)
Definition transcript_file (sessionId projectPath : value) (w : World) : outcome string :=
  match string_method "replace" (js_or projectPath (VStr (cwd w))), to_string sessionId with
  | Ok base, Ok id =>
      Ok (path_join [path_join [path_join [homedir; ".claude"; "projects"];
                                Str.dash_non_alnum base];
                     id +:+ ".jsonl"])
  | Throw e, _ => Throw e
  | _, Throw e => Throw e
  end.

(** The messages of a transcript: each non-blank line that is JSON and not
    the JSON [null], in file order. *)
Definition stored_messages (content : string) : list value :=
  omap (fun line => match JSON_parse line with
                    | Some VNull | None => None
                    | Some msg => Some msg
                    end)
       (transcript_lines content).

(** The record [getSessionMessages] answers with in [w]. *)
Definition session_answer (sessionId projectPath : value) (w : World) : value :=
  match transcript_file sessionId projectPath w with
  | Throw e => failure_record (VStr e)
  | Ok file =>
      match files w !! file with
      | Some content =>
          VObj [("success", VBool true); ("messages", VArr (stored_messages content))]
      | None =>
          if bool_decide (file ∈ dirs w)
          then failure_record (VStr "EISDIR: illegal operation on a directory, read")
          else failure_record (VStr "Session file not found")
      end
  end.

End ReaderNotions.




(** The commands of the entry point. *)
Definition known_command (command : value) : bool :=
  is_str "send" command || is_str "sendWithAttachments" command
  || is_str "getSession" command.

(** [p] names a file or a directory of [w]: [existsSync(p)]. *)
Definition present (p : string) (w : World) : Prop :=
  is_Some (files w !! p) \/ p ∈ dirs w.

(** Promise [p] of channel [s] was created, is not the one a reader waits
    on, and was not resolved. *)
Definition abandoned (p : nat) (s : AsyncStream.t) : Prop :=
  (p < AsyncStream.promises s)%nat
  /\ AsyncStream.readResolve s <> Some p
  /\ ~ In p (settled_ids s).

(** *** Lines of a transcript *)

(** [s] holds no line break. *)
Fixpoint single_line (s : string) : bool :=
  match s with
  | EmptyString => true
  | String c r => negb (Ascii.eqb c Str.newline) && single_line r
  end.

(** [s] is empty or ends with a line break: a file that holds whole lines. *)
Fixpoint whole_lines (s : string) : bool :=
  match s with
  | EmptyString => true
  | String c EmptyString => Ascii.eqb c Str.newline
  | String _ r => whole_lines r
  end.

(** *** What the resolver looks at *)

(** The parts of the world the working-directory resolver reads: the six
    environment variables it consults, the working directory of the process
    and the file system. *)
Definition resolver_inputs (w : World)
  : list (option string) * string * gset string * gmap string string :=
  (map (fun name => env w !! name)
       ["IDEA_PROJECT_PATH"; "PROJECT_PATH"; "TMPDIR"; "TEMP"; "TMP"; "LOCALAPPDATA"],
   cwd w, dirs w, files w).

(** [m] leaves the view [V] of the world as it was. *)
Definition keeps {X A} (V : World -> X) (m : M A) : Prop :=
  forall w, V (snd (m w)) = V w.

(** [emits], for the runs that start in a world whose view is [x]. *)
Definition emits_from {X A} (V : World -> X) (x : X)
    (C : list line -> list call -> fate A -> Prop) (m : M A) : Prop :=
  forall w, V w = x ->
    exists ls cs,
      stdout (snd (m w)) = stdout w ++ ls
      /\ calls (snd (m w)) = calls w ++ cs
      /\ C ls cs (fst (m w)).

(** No request, or the one streaming call, made in directory [directory]. *)
Definition asks_in (directory : fate string) (cs : list call) : Prop :=
  cs = []
  \/ exists p options,
      cs = [Query p options] /\ directory = Ok (opt_cwd options).

(** *** What a run may change *)

(** The variables a sender sets in the environment of the process. *)
Definition exported (name : string) : bool :=
  String.eqb name "CLAUDE_CODE_ENTRYPOINT" || String.eqb name "ANTHROPIC_API_KEY"
  || String.eqb name "ANTHROPIC_BASE_URL".

(** The file system and one environment variable. *)
Definition kept_view (name : string) (w : World)
  : gmap string string * gset string * option string :=
  (files w, dirs w, env w !! name).
(** * Properties *)

(** ** Strings *)

Lemma app_cons (c : ascii) (s t : string) : String c s +:+ t = String c (s +:+ t).
Proof. reflexivity. Qed.

Lemma app_empty (t : string) : EmptyString +:+ t = t.
Proof. reflexivity. Qed.

Lemma startsWith_spec p s : Str.startsWith p s = true <-> has_prefix p s.
Proof.
  unfold has_prefix. revert s.
  induction p as [|a p IH]; intros s; simpl.
  - split; [intros _; exists s; reflexivity | reflexivity].
  - destruct s as [|b s].
    + split; [discriminate | intros [r Hr]; discriminate].
    + destruct (Ascii.eqb_spec a b) as [->|Hne].
      * rewrite IH. split; intros [r Hr].
        -- exists r. rewrite app_cons. now rewrite <- Hr.
        -- exists r. rewrite app_cons in Hr. now inversion Hr.
      * split; [discriminate |].
        intros [r Hr]. rewrite app_cons in Hr. congruence.
Qed.

Lemma includes_spec p s : Str.includes p s = true <-> contains p s.
Proof.
  unfold contains.
  induction s as [|c s IH].
  - cbn [Str.includes]. rewrite orb_false_r, startsWith_spec.
    split.
    + intros [r Hr]. exists EmptyString, r. exact Hr.
    + intros [a [b Hab]]. destruct a as [|c a].
      * exists b. exact Hab.
      * rewrite app_cons in Hab. discriminate.
  - cbn [Str.includes]. rewrite orb_true_iff, startsWith_spec, IH.
    split.
    + intros [[r Hr] | [a [b Hab]]].
      * exists EmptyString, r. exact Hr.
      * exists (String c a), b. rewrite app_cons. now rewrite Hab.
    + intros [a [b Hab]]. destruct a as [|c' a].
      * left. exists b. exact Hab.
      * right. rewrite app_cons in Hab. inversion Hab. exists a, b. reflexivity.
Qed.

Lemma includes_false p s : Str.includes p s = false <-> ~ contains p s.
Proof.
  rewrite <- includes_spec. destruct (Str.includes p s); split; congruence.
Qed.

(** ** Model name mapping *)

(** C4.  For every model identifier string: if the lowercased identifier
    contains "opus" the mapping yields 'opus' (also when it contains "haiku"
    as well); otherwise, if it contains "haiku", it yields 'haiku';
    otherwise (neither substring, any unrecognized string) it yields the
    default 'sonnet'. *)
Theorem mapModelIdToSdkName_tiers (modelId : string) :
  let lowered := Str.toLowerCase modelId in
  (contains "opus" lowered -> mapModelIdToSdkName (VStr modelId) = "opus")
  /\ (~ contains "opus" lowered -> contains "haiku" lowered ->
      mapModelIdToSdkName (VStr modelId) = "haiku")
  /\ (~ contains "opus" lowered -> ~ contains "haiku" lowered ->
      mapModelIdToSdkName (VStr modelId) = "sonnet").
Proof.
  intros lowered. subst lowered.
  unfold mapModelIdToSdkName.
  destruct modelId as [|c rest].
  - (* the empty identifier is falsy: the guard answers before any search *)
    cbn. repeat split.
    + intros Ho. apply includes_spec in Ho. discriminate.
    + intros _ Hh. apply includes_spec in Hh. discriminate.
  - change (truthy (VStr (String c rest))) with true.
    change (is_string (VStr (String c rest))) with true.
    cbn [negb orb as_str].
    repeat split.
    + intros Ho. apply includes_spec in Ho. now rewrite Ho.
    + intros Ho Hh. apply includes_false in Ho. apply includes_spec in Hh.
      now rewrite Ho, Hh.
    + intros Ho Hh. apply includes_false in Ho. apply includes_false in Hh.
      now rewrite Ho, Hh.
Qed.

Example mapModelIdToSdkName_samples :
  mapModelIdToSdkName (VStr "claude-OPUS-4-1") = "opus"
  /\ mapModelIdToSdkName (VStr "claude-3-5-haiku") = "haiku"
  /\ mapModelIdToSdkName (VStr "claude-sonnet-4-5") = "sonnet"
  /\ mapModelIdToSdkName (VStr "haiku-then-opus") = "opus"
  /\ mapModelIdToSdkName (VStr "gpt-4o") = "sonnet"
  /\ mapModelIdToSdkName VNull = "sonnet".
Proof. repeat split; reflexivity. Qed.

(** ** The single-use async channel *)

Lemma asyncIterator_started (s : AsyncStream.t) :
  AsyncStream.started s = true ->
  AsyncStream.asyncIterator s = (Throw "Stream can only be iterated once", s).
Proof. intros Hs. unfold AsyncStream.asyncIterator. now rewrite Hs. Qed.

Lemma step_keeps_started (o : AsyncStream.op) (s : AsyncStream.t) :
  AsyncStream.started s = true -> AsyncStream.started (AsyncStream.step o s) = true.
Proof.
  intros Hs. destruct o; cbn [AsyncStream.step].
  - now rewrite asyncIterator_started.
  - unfold AsyncStream.next.
    destruct (AsyncStream.queue s); [destruct (AsyncStream.isDone s)|]; exact Hs.
  - unfold AsyncStream.enqueue. destruct (AsyncStream.readResolve s); exact Hs.
  - unfold AsyncStream.done. destruct (AsyncStream.readResolve s); exact Hs.
  - exact Hs.
Qed.

Lemma run_keeps_started (ops : list AsyncStream.op) (s : AsyncStream.t) :
  AsyncStream.started s = true -> AsyncStream.started (AsyncStream.run ops s) = true.
Proof.
  revert s. induction ops as [|o ops IH]; intros s Hs; [exact Hs|].
  cbn [AsyncStream.run fold_left]. apply IH. now apply step_keeps_started.
Qed.

Lemma run_without_iterate (ops : list AsyncStream.op) (s : AsyncStream.t) :
  Forall (fun o => o <> AsyncStream.OpIterate) ops ->
  AsyncStream.started s = false ->
  AsyncStream.started (AsyncStream.run ops s) = false.
Proof.
  intros Hops. revert s.
  induction Hops as [|o ops Ho _ IH]; intros s Hs; [exact Hs|].
  cbn [AsyncStream.run fold_left]. apply IH.
  destruct o; cbn [AsyncStream.step].
  - congruence.
  - unfold AsyncStream.next.
    destruct (AsyncStream.queue s); [destruct (AsyncStream.isDone s)|]; exact Hs.
  - unfold AsyncStream.enqueue. destruct (AsyncStream.readResolve s); exact Hs.
  - unfold AsyncStream.done. destruct (AsyncStream.readResolve s); exact Hs.
  - exact Hs.
Qed.

(** C8.  The channel may be iterated exactly once.  Whatever the producer
    and the consumer did before ([before]: values enqueued, reads, the
    channel marked finished, but no iteration yet), the first request for
    the iterator succeeds and marks the channel started; whatever happens
    afterwards ([between], which may change the queue and the finished
    state), a further request throws "Stream can only be iterated once" and
    leaves the channel as it was. *)
Theorem asyncIterator_only_once (before between : list AsyncStream.op) :
  Forall (fun o => o <> AsyncStream.OpIterate) before ->
  let fresh := AsyncStream.run before AsyncStream.new in
  let iterating := snd (AsyncStream.asyncIterator fresh) in
  let later := AsyncStream.run between iterating in
  fst (AsyncStream.asyncIterator fresh) = Ok tt
  /\ AsyncStream.started iterating = true
  /\ AsyncStream.asyncIterator later = (Throw "Stream can only be iterated once", later).
Proof.
  intros Hbefore fresh iterating later.
  assert (Hfresh : AsyncStream.started fresh = false)
    by (apply run_without_iterate; [exact Hbefore | reflexivity]).
  assert (Hiter : AsyncStream.started iterating = true).
  { subst iterating. unfold AsyncStream.asyncIterator. now rewrite Hfresh. }
  split; [|split].
  - unfold AsyncStream.asyncIterator. now rewrite Hfresh.
  - exact Hiter.
  - apply asyncIterator_started. subst later. now apply run_keeps_started.
Qed.

(** A channel fed one message and marked finished, as
    [sendMessageWithAttachments] prepares it, then read to its end. *)
Lemma asyncIterator_only_once_witness :
  let before := [AsyncStream.OpEnqueue (VStr "hello"); AsyncStream.OpDone] in
  let between := [AsyncStream.OpNext; AsyncStream.OpNext; AsyncStream.OpReturn] in
  let fresh := AsyncStream.run before AsyncStream.new in
  let iterating := snd (AsyncStream.asyncIterator fresh) in
  let later := AsyncStream.run between iterating in
  Forall (fun o => o <> AsyncStream.OpIterate) before
  /\ fst (AsyncStream.asyncIterator fresh) = Ok tt
  /\ AsyncStream.started iterating = true
  /\ AsyncStream.asyncIterator later = (Throw "Stream can only be iterated once", later).
Proof.
  assert (H : Forall (fun o => o <> AsyncStream.OpIterate)
                [AsyncStream.OpEnqueue (VStr "hello"); AsyncStream.OpDone])
    by (repeat constructor; discriminate).
  split; [exact H|].
  exact (asyncIterator_only_once
           [AsyncStream.OpEnqueue (VStr "hello"); AsyncStream.OpDone]
           [AsyncStream.OpNext; AsyncStream.OpNext; AsyncStream.OpReturn] H).
Defined.

(** ** Computations that only read the world *)

Lemma with_stdout_id (w : World) : with_stdout (stdout w) w = w.
Proof. now destruct w. Qed.

Lemma with_stdout_twice (l l' : list line) (w : World) :
  with_stdout l (with_stdout l' w) = with_stdout l w.
Proof. reflexivity. Qed.

Lemma reader_run {A} (m : M A) (w : World) : reader m -> m w = (fst (m w), w).
Proof. intros Hm. rewrite <- (with_stdout_id w) at 1 3. apply (Hm w (stdout w)). Qed.

Lemma reader_settles {A} (m : M A) (w : World) : reader m -> fst (m w) <> Unsettled.
Proof. intros Hm. apply (Hm w []). Qed.

(** A primitive that settles at once and leaves the world alone. *)
Ltac reader_leaf := intros w l; split; [reflexivity | discriminate].

Lemma reader_ret {A} (a : A) : reader (ret a).
Proof. reader_leaf. Qed.

Lemma reader_throw {A} (e : string) : reader (@throw A e).
Proof. reader_leaf. Qed.

Lemma reader_lift {A} (o : outcome A) : reader (lift o).
Proof. reader_leaf. Qed.

Lemma reader_bind {A B} (m : M A) (k : A -> M B) :
  reader m -> (forall a, reader (k a)) -> reader (bind m k).
Proof.
  intros Hm Hk w l. unfold bind.
  destruct (Hm w l) as [Hl Hs]. rewrite Hl, (reader_run m w Hm).
  destruct (fst (m w)) as [[a|e]|]; cbn [fst];
    [apply Hk | split; [reflexivity | discriminate] | contradiction].
Qed.

Lemma reader_try_catch {A} (m : M A) (h : string -> M A) :
  reader m -> (forall e, reader (h e)) -> reader (try_catch m h).
Proof.
  intros Hm Hh w l. unfold try_catch.
  destruct (Hm w l) as [Hl Hs]. rewrite Hl, (reader_run m w Hm).
  destruct (fst (m w)) as [[a|e]|]; cbn [fst];
    [split; [reflexivity | discriminate] | apply Hh | contradiction].
Qed.

Lemma reader_getenv (name : string) : reader (getenv name).
Proof. reader_leaf. Qed.

Lemma reader_process_cwd : reader process_cwd.
Proof. reader_leaf. Qed.

Lemma reader_existsSync (p : string) : reader (existsSync p).
Proof. reader_leaf. Qed.

Lemma reader_statSync_isDirectory (p : string) : reader (statSync_isDirectory p).
Proof.
  intros w l. unfold statSync_isDirectory. cbn [dirs files with_stdout].
  repeat case_decide; split; (reflexivity || discriminate).
Qed.

Lemma reader_readFileSync (p : string) : reader (readFileSync p).
Proof.
  intros w l. unfold readFileSync. cbn [dirs files with_stdout].
  destruct (files w !! p); [split; (reflexivity || discriminate)|].
  case_decide; split; (reflexivity || discriminate).
Qed.

Lemma reader_resolve `{Host} (p : string) : reader (resolve p).
Proof. reader_leaf. Qed.

Lemma reader_run_command `{Host} (command : string) : reader (run_command command).
Proof.
  unfold run_command. destruct (execSync command); [apply reader_ret | apply reader_throw].
Qed.

Create HintDb readers.
#[export] Hint Resolve reader_ret reader_throw reader_lift reader_getenv reader_process_cwd
  reader_existsSync reader_statSync_isDirectory reader_readFileSync
  reader_resolve reader_run_command : readers.

(** Decomposes a goal [reader m] along the structure of [m]. *)
Ltac reader_step :=
  match goal with
  | |- reader (bind _ _) => apply reader_bind; [|intros ?]
  | |- reader (try_catch _ _) => apply reader_try_catch; [|intros ?]
  | |- reader (if ?b then _ else _) => destruct b
  | |- reader (match ?x with _ => _ end) => destruct x
  | |- reader (let '(_, _) := ?x in _) => destruct x
  | |- reader _ => solve [auto with readers]
  end.
Ltac prove_reader := repeat reader_step.

Section ResolverFacts.
Context `{Host}.

Lemma reader_sanitizePath (candidate : value) : reader (sanitizePath candidate).
Proof. unfold sanitizePath. prove_reader. Qed.

Lemma reader_getTempPathPrefixes : reader getTempPathPrefixes.
Proof. unfold getTempPathPrefixes. prove_reader. Qed.

Lemma reader_isTempDirectory (p : string) : reader (isTempDirectory p).
Proof.
  unfold isTempDirectory. destruct (Str.is_empty p); [apply reader_ret|].
  apply reader_bind; [apply reader_getTempPathPrefixes | intros ?; apply reader_ret].
Qed.

End ResolverFacts.

(** ** The working directory resolver *)

Section ResolverLoop.
Context `{Host}.

Lemma sanitizePath_run (c : value) (w : World) : exists r, sanitizePath c w = (Ok r, w).
Proof.
  unfold sanitizePath.
  destruct (negb (truthy c) || negb (is_string c) || Str.is_empty (Str.trim (as_str c)));
    eexists; reflexivity.
Qed.

Lemma getTempPathPrefixes_run (w : World) :
  getTempPathPrefixes w = (Ok (temp_prefixes w), w).
Proof.
  unfold temp_prefixes, getTempPathPrefixes.
  destruct (Str.eqb platform "win32"); reflexivity.
Qed.

Lemma isTempDirectory_run (n : string) (w : World) :
  exists b, isTempDirectory n w = (Ok b, w).
Proof.
  unfold isTempDirectory. destruct (Str.is_empty n).
  - eexists. reflexivity.
  - unfold bind. rewrite getTempPathPrefixes_run. eexists. reflexivity.
Qed.

(** What the loop does with its first candidate. *)
Ltac close_world w :=
  first [ eexists; reflexivity
        | exists (stdout w); rewrite with_stdout_id; reflexivity ].

Lemma loop_cons (envp : value) (c : value) (rest : list value) (w : World) :
  exists l,
    selectWorkingDirectory_loop envp (c :: rest) w
    = match judged envp w c with
      | Some n => (Ok (Some n), with_stdout l w)
      | None => selectWorkingDirectory_loop envp rest (with_stdout l w)
      end.
Proof.
  unfold judged. cbn [selectWorkingDirectory_loop]. unfold bind.
  destruct (sanitizePath_run c w) as [r Hr]. rewrite Hr.
  destruct r as [n|]; [|cbn; close_world w].
  destruct (isTempDirectory_run n w) as [b Hb]. rewrite Hb.
  destruct (b && truthy envp); [cbn; close_world w|].
  unfold try_catch, statSync_isDirectory, console_log, ret.
  repeat case_decide; cbn; close_world w.
Qed.

Lemma judged_formula (envp : value) (w : World) (c : value) :
  judged envp w c
  = match fst (sanitizePath c w) with
    | Settled (Ok (Some n)) =>
        match fst (isTempDirectory n w) with
        | Settled (Ok b) =>
            if b && truthy envp then None
            else if bool_decide (n ∈ dirs w) then Some n else None
        | _ => None
        end
    | _ => None
    end.
Proof.
  unfold judged. cbn [selectWorkingDirectory_loop]. unfold bind.
  destruct (sanitizePath_run c w) as [r Hr]. rewrite Hr. cbn [fst].
  destruct r as [n|]; [|reflexivity].
  destruct (isTempDirectory_run n w) as [b Hb]. rewrite Hb. cbn [fst].
  destruct (b && truthy envp); [reflexivity|].
  unfold try_catch, statSync_isDirectory, console_log, ret.
  destruct (decide (n ∈ dirs w)) as [Hd|Hd].
  - rewrite (bool_decide_eq_true_2 _ Hd). reflexivity.
  - rewrite (bool_decide_eq_false_2 _ Hd). case_decide; reflexivity.
Qed.

Lemma judged_ignores_stdout (envp : value) (w : World) (l : list line) (c : value) :
  judged envp (with_stdout l w) c = judged envp w c.
Proof.
  rewrite !judged_formula.
  rewrite (proj1 (reader_sanitizePath c w l)). cbn [fst].
  destruct (fst (sanitizePath c w)) as [[[n|]|]|]; try reflexivity.
  rewrite (proj1 (reader_isTempDirectory n w l)). reflexivity.
Qed.

Lemma first_accepted_ignores_stdout (envp : value) (w : World) (l : list line)
    (cs : list value) :
  first_accepted envp (with_stdout l w) cs = first_accepted envp w cs.
Proof.
  induction cs as [|c cs IH]; [reflexivity|].
  cbn [first_accepted]. now rewrite judged_ignores_stdout, IH.
Qed.

Lemma loop_run (envp : value) (cs : list value) (w : World) :
  exists l,
    selectWorkingDirectory_loop envp cs w
    = (Ok (first_accepted envp w cs), with_stdout l w).
Proof.
  revert w. induction cs as [|c cs IH]; intros w.
  - exists (stdout w). now rewrite with_stdout_id.
  - destruct (loop_cons envp c cs w) as [l Hl]. rewrite Hl.
    cbn [first_accepted].
    destruct (judged envp w c) as [n|]; [exists l; reflexivity|].
    destruct (IH (with_stdout l w)) as [l' Hl']. rewrite Hl'.
    exists l'. now rewrite first_accepted_ignores_stdout.
Qed.

Lemma app_empty_r (s : string) : s +:+ EmptyString = s.
Proof. induction s as [|c s IH]; [reflexivity|]. now rewrite app_cons, IH. Qed.

Lemma isTempDirectory_prefix (n : string) (w : World) :
  fst (isTempDirectory n w) = Ok true
  <-> exists p, In p (temp_prefixes w) /\ p <> EmptyString
                /\ has_prefix p (normalizePathForComparison n).
Proof.
  unfold isTempDirectory.
  destruct (Str.is_empty n) eqn:Hn.
  - cbn. split; [discriminate|].
    intros (p & _ & Hp & [after Ha]).
    destruct n; [|discriminate]. unfold normalizePathForComparison in Ha. cbn in Ha.
    destruct p; [congruence | rewrite app_cons in Ha; discriminate].
  - unfold bind. rewrite getTempPathPrefixes_run. cbn [ret fst].
    split.
    + intros Hex. injection Hex as Hex. apply existsb_exists in Hex.
      destruct Hex as (p & Hin & Hp). exists p. split; [exact Hin|].
      destruct p as [|a p]; [discriminate|]. split; [discriminate|].
      cbn [Str.is_empty] in Hp. apply orb_true_iff in Hp as [Hp|Hp].
      * now apply startsWith_spec.
      * apply String.eqb_eq in Hp. rewrite Hp. exists EmptyString.
        now rewrite app_empty_r.
    + intros (p & Hin & Hp & Hpre). do 2 f_equal. apply existsb_exists.
      exists p. split; [exact Hin|].
      destruct p as [|a p]; [congruence|]. cbn [Str.is_empty].
      apply orb_true_iff. left. now apply startsWith_spec.
Qed.


Lemma selectWorkingDirectory_run (requestedCwd : value) (w : World) :
  exists l,
    selectWorkingDirectory requestedCwd w
    = (Ok (match first_accepted (env_project_path w) w
                   (selectWorkingDirectory_candidates requestedCwd
                      (env_project_path w) (cwd w)) with
           | Some normalized => normalized
           | None => as_str (js_or (env_project_path w) (VStr homedir))
           end),
       with_stdout l w).
Proof.
  unfold selectWorkingDirectory, bind, getenv, process_cwd, console_log.
  fold (env_value (env w) "IDEA_PROJECT_PATH") (env_value (env w) "PROJECT_PATH").
  fold (env_project_path w).
  set (envp := env_project_path w).
  set (cs := selectWorkingDirectory_candidates requestedCwd envp (cwd w)).
  destruct (loop_run envp cs
              (with_stdout (stdout w ++ [DEBUG "selectWorkingDirectory candidates:"]) w))
    as [l Hl].
  rewrite Hl, first_accepted_ignores_stdout.
  destruct (first_accepted envp w cs); cbn; eexists; reflexivity.
Qed.

(** C5.  Every candidate the resolver considers is judged by the same rule:
    with normalized path [normalized], it is skipped when [normalized] starts
    with (or equals) a recognized temp prefix and an environment-provided
    project path is set; otherwise it is accepted exactly when [normalized]
    is an existing directory.  The resolver returns the first candidate, in
    order, that is accepted; when none is, it returns the
    environment-provided project path, or else the home directory, and no
    test of that fallback is made. *)
Theorem selectWorkingDirectory_judges_candidates (requestedCwd : value) (w : World) :
  let envProjectPath := env_project_path w in
  let candidates :=
    selectWorkingDirectory_candidates requestedCwd envProjectPath (cwd w) in
  (forall normalized,
      fst (isTempDirectory normalized w) = Ok true
      <-> exists p, In p (temp_prefixes w) /\ p <> EmptyString
                    /\ has_prefix p (normalizePathForComparison normalized))
  /\ (forall candidate normalized,
        fst (sanitizePath candidate w) = Ok (Some normalized) ->
        fst (isTempDirectory normalized w) = Ok true ->
        truthy envProjectPath = true ->
        judged envProjectPath w candidate = None)
  /\ (forall candidate normalized,
        fst (sanitizePath candidate w) = Ok (Some normalized) ->
        ~ (fst (isTempDirectory normalized w) = Ok true
           /\ truthy envProjectPath = true) ->
        judged envProjectPath w candidate
        = if bool_decide (normalized ∈ dirs w) then Some normalized else None)
  /\ fst (selectWorkingDirectory requestedCwd w)
     = Ok (match first_accepted envProjectPath w candidates with
           | Some normalized => normalized
           | None => as_str (js_or envProjectPath (VStr homedir))
           end).
Proof.
  intros envp cs. repeat split.
  - apply isTempDirectory_prefix.
  - apply isTempDirectory_prefix.
  - intros c n Hc Ht He. rewrite judged_formula, Hc, Ht, He. reflexivity.
  - intros c n Hc Hno. rewrite judged_formula, Hc.
    destruct (isTempDirectory_run n w) as [b Hb]. rewrite Hb in *. cbn [fst] in *.
    destruct b, (truthy envp); cbn [andb]; try reflexivity.
    exfalso. apply Hno. split; reflexivity.
  - destruct (selectWorkingDirectory_run requestedCwd w) as [l Hl]. now rewrite Hl.
Qed.

(** C10.  The literal strings "undefined" and "null" given as the requested
    path are treated exactly like an absent path ([null], [undefined] or the
    empty string): they are never added to the candidate list, which then
    holds the environment-provided project path (when set), the process's
    current directory and the home directory, and the resolver behaves as it
    does for an absent path. *)
Theorem sentinel_cwd_is_absent (envProjectPath : value) (current : string) :
  let absent :=
    (if truthy envProjectPath then [envProjectPath] else [])
    ++ [VStr current; VStr homedir] in
  selectWorkingDirectory_candidates (VStr "undefined") envProjectPath current = absent
  /\ selectWorkingDirectory_candidates (VStr "null") envProjectPath current = absent
  /\ selectWorkingDirectory_candidates VNull envProjectPath current = absent
  /\ selectWorkingDirectory_candidates VUndefined envProjectPath current = absent
  /\ selectWorkingDirectory (VStr "undefined") = selectWorkingDirectory VNull
  /\ selectWorkingDirectory (VStr "null") = selectWorkingDirectory VNull.
Proof. repeat split; reflexivity. Qed.

End ResolverLoop.

Lemma dedupe_In (x : string) (seen xs : list string) :
  In x (dedupe seen xs) <-> In x xs /\ existsb (Str.eqb x) seen = false.
Proof.
  revert seen. induction xs as [|y xs IH]; intros seen; cbn [dedupe In].
  - tauto.
  - destruct (existsb (Str.eqb y) seen) eqn:Hy.
    + rewrite IH. split; [tauto|].
      intros [[Heq|Hin] Hs]; [subst y; congruence | tauto].
    + cbn [In]. rewrite IH. cbn [existsb]. unfold Str.eqb in *.
      destruct (String.eqb_spec x y) as [Heq|Hne]; cbn [orb].
      * subst y. split; [intros _; split; [now left | exact Hy] | intros _; now left].
      * split.
        -- intros [Heq|[Hin Hs]]; [congruence | tauto].
        -- intros [[Heq|Hin] Hs]; [congruence | tauto].
Qed.

(** On a Unix-like host the recognized temp prefixes include [/tmp],
    [/var/tmp], [/private/tmp] and the value of [TMPDIR]. *)
Lemma unix_temp_prefixes `{Host} (w : World) :
  Str.eqb platform "win32" = false ->
  In "/tmp" (temp_prefixes w) /\ In "/var/tmp" (temp_prefixes w)
  /\ In "/private/tmp" (temp_prefixes w)
  /\ (forall dir, env w !! "TMPDIR" = Some dir -> dir <> EmptyString ->
      In (normalizePathForComparison dir) (temp_prefixes w)).
Proof.
  intros Hunix. unfold temp_prefixes, getTempPathPrefixes. rewrite Hunix.
  unfold bind, getenv, ret. cbn [fst].
  repeat split; try (apply dedupe_In; split; [|reflexivity]; apply in_or_app; right;
                     cbn; tauto).
  intros dir Hdir Hne. rewrite Hdir. apply dedupe_In. split; [|reflexivity].
  apply in_or_app. right. apply in_or_app. right.
  destruct dir; [congruence|]. cbn [truthy Str.is_empty negb as_str]. now left.
Qed.

(** The two runs named by the specification: [/tmp/x] is skipped when a
    project path is known and accepted as a last resort when none is; and a
    fallback that does not exist is returned all the same. *)
Example selectWorkingDirectory_tmp_x :
  let h := Reference.host (Rejects "unused") (Throw "unused") in
  let with_tmp_x (w : World) := with_dirs (union {[ "/tmp/x" ]}) w in
  fst (@selectWorkingDirectory h (VStr "/tmp/x")
         (with_tmp_x (Reference.world [("PROJECT_PATH", "/home/user/proj")] [])))
  = Ok "/home/user/proj"
  /\ fst (@selectWorkingDirectory h (VStr "/tmp/x") (with_tmp_x (Reference.world [] [])))
     = Ok "/tmp/x"
  /\ fst (@selectWorkingDirectory h (VStr "/tmp/x")
            (with_cwd "/tmp/gone"
               (with_dirs (fun _ => ∅)
                  (Reference.world [("PROJECT_PATH", "/srv/missing")] []))))
     = Ok "/srv/missing".
Proof. vm_compute. repeat split; reflexivity. Qed.

(** ** The attachment loader *)

Section AttachmentFacts.
Context `{Host}.

Lemma loadAttachmentsFromEnv_run (w : World) :
  exists w', loadAttachmentsFromEnv w = (Ok (legacy_attachments w), w')
             /\ stdout w' = stdout w /\ files w' = files w /\ calls w' = calls w.
Proof.
  unfold loadAttachmentsFromEnv, legacy_attachments, try_catch, bind, getenv.
  destruct (env w !! "CLAUDE_ATTACHMENTS_FILE") as [path|]; cbn [truthy negb as_str].
  2:{ eexists. split; [reflexivity|]. repeat split. }
  destruct (Str.is_empty path) eqn:Hp; cbn [negb].
  { eexists. split; [reflexivity|]. repeat split. }
  unfold readFileSync.
  destruct (files w !! path) as [text|].
  - destruct (JSON_parse text) as [[]|]; cbn;
      (eexists; split; [reflexivity|]; repeat split).
  - case_decide; cbn; (eexists; split; [reflexivity|]; repeat split).
Qed.

(** C7, as amended.  The loader returns the directly delivered sequence (a
    bare array, or the [attachments] array of a wrapper object) whenever
    there is one, the empty one included; for any other payload (absent, or
    of another shape) it reads the legacy file named by
    [CLAUDE_ATTACHMENTS_FILE], where any malformed or missing input yields
    the empty sequence; it never fails. *)
Theorem loadAttachments_prefers_direct (stdinData : value) (w : World) :
  fst (loadAttachments stdinData w)
  = Ok (match direct_attachments stdinData with
        | Some items => items
        | None => legacy_attachments w
        end).
Proof.
  assert (Hlegacy :
            fst ((console_log (DEBUG "Falling back to file-based attachments") ;;
                  loadAttachmentsFromEnv) w)
            = Ok (legacy_attachments w)).
  { unfold bind. cbn [console_log].
    destruct (loadAttachmentsFromEnv_run
                (with_stdout (stdout w ++ [DEBUG "Falling back to file-based attachments"]) w))
      as (w' & Hrun & _).
    now rewrite Hrun. }
  unfold loadAttachments, direct_attachments.
  destruct stdinData as [| |b|n|s|items|fields]; cbn [truthy prop].
  - exact Hlegacy.
  - exact Hlegacy.
  - destruct b; exact Hlegacy.
  - destruct (negb (n =? 0)%Z); exact Hlegacy.
  - destruct (negb (Str.is_empty s)); exact Hlegacy.
  - reflexivity.
  - destruct (default VUndefined (assoc "attachments" fields));
      first [reflexivity | exact Hlegacy].
Qed.

End AttachmentFacts.

(** C7, as stated, fails: an empty array delivered over the side channel is
    returned as it is, although the legacy file holds an attachment. *)
Lemma loadAttachments_empty_array_is_direct :
  let h := Reference.host (Rejects "unused") (Throw "unused") in
  let attachment :=
    "[{" +:+ Reference.quoted "fileName" +:+ ":" +:+ Reference.quoted "a.png" +:+ ","
    +:+ Reference.quoted "mediaType" +:+ ":" +:+ Reference.quoted "image/png" +:+ ","
    +:+ Reference.quoted "data" +:+ ":" +:+ Reference.quoted "AAAA" +:+ "}]" in
  let w := Reference.world [("CLAUDE_ATTACHMENTS_FILE", "/tmp/attachments.json")]
                           [("/tmp/attachments.json", attachment)] in
  fst (@loadAttachments h (VArr []) w) = Ok []
  /\ @loadAttachments_as_claimed h (VArr []) w
     = [VObj [("fileName", VStr "a.png"); ("mediaType", VStr "image/png");
              ("data", VStr "AAAA")]].
Proof. vm_compute. split; reflexivity. Qed.

(** ** The transcript store: reading *)

Section TranscriptReading.
Context `{Host}.

Lemma loadSessionHistory_line_run (line : string) (messages : list value) (w : World) :
  loadSessionHistory_line line messages w
  = (Ok (messages ++ option_list (match JSON_parse line with
                                  | Some msg => kept_entry msg
                                  | None => None
                                  end)), w).
Proof.
  unfold loadSessionHistory_line, try_catch, bind, lift, member, kept_entry, role_of.
  destruct (JSON_parse line) as [msg|]; cbn.
  2:{ now rewrite app_nil_r. }
  destruct (nullish msg) eqn:Hn.
  { destruct msg; try discriminate; cbn; now rewrite app_nil_r. }
  cbn.
  destruct (is_str "user" (prop "type" msg)) eqn:Hu; cbn.
  - destruct (truthy (prop "message" msg)); cbn.
    + destruct (truthy (prop "content" (prop "message" msg))); cbn.
      * reflexivity.
      * assert (Ha : is_str "assistant" (prop "type" msg) = false).
        { destruct (prop "type" msg); try reflexivity. cbn in *.
          apply String.eqb_eq in Hu. now subst. }
        rewrite Ha. cbn. now rewrite app_nil_r.
    + assert (Ha : is_str "assistant" (prop "type" msg) = false).
      { destruct (prop "type" msg); try reflexivity. cbn in *.
        apply String.eqb_eq in Hu. now subst. }
      rewrite Ha. cbn. now rewrite app_nil_r.
  - destruct (is_str "assistant" (prop "type" msg)); cbn.
    + destruct (truthy (prop "message" msg)); cbn.
      * destruct (truthy (prop "content" (prop "message" msg))); cbn;
          [reflexivity | now rewrite app_nil_r].
      * now rewrite app_nil_r.
    + now rewrite app_nil_r.
Qed.

Lemma loadSessionHistory_loop_run (lines : list string) (messages : list value) (w : World) :
  loadSessionHistory_loop lines messages w
  = (Ok (messages ++ omap (fun line => match JSON_parse line with
                                        | Some msg => kept_entry msg
                                        | None => None
                                        end) lines), w).
Proof.
  revert messages. induction lines as [|line lines IH]; intros messages.
  - cbn. now rewrite app_nil_r.
  - cbn [loadSessionHistory_loop]. unfold bind.
    rewrite loadSessionHistory_line_run, IH. cbn [omap list_omap].
    destruct (JSON_parse line) as [msg|]; cbn [option_list].
    + destruct (kept_entry msg); cbn [option_list].
      * now rewrite <- app_assoc.
      * now rewrite app_nil_r.
    + now rewrite app_nil_r.
Qed.

(** C2, as amended.  For every session, [loadSessionHistory] reads the
    non-blank lines of the session file, silently skips the lines that fail to
    parse, keeps only the entries whose type is 'user' or 'assistant' and
    whose [message] and [message.content] are both truthy (an entry whose
    content is the empty string, [null], [false] or [0] is skipped), maps
    each to a [{role, content}] pair in file order and, if the final kept
    entry has role 'user', removes exactly that entry; a file that is missing
    or cannot be read, or a path that cannot be formed, yields the empty
    list. *)
Theorem loadSessionHistory_replays (sessionId projectPath : value) (w : World) :
  fst (loadSessionHistory sessionId projectPath w)
  = Ok (match session_file sessionId projectPath w with
        | Ok file =>
            match files w !! file with
            | Some content => history_of kept_entry content
            | None => []
            end
        | Throw _ => []
        end).
Proof.
  unfold loadSessionHistory, session_file, sanitizedCwd, sessionFileName.
  unfold try_catch, bind, process_cwd, lift, ret.
  destruct (string_method "replace" (js_or projectPath (VStr (cwd w)))) as [base|e];
    [|reflexivity].
  destruct (to_string sessionId) as [id|e]; [|reflexivity].
  cbn beta iota zeta.
  set (file := path_join [path_join [homedir; ".claude"; "projects"];
                          Str.dash_non_alnum base; id +:+ ".jsonl"]).
  unfold existsSync, readFileSync.
  destruct (files w !! file) as [content|] eqn:Hf.
  - rewrite bool_decide_eq_true_2 by eauto. cbn [orb negb]. cbn beta.
    rewrite Hf, loadSessionHistory_loop_run. cbn [app].
    unfold history_of, entries_of, transcript_lines.
    destruct (last_is_user _); reflexivity.
  - rewrite bool_decide_eq_false_2 by (intros [? ?]; discriminate). cbn [orb].
    destruct (decide (file ∈ dirs w)) as [Hd|Hd].
    + rewrite (bool_decide_eq_true_2 _ Hd). cbn [negb]. cbn beta. rewrite Hf.
      destruct (decide (file ∈ dirs w)); [reflexivity | contradiction].
    + rewrite (bool_decide_eq_false_2 _ Hd). reflexivity.
Qed.

End TranscriptReading.

(** C2, as stated, fails: an assistant entry whose [message.content] field is
    the empty string has that field and is dropped all the same. *)
Lemma loadSessionHistory_drops_empty_content :
  let h := Reference.host (Rejects "unused") (Throw "unused") in
  let line :=
    "{" +:+ Reference.quoted "type" +:+ ":" +:+ Reference.quoted "assistant" +:+ ","
    +:+ Reference.quoted "message" +:+ ":{" +:+ Reference.quoted "content" +:+ ":"
    +:+ Reference.quoted EmptyString +:+ "}}" in
  let w := Reference.world []
             [("/home/user/.claude/projects/-home-user-proj/s1.jsonl", line +:+ nl)] in
  Reference.parse line
  = Some (VObj [("type", VStr "assistant");
                ("message", VObj [("content", VStr EmptyString)])])
  /\ fst (@loadSessionHistory h (VStr "s1") VNull w) = Ok []
  /\ @history_of h kept_entry_as_claimed (line +:+ nl)
     = [history_entry "assistant" (VStr EmptyString)].
Proof. vm_compute. repeat split; reflexivity. Qed.

(** A transcript of three turns and a damaged line: the turns come back in
    file order without the trailing user turn. *)
Example loadSessionHistory_sample :
  let h := Reference.host (Rejects "unused") (Throw "unused") in
  let entry (type text : string) :=
    "{" +:+ Reference.quoted "type" +:+ ":" +:+ Reference.quoted type +:+ ","
    +:+ Reference.quoted "message" +:+ ":{" +:+ Reference.quoted "content" +:+ ":"
    +:+ Reference.quoted text +:+ "}}" +:+ nl in
  let w := Reference.world []
             [("/home/user/.claude/projects/-home-user-proj/s1.jsonl",
               entry "user" "one" +:+ "{damaged" +:+ nl +:+ entry "assistant" "two"
               +:+ entry "system" "skipped" +:+ entry "user" "three")] in
  fst (@loadSessionHistory h (VStr "s1") VNull w)
  = Ok [history_entry "user" (VStr "one"); history_entry "assistant" (VStr "two")]
  /\ fst (@loadSessionHistory h (VStr "other") VNull w) = Ok [].
Proof. vm_compute. repeat split; reflexivity. Qed.

(** ** The transcript store: appending *)

Lemma assoc_set_field_eq (k : string) (v : value) (fs : list (string * value)) :
  assoc k (set_field k v fs) = Some v.
Proof.
  induction fs as [|[k' v'] fs IH]; cbn [set_field assoc]; unfold Str.eqb.
  - now rewrite String.eqb_refl.
  - destruct (String.eqb_spec k k') as [->|Hne]; cbn [assoc]; unfold Str.eqb.
    + now rewrite String.eqb_refl.
    + destruct (String.eqb_spec k k'); [contradiction | exact IH].
Qed.

Lemma assoc_set_field_ne (k k' : string) (v : value) (fs : list (string * value)) :
  k' <> k -> assoc k' (set_field k v fs) = assoc k' fs.
Proof.
  intros Hne.
  induction fs as [|[k0 v0] fs IH]; cbn [set_field assoc]; unfold Str.eqb.
  - destruct (String.eqb_spec k' k); [contradiction | reflexivity].
  - destruct (String.eqb_spec k k0) as [->|Hk]; cbn [assoc]; unfold Str.eqb.
    + destruct (String.eqb_spec k' k0); [contradiction | reflexivity].
    + destruct (String.eqb_spec k' k0); [reflexivity | exact IH].
Qed.

Section TranscriptWriting.
Context `{Host}.

Lemma enrich_fields (obj : list (string * value)) (uuid : string) (sessionId : value)
    (timestamp : string) :
  assoc "uuid" (enrich obj uuid sessionId timestamp) = Some (VStr uuid)
  /\ assoc "sessionId" (enrich obj uuid sessionId timestamp) = Some sessionId
  /\ assoc "timestamp" (enrich obj uuid sessionId timestamp) = Some (VStr timestamp)
  /\ (forall k, k <> "uuid" -> k <> "sessionId" -> k <> "timestamp" ->
      assoc k (enrich obj uuid sessionId timestamp) = assoc k obj).
Proof.
  unfold enrich. repeat split.
  - rewrite !assoc_set_field_ne by discriminate. apply assoc_set_field_eq.
  - rewrite assoc_set_field_ne by discriminate. apply assoc_set_field_eq.
  - apply assoc_set_field_eq.
  - intros k H1 H2 H3. now rewrite !assoc_set_field_ne.
Qed.

(** The world after a successful append to [file] in directory [dir]. *)
Lemma persistJsonlMessage_run (sessionId projectPath : value)
    (obj : list (string * value)) (w : World) :
  let w1 := snd (persistJsonlMessage sessionId projectPath obj w) in
  let line :=
    JSON_stringify
      (VObj (enrich obj (randomUUID (uuids w)) sessionId (toISOString (ticks w))))
    +:+ nl in
  (stdout w1 = stdout w /\ cwd w1 = cwd w)
  \/ (exists file,
        stdout w1 = stdout w ++ [PERSIST file]
        /\ files w1 = <[file := default EmptyString (files w !! file) +:+ line]> (files w)
        /\ uuids w1 = S (uuids w) /\ ticks w1 = S (ticks w) /\ cwd w1 = cwd w).
Proof.
  intros w1 line. subst w1 line.
  unfold persistJsonlMessage, sanitizedCwd, sessionFileName.
  unfold try_catch, bind, process_cwd, lift, ret, console_error.
  destruct (string_method "replace" (js_or projectPath (VStr (cwd w)))) as [base|e];
    [|left; split; reflexivity].
  cbn beta iota zeta.
  unfold mkdirSync. case_decide; [left; split; reflexivity|].
  destruct (to_string sessionId) as [id|e]; [|left; split; reflexivity].
  cbn beta iota zeta.
  unfold draw_uuid, now_iso, appendFileSync. cbn beta iota zeta.
  case_decide; [left; split; reflexivity|].
  right. eexists. cbn. repeat split.
Qed.

(** C9.  Every transcript entry written by the append operation is the
    input entry extended with a freshly drawn unique identifier, the owning
    session id and the timestamp of the moment ([new Date().toISOString()],
    an ISO-8601 string); it is added after the content the file already had.
    Consequently, appending the same entry twice leaves the previous content
    followed by two lines whose identifiers differ and whose other fields
    ([content] among them) are those of the input.  An append went through
    exactly when it reported [[PERSIST] Message saved to: file]; the
    identifier differs from every one drawn earlier in the process because
    the generator never repeats a value, which is the hypothesis. *)
Theorem persistJsonlMessage_appends (sessionId projectPath : value)
    (obj : list (string * value)) (w : World) :
  (forall i j, randomUUID i = randomUUID j -> i = j) ->
  let w1 := snd (persistJsonlMessage sessionId projectPath obj w) in
  let w2 := snd (persistJsonlMessage sessionId projectPath obj w1) in
  let first := enrich obj (randomUUID (uuids w)) sessionId (toISOString (ticks w)) in
  let second :=
    enrich obj (randomUUID (S (uuids w))) sessionId (toISOString (S (ticks w))) in
  let line (entry : list (string * value)) := JSON_stringify (VObj entry) +:+ nl in
  (forall file,
      stdout w1 = stdout w ++ [PERSIST file] ->
      files w1 = <[file := default EmptyString (files w !! file) +:+ line first]> (files w))
  /\ (forall file,
        stdout w2 = stdout w ++ [PERSIST file; PERSIST file] ->
        files w2
        = <[file := (default EmptyString (files w !! file) +:+ line first) +:+ line second]>
            (files w))
  /\ assoc "uuid" first = Some (VStr (randomUUID (uuids w)))
  /\ assoc "sessionId" first = Some sessionId
  /\ assoc "timestamp" first = Some (VStr (toISOString (ticks w)))
  /\ assoc "uuid" second = Some (VStr (randomUUID (S (uuids w))))
  /\ assoc "sessionId" second = Some sessionId
  /\ assoc "timestamp" second = Some (VStr (toISOString (S (ticks w))))
  /\ assoc "uuid" first <> assoc "uuid" second
  /\ (forall earlier, (earlier < uuids w)%nat ->
        randomUUID earlier <> randomUUID (uuids w))
  /\ (forall k, k <> "uuid" -> k <> "sessionId" -> k <> "timestamp" ->
        assoc k first = assoc k obj /\ assoc k second = assoc k obj).
Proof.
  intros Hunique w1 w2 first second line.
  destruct (enrich_fields obj (randomUUID (uuids w)) sessionId (toISOString (ticks w)))
    as (Hu1 & Hs1 & Ht1 & Hk1).
  destruct (enrich_fields obj (randomUUID (S (uuids w))) sessionId
              (toISOString (S (ticks w))))
    as (Hu2 & Hs2 & Ht2 & Hk2).
  fold first in Hu1, Hs1, Ht1, Hk1. fold second in Hu2, Hs2, Ht2, Hk2.
  pose proof (persistJsonlMessage_run sessionId projectPath obj w) as Hrun1.
  pose proof (persistJsonlMessage_run sessionId projectPath obj w1) as Hrun2.
  cbn zeta in Hrun1, Hrun2. fold w1 in Hrun1. fold w2 in Hrun2.
  fold first in Hrun1.
  split; [|split].
  - intros file Hout.
    destruct Hrun1 as [[Hsame _] | (file1 & Hout1 & Hfiles1 & _)].
    + rewrite Hsame in Hout. rewrite <- (app_nil_r (stdout w)) in Hout at 1.
      apply app_inv_head in Hout. discriminate.
    + rewrite Hout1 in Hout. apply app_inv_head in Hout.
      injection Hout as ->. exact Hfiles1.
  - intros file Hout.
    destruct Hrun1 as [[Hsame1 _] | (file1 & Hout1 & Hfiles1 & Hu & Ht & _)];
      destruct Hrun2 as [[Hsame2 _] | (file2 & Hout2 & Hfiles2 & _)].
    + rewrite Hsame2, Hsame1 in Hout. rewrite <- (app_nil_r (stdout w)) in Hout at 1.
      apply app_inv_head in Hout. discriminate.
    + rewrite Hout2, Hsame1 in Hout. apply app_inv_head in Hout. discriminate.
    + rewrite Hsame2, Hout1 in Hout. apply app_inv_head in Hout. discriminate.
    + rewrite Hout2, Hout1, <- app_assoc in Hout. apply app_inv_head in Hout.
      cbn [app] in Hout. injection Hout as -> ->.
      rewrite Hfiles2, Hfiles1, Hu, Ht, lookup_insert_eq, insert_insert_eq.
      reflexivity.
  - repeat split; try assumption.
    + rewrite Hu1, Hu2. intros Heq. injection Heq as Heq.
      apply Hunique in Heq. lia.
    + intros earlier Hlt Heq. apply Hunique in Heq. lia.
    + now apply Hk1.
    + now apply Hk2.
Qed.

End TranscriptWriting.

(** The reference host numbers its UUIDs. *)
Lemma reference_uuids_never_repeat (streaming : query_result) (answer : outcome value) :
  forall i j,
    @randomUUID (Reference.host streaming answer) i
    = @randomUUID (Reference.host streaming answer) j -> i = j.
Proof.
  intros i j Heq. cbn in Heq.
  apply (inj (String.app "uuid-")) in Heq. now apply (inj pretty) in Heq.
Qed.
(** Two appends of the same user entry to a new transcript, on the reference
    host: the file holds two lines that differ in identifier and timestamp
    only. *)
Lemma persistJsonlMessage_appends_witness :
  let h := Reference.host (Rejects "unused") (Throw "unused") in
  let obj := [("type", VStr "user"); ("message", VObj [("content", VStr "hello")])] in
  let w := Reference.world [] [] in
  let w2 :=
    snd (@persistJsonlMessage h (VStr "s1") VNull obj
           (snd (@persistJsonlMessage h (VStr "s1") VNull obj w))) in
  let q := Reference.quoted in
  let written (uuid timestamp : string) :=
    "{" +:+ q "type" +:+ ":" +:+ q "user" +:+ "," +:+ q "message" +:+ ":{"
    +:+ q "content" +:+ ":" +:+ q "hello" +:+ "}," +:+ q "uuid" +:+ ":" +:+ q uuid
    +:+ "," +:+ q "sessionId" +:+ ":" +:+ q "s1" +:+ "," +:+ q "timestamp" +:+ ":"
    +:+ q timestamp +:+ "}" +:+ nl in
  (forall i j, @randomUUID h i = @randomUUID h j -> i = j)
  /\ files w2 !! "/home/user/.claude/projects/-home-user-proj/s1.jsonl"
     = Some (written "uuid-0" "2025-01-01T00:00:00.0Z"
             +:+ written "uuid-1" "2025-01-01T00:00:00.1Z").
Proof.
  intros h obj w w2 q written.
  split; [apply reference_uuids_never_repeat|].
  destruct (@persistJsonlMessage_appends h (VStr "s1") VNull obj w
              (reference_uuids_never_repeat (Rejects "unused") (Throw "unused")))
    as (_ & Htwice & _).
  subst w2.
  rewrite (Htwice "/home/user/.claude/projects/-home-user-proj/s1.jsonl");
    [|vm_compute; reflexivity].
  rewrite lookup_insert_eq. f_equal.
Defined.

(** ** Console lines and requests of a run *)

Lemma emits_bind {A B} (C1 : list line -> list call -> fate A -> Prop)
    (C2 : A -> list line -> list call -> fate B -> Prop)
    (C : list line -> list call -> fate B -> Prop) (m : M A) (k : A -> M B) :
  emits C1 m ->
  (forall a, emits (C2 a) (k a)) ->
  (forall l1 c1 a l2 c2 r, C1 l1 c1 (Ok a) -> C2 a l2 c2 r -> C (l1 ++ l2) (c1 ++ c2) r) ->
  (forall l1 c1 e, C1 l1 c1 (Throw e) -> C l1 c1 (Throw e)) ->
  (forall l1 c1, C1 l1 c1 Unsettled -> C l1 c1 Unsettled) ->
  emits C (bind m k).
Proof.
  intros Hm Hk Hok Hthrow Hstay w. unfold bind.
  destruct (Hm w) as (l1 & c1 & Hl1 & Hc1 & HC1).
  destruct (m w) as [[[a|e]|] w1]; cbn [fst snd] in *.
  - destruct (Hk a w1) as (l2 & c2 & Hl2 & Hc2 & HC2).
    exists (l1 ++ l2), (c1 ++ c2).
    rewrite Hl2, Hc2, Hl1, Hc1, <- !app_assoc. repeat split. now apply (Hok l1 c1 a).
  - exists l1, c1. repeat split; [exact Hl1 | exact Hc1 | now apply Hthrow].
  - exists l1, c1. repeat split; [exact Hl1 | exact Hc1 | now apply Hstay].
Qed.

Lemma emits_after_silent {A B} (P : line -> Prop)
    (C : list line -> list call -> fate B -> Prop) (m : M A) (k : A -> M B) :
  absorbs P C -> silent P m -> (forall a, emits C (k a)) -> emits C (bind m k).
Proof.
  intros [Hpre Hfail] Hm Hk.
  apply (emits_bind (fun ls cs r => Forall P ls /\ cs = [] /\ r <> Unsettled)
           (fun _ => C) C m k Hm Hk).
  - intros l1 c1 a l2 c2 r (Hl1 & -> & _) HC. cbn [app]. now apply Hpre.
  - intros l1 c1 e (Hl1 & -> & _). now apply Hfail.
  - intros l1 c1 (_ & _ & Hs). contradiction.
Qed.

Lemma emits_weaken {A} (C C' : list line -> list call -> fate A -> Prop) (m : M A) :
  (forall ls cs r, C ls cs r -> C' ls cs r) -> emits C m -> emits C' m.
Proof.
  intros Himp Hm w. destruct (Hm w) as (ls & cs & Hl & Hc & HC).
  exists ls, cs. repeat split; [exact Hl | exact Hc | now apply Himp].
Qed.

Lemma silent_any {A} (m : M A) : silent not_session_id m -> silent any_line m.
Proof.
  apply emits_weaken. intros ls cs r (_ & -> & Hs). repeat split; [|exact Hs].
  apply Forall_forall. intros; exact I.
Qed.

Lemma silent_unchanged {A} (P : line -> Prop) (m : M A) :
  (forall w, stdout (snd (m w)) = stdout w /\ calls (snd (m w)) = calls w
             /\ fst (m w) <> Unsettled) ->
  silent P m.
Proof.
  intros Hm w. destruct (Hm w) as (Hl & Hc & Hs). exists [], [].
  rewrite !app_nil_r. repeat split; [exact Hl | exact Hc | constructor | exact Hs].
Qed.

(** Closes the three parts of [silent_unchanged] by evaluation. *)
Ltac unchanged := repeat split; (reflexivity || discriminate).

Lemma silent_reader {A} (P : line -> Prop) (m : M A) : reader m -> silent P m.
Proof.
  intros Hm. apply silent_unchanged. intros w.
  pose proof (reader_settles m w Hm) as Hs. rewrite (reader_run m w Hm) in *.
  repeat split. exact Hs.
Qed.

Lemma silent_bind {A B} (P : line -> Prop) (m : M A) (k : A -> M B) :
  silent P m -> (forall a, silent P (k a)) -> silent P (bind m k).
Proof.
  intros Hm Hk. apply (emits_after_silent P); [|exact Hm|exact Hk].
  split.
  - intros l1 ls cs r Hl1 (Hls & -> & Hs). repeat split; [|exact Hs].
    apply Forall_app. now split.
  - intros l1 e Hl1. now repeat split.
Qed.

Lemma silent_try_catch {A} (P : line -> Prop) (m : M A) (h : string -> M A) :
  silent P m -> (forall e, silent P (h e)) -> silent P (try_catch m h).
Proof.
  intros Hm Hh w. unfold try_catch.
  destruct (Hm w) as (l1 & c1 & Hl1 & Hc1 & HP1 & -> & Hs).
  destruct (m w) as [[[a|e]|] w1]; cbn [fst snd] in *; [| |contradiction].
  - exists l1, []. now repeat split.
  - destruct (Hh e w1) as (l2 & c2 & Hl2 & Hc2 & HP2 & -> & Hs2).
    exists (l1 ++ l2), []. rewrite Hl2, Hc2, Hl1, Hc1, <- !app_assoc.
    repeat split; [|exact Hs2]. apply Forall_app. now split.
Qed.

Lemma silent_console_log (P : line -> Prop) (l : line) : P l -> silent P (console_log l).
Proof.
  intros Hl w. exists [l], []. cbn. rewrite app_nil_r.
  repeat split; [now constructor | discriminate].
Qed.

Lemma silent_console_error (P : line -> Prop) (tag text : string) :
  silent P (console_error tag text).
Proof. apply silent_unchanged. intros w. unchanged. Qed.

Lemma silent_setenv (P : line -> Prop) (name text : string) : silent P (setenv name text).
Proof. apply silent_unchanged. intros w. unchanged. Qed.

Lemma silent_process_chdir (P : line -> Prop) (d : string) : silent P (process_chdir d).
Proof.
  apply silent_unchanged. intros w. unfold process_chdir. case_decide; unchanged.
Qed.

Lemma silent_mkdirSync (P : line -> Prop) (p : string) : silent P (mkdirSync p).
Proof.
  apply silent_unchanged. intros w. unfold mkdirSync. case_decide; unchanged.
Qed.

Lemma silent_appendFileSync (P : line -> Prop) (p data : string) :
  silent P (appendFileSync p data).
Proof.
  apply silent_unchanged. intros w. unfold appendFileSync. case_decide; unchanged.
Qed.

Lemma silent_draw_uuid `{Host} (P : line -> Prop) : silent P draw_uuid.
Proof. apply silent_unchanged. intros w. unchanged. Qed.

Lemma silent_now_iso `{Host} (P : line -> Prop) : silent P now_iso.
Proof. apply silent_unchanged. intros w. unchanged. Qed.

Create HintDb silents.
#[export] Hint Resolve silent_console_error silent_setenv silent_process_chdir
  silent_mkdirSync silent_appendFileSync silent_draw_uuid silent_now_iso : silents.

(** Decomposes a goal [silent P m] along the structure of [m]. *)
Ltac silent_step :=
  match goal with
  | |- silent _ (bind _ _) => apply silent_bind; [|intros ?]
  | |- silent _ (try_catch _ _) => apply silent_try_catch; [|intros ?]
  | H : (forall l, is_session_id_line l = false -> ?P l) |- silent ?P (console_log _) =>
      apply silent_console_log, H; reflexivity
  | |- silent _ (console_log _) =>
      apply silent_console_log; first [reflexivity | exact I]
  | |- silent _ (if ?b then _ else _) => destruct b
  | |- silent _ (match ?x with _ => _ end) => destruct x
  | |- silent _ (let '(_, _) := ?x in _) => destruct x
  | |- silent _ _ => solve [auto with silents]
  | |- silent _ _ => solve [apply silent_reader; prove_reader]
  | |- silent any_line _ => solve [apply silent_any; auto with silents]
  end.
Ltac prove_silent := repeat silent_step.

Lemma not_session_id_ok (l : line) : is_session_id_line l = false -> not_session_id l.
Proof. exact (fun Hl => Hl). Qed.

Lemma any_line_ok (l : line) : is_session_id_line l = false -> any_line l.
Proof. exact (fun _ => I). Qed.

Section SilentParts.
Context `{Host}.
Variable P : line -> Prop.
Hypothesis P_ok : forall l, is_session_id_line l = false -> P l.

(** Any line other than a [[SESSION_ID]] line may be printed. *)
Ltac silent_leaf :=
  match goal with
  | |- silent _ (console_log _) => apply silent_console_log, P_ok; reflexivity
  | |- silent _ (ret _) => apply silent_reader, reader_ret
  | |- silent _ (throw _) => apply silent_reader, reader_throw
  | |- silent _ (lift _) => apply silent_reader, reader_lift
  | |- silent _ (getenv _) => apply silent_reader, reader_getenv
  | |- silent _ (existsSync _) => apply silent_reader, reader_existsSync
  | |- silent _ _ => silent_step
  end.
Ltac silent_parts := repeat silent_leaf.

Lemma silent_loadClaudeSettings : silent P loadClaudeSettings.
Proof. apply silent_reader. unfold loadClaudeSettings. prove_reader. Qed.

Lemma silent_setupApiKey : silent P setupApiKey.
Proof.
  unfold setupApiKey.
  apply silent_bind; [apply silent_loadClaudeSettings | intros settings].
  silent_parts.
Qed.

Lemma silent_selectWorkingDirectory_loop (envp : value) (cs : list value) :
  silent P (selectWorkingDirectory_loop envp cs).
Proof.
  induction cs as [|c cs IH]; cbn [selectWorkingDirectory_loop]; [silent_parts|].
  apply silent_bind; [apply silent_reader, reader_sanitizePath | intros [n|]]; [|exact IH].
  apply silent_bind; [apply silent_reader, reader_isTempDirectory | intros temp].
  destruct (temp && truthy envp).
  - apply silent_bind; [silent_parts | intros _; exact IH].
  - apply silent_bind; [silent_parts | intros [|]; [silent_parts | exact IH]].
Qed.

Lemma silent_selectWorkingDirectory (requestedCwd : value) :
  silent P (selectWorkingDirectory requestedCwd).
Proof.
  unfold selectWorkingDirectory.
  do 4 (apply silent_bind; [silent_parts | intros ?]).
  apply silent_bind; [apply silent_selectWorkingDirectory_loop | intros ?].
  silent_parts.
Qed.

Lemma silent_first_existing (verbose : bool) (paths : list string) :
  silent P (first_existing verbose paths).
Proof.
  induction paths as [|p paths IH]; cbn [first_existing]; [silent_parts|].
  apply silent_bind; [silent_parts | intros [|]]; [silent_parts | exact IH].
Qed.

Lemma silent_locate_with (verbose : bool) (command : string) (first_line : bool) :
  silent P (locate_with verbose command first_line).
Proof. unfold locate_with. silent_parts. Qed.

Lemma silent_getClaudeCliPath (verbose : bool) : silent P (getClaudeCliPath verbose).
Proof.
  unfold getClaudeCliPath.
  apply silent_bind; [apply silent_locate_with | intros [p|]]; [silent_parts|].
  apply silent_bind; [apply silent_locate_with | intros [p|]]; [silent_parts|].
  do 4 (apply silent_bind; [silent_parts | intros ?]).
  apply silent_bind; [apply silent_first_existing | intros ?].
  silent_parts.
Qed.

Lemma silent_build_options (workingDirectory : string) (permissionMode : value)
    (sdkModelName : string) (claudeCliPath : value) :
  silent P (build_options workingDirectory permissionMode sdkModelName claudeCliPath).
Proof. unfold build_options. silent_parts. Qed.

Lemma silent_set_entrypoint : silent P set_entrypoint.
Proof. unfold set_entrypoint. silent_parts. Qed.

Lemma silent_enter_directory (workingDirectory : string) :
  silent P (enter_directory workingDirectory).
Proof. unfold enter_directory. silent_parts. Qed.

Lemma silent_persistJsonlMessage (sessionId cwd : value) (obj : list (string * value)) :
  silent P (persistJsonlMessage sessionId cwd obj).
Proof. unfold persistJsonlMessage, sanitizedCwd, sessionFileName. silent_parts. Qed.

Lemma silent_loadSessionHistory (sessionId cwd : value) :
  silent P (loadSessionHistory sessionId cwd).
Proof.
  unfold loadSessionHistory, sanitizedCwd, sessionFileName.
  apply silent_try_catch; [|intros e; silent_parts].
  do 3 (apply silent_bind; [silent_parts | intros ?]).
  destruct (negb _); [silent_parts|].
  apply silent_bind; [silent_parts | intros content].
  apply silent_bind; [|intros ?; silent_parts].
  apply silent_unchanged. intros w. rewrite loadSessionHistory_loop_run. unchanged.
Qed.

Lemma silent_loadAttachments (stdinData : value) : silent P (loadAttachments stdinData).
Proof. unfold loadAttachments, loadAttachmentsFromEnv. silent_parts. Qed.

Lemma silent_attachment_blocks (attachments : list value) :
  silent P (attachment_blocks attachments).
Proof.
  induction attachments as [|a rest IH]; cbn [attachment_blocks]; [silent_parts|].
  apply silent_bind; [unfold attachment_block; silent_parts | intros ?].
  apply silent_bind; [exact IH | intros ?; silent_parts].
Qed.

End SilentParts.

(** ** The native streaming path *)

Section NativePath.
Context `{Host}.

Lemma silent_relay_block (block : value) : silent any_line (relay_block block).
Proof.
  unfold relay_block.
  apply silent_bind; [apply silent_reader, reader_lift | intros type].
  destruct (is_str "text" type); [apply silent_console_log; exact I|].
  destruct (is_str "tool_use" type);
    [apply silent_console_log; exact I | apply silent_reader, reader_ret].
Qed.

Lemma silent_for_each {A} (body : A -> M unit) (xs : list A) :
  (forall x, silent any_line (body x)) -> silent any_line (for_each body xs).
Proof.
  intros Hbody. induction xs as [|x xs IH]; cbn [for_each].
  - apply silent_reader, reader_ret.
  - apply silent_bind; [apply Hbody | intros _; exact IH].
Qed.

Lemma silent_relay_event (msg currentSessionId : value) :
  silent any_line (relay_event msg currentSessionId).
Proof.
  unfold relay_event.
  do 4 (apply silent_bind;
        [first [apply silent_console_log; exact I | apply silent_reader, reader_lift]
        | intros ?]).
  apply silent_bind.
  - destruct (is_str "assistant" _); [|apply silent_reader, reader_ret].
    destruct (opt_prop "content" _);
      try (apply silent_reader, reader_ret);
      [apply silent_console_log; exact I
      | apply silent_for_each; intros; apply silent_relay_block].
  - intros _. destruct (_ && _); [|apply silent_reader, reader_ret].
    apply silent_bind; [apply silent_console_log; exact I | intros _].
    apply silent_reader, reader_ret.
Qed.

Lemma silent_relay_events (events : list value) (currentSessionId : value) :
  silent any_line (relay_events events currentSessionId).
Proof.
  revert currentSessionId.
  induction events as [|msg events IH]; intros sid; cbn [relay_events].
  - apply silent_reader, reader_ret.
  - apply silent_bind; [apply silent_relay_event | intros ?; apply IH].
Qed.

(** What the race and the relay add: exactly one streaming call. *)
Lemma race_and_relay_run (p : prompt) (options : query_options) (resumeSessionId : value) :
  emits (fun ls cs r => cs = [Query p options])
        (race_and_relay p options resumeSessionId).
Proof.
  unfold race_and_relay.
  apply (emits_bind
           (fun ls cs r => ls = [] /\ cs = [Query p options] /\ r = Ok (sdk_query p options))
           (fun result ls cs r => cs = [])).
  - intros w. exists [], [Query p options]. cbn. rewrite app_nil_r. now repeat split.
  - intros [events failure|events|message].
    + apply (emits_weaken (fun ls cs r => Forall any_line ls /\ cs = [] /\ r <> Unsettled)).
      { intros ls cs r (_ & -> & _). reflexivity. }
      apply silent_bind; [apply silent_console_log; exact I | intros _].
      apply silent_bind; [apply silent_relay_events | intros sid].
      destruct failure; [apply silent_reader, reader_throw|].
      do 2 (apply silent_bind; [apply silent_console_log; exact I | intros _]).
      apply silent_console_log; exact I.
    + apply (emits_bind (fun ls cs r => cs = []) (fun _ ls cs r => cs = []));
        [apply (emits_weaken (fun ls cs r => Forall any_line ls /\ cs = [] /\ r <> Unsettled));
         [now intros ls cs r (_ & -> & _) | apply silent_console_log; exact I]
        |intros _| | |].
      * apply (emits_bind (fun ls cs r => cs = []) (fun _ ls cs r => cs = []));
          [apply (emits_weaken
                    (fun ls cs r => Forall any_line ls /\ cs = [] /\ r <> Unsettled));
           [now intros ls cs r (_ & -> & _) | apply silent_relay_events]
          |intros _| | |].
        -- intros w. exists [], []. cbn. now rewrite !app_nil_r.
        -- now intros l1 c1 a l2 c2 r -> ->.
        -- now intros l1 c1 e ->.
        -- now intros l1 c1 ->.
      * now intros l1 c1 a l2 c2 r -> ->.
      * now intros l1 c1 e ->.
      * now intros l1 c1 ->.
    + intros w. exists [], []. cbn. now rewrite !app_nil_r.
  - intros l1 c1 result l2 c2 r (-> & -> & Hres) ->. reflexivity.
  - intros l1 c1 e (_ & _ & Hres). discriminate.
  - intros l1 c1 (_ & _ & Hres). discriminate.
Qed.

Lemma race_and_relay_native (message : value) (options : query_options)
    (resumeSessionId : value) :
  emits (native_only message) (race_and_relay (PromptText message) options resumeSessionId).
Proof.
  refine (emits_weaken _ _ _ _
            (race_and_relay_run (PromptText message) options resumeSessionId)).
  intros ls cs r ->. right. now exists options.
Qed.

Lemma absorbs_native_only (message : value) : absorbs any_line (native_only message).
Proof.
  split.
  - intros l1 ls cs r _ HC. exact HC.
  - intros l1 e _. now left.
Qed.

End NativePath.
#[export] Hint Resolve not_session_id_ok any_line_ok silent_setupApiKey
  silent_selectWorkingDirectory silent_getClaudeCliPath silent_build_options
  silent_set_entrypoint silent_enter_directory silent_persistJsonlMessage
  silent_loadSessionHistory silent_loadAttachments silent_attachment_blocks : silents.

(** Walks through a sequence of silent steps up to its last computation. *)
Ltac emits_chain P HP :=
  repeat (cbn zeta;
          match goal with
          | |- emits _ (bind _ _) =>
              apply (emits_after_silent P); [exact HP | solve [prove_silent] | intros ?]
          end).

Section Senders.
Context `{Host}.

Lemma try_catch_reports (C : list line -> list call -> fate unit -> Prop)
    (body : M unit) (handler : string -> M unit) :
  emits C body -> reports_failure handler ->
  emits (fun ls cs r =>
           exists ls0 r0,
             C ls0 cs r0
             /\ match r0 with
                | Settled (Ok _) => r = Ok tt /\ ls = ls0
                | Settled (Throw e) =>
                    r = Ok tt /\ ls = ls0 ++ [JSON_LINE (failure_record (VStr e))]
                | Unsettled => r = Unsettled /\ ls = ls0
                end)
        (try_catch body handler).
Proof.
  intros Hbody Hhandler w. unfold try_catch.
  destruct (Hbody w) as (l1 & c1 & Hl1 & Hc1 & HC).
  destruct (body w) as [[[[]|e]|] w1]; cbn [fst snd] in *.
  - exists l1, c1. repeat split; [exact Hl1 | exact Hc1|].
    exists l1, (Settled (Ok tt)). now split.
  - destruct (Hhandler e w1) as (l2 & c2 & Hl2 & Hc2 & -> & -> & Hr).
    exists (l1 ++ [JSON_LINE (failure_record (VStr e))]), c1.
    rewrite Hl2, Hc2, Hl1, Hc1, app_nil_r, <- app_assoc.
    repeat split. exists l1, (Settled (Throw e)). now split.
  - exists l1, c1. repeat split; [exact Hl1 | exact Hc1|].
    exists l1, Unsettled. now split.
Qed.

Lemma sendMessage_reports : 
  reports_failure
    (fun error =>
       console_error "[SEND_ERROR]" error ;;
       console_log (JSON_LINE (failure_record (VStr error)))).
Proof.
  intros e w. exists [JSON_LINE (failure_record (VStr e))], []. cbn.
  rewrite app_nil_r. now repeat split.
Qed.

Lemma sendMessageWithAttachments_reports :
  reports_failure
    (fun error =>
       console_error "[DEBUG]" "sendMessageWithAttachments FAILED!" ;;
       console_error "[SEND_ERROR]" error ;;
       console_log (JSON_LINE (failure_record (VStr error)))).
Proof.
  intros e w. exists [JSON_LINE (failure_record (VStr e))], []. cbn.
  rewrite app_nil_r. now repeat split.
Qed.

(** The [try] block of [sendMessage] satisfies whatever the race and the
    relay satisfy, provided the lines printed on the way do not matter. *)
Lemma sendMessage_run (P : line -> Prop)
    (C : list line -> list call -> fate unit -> Prop)
    (message resumeSessionId cwd permissionMode model : value) :
  (forall l, is_session_id_line l = false -> P l) ->
  absorbs P C ->
  (forall options resume, emits C (race_and_relay (PromptText message) options resume)) ->
  emits (fun ls cs r =>
           exists ls0 r0,
             C ls0 cs r0
             /\ match r0 with
                | Settled (Ok _) => r = Ok tt /\ ls = ls0
                | Settled (Throw e) =>
                    r = Ok tt /\ ls = ls0 ++ [JSON_LINE (failure_record (VStr e))]
                | Unsettled => r = Unsettled /\ ls = ls0
                end)
        (sendMessage message resumeSessionId cwd permissionMode model).
Proof.
  intros HP HC Hrace. unfold sendMessage.
  apply try_catch_reports; [|apply sendMessage_reports].
  emits_chain P HC.
  apply Hrace.
Qed.

Lemma sendMessageWithAttachments_run (P : line -> Prop)
    (C : list line -> list call -> fate unit -> Prop)
    (message resumeSessionId cwd permissionMode model stdinData : value) :
  (forall l, is_session_id_line l = false -> P l) ->
  absorbs P C ->
  (forall p options resume, emits C (race_and_relay p options resume)) ->
  emits (fun ls cs r =>
           exists ls0 r0,
             C ls0 cs r0
             /\ match r0 with
                | Settled (Ok _) => r = Ok tt /\ ls = ls0
                | Settled (Throw e) =>
                    r = Ok tt /\ ls = ls0 ++ [JSON_LINE (failure_record (VStr e))]
                | Unsettled => r = Unsettled /\ ls = ls0
                end)
        (sendMessageWithAttachments message resumeSessionId cwd permissionMode model
           stdinData).
Proof.
  intros HP HC Hrace. unfold sendMessageWithAttachments.
  apply try_catch_reports; [|apply sendMessageWithAttachments_reports].
  emits_chain P HC.
  apply Hrace.
Qed.

(** C1, as amended.  The plain-text send operation issues at most one
    request, and that request is the native streaming call with the message
    as its prompt, whether the resolved endpoint is custom or not; it never
    issues the non-streaming request of the Anthropic SDK. *)
Theorem sendMessage_always_native
    (message resumeSessionId cwd permissionMode model : value) (w : World) :
  exists cs,
    calls (snd (sendMessage message resumeSessionId cwd permissionMode model w))
    = calls w ++ cs
    /\ (cs = [] \/ exists options, cs = [Query (PromptText message) options]).
Proof.
  destruct (sendMessage_run any_line (native_only message)
              message resumeSessionId cwd permissionMode model
              any_line_ok (absorbs_native_only message)
              (fun options resume => race_and_relay_native message options resume) w)
    as (ls & cs & _ & Hc & ls0 & r0 & HC & _).
  exists cs. split; [exact Hc | exact HC].
Qed.

End Senders.

(** ** The non-streaming fallback path *)

Section FallbackPath.
Context `{Host}.

Lemma report_api_error_run (response sessionId modelId : value)
    (type_text msg_text : string) (w : World) :
  to_string (error_type_of response) = Ok type_text ->
  to_string (error_message_of response) = Ok msg_text ->
  fst (report_api_error response sessionId modelId w) = Ok tt
  /\ calls (snd (report_api_error response sessionId modelId w)) = calls w
  /\ exists ls,
      stdout (snd (report_api_error response sessionId modelId w)) = stdout w ++ ls
      /\ error_report response msg_text ls.
Proof.
  intros Ht Hm. unfold report_api_error.
  fold (error_message_of response) (error_type_of response).
  unfold bind, lift. rewrite Ht. cbn [console_error]. rewrite Hm.
  cbn. repeat split.
  eexists. split.
  - rewrite <- !app_assoc. cbn [app]. reflexivity.
  - exists []. do 2 eexists. cbn [app]. split; [reflexivity|]. repeat split.
Qed.

Lemma silent_report_api_error (response sessionId modelId : value) :
  silent any_line (report_api_error response sessionId modelId).
Proof. unfold report_api_error. prove_silent. Qed.

Lemma silent_report_api_success (response sessionId cwd modelId : value) :
  silent any_line (report_api_success response sessionId cwd modelId).
Proof.
  unfold report_api_success.
  do 4 (apply silent_bind; [prove_silent | intros ?]).
  apply silent_bind; [prove_silent | intros blocks].
  apply silent_bind; [|intros ?; prove_silent].
  apply silent_for_each. intros block. prove_silent.
Qed.

Lemma absorbs_api_error_outcome : absorbs any_line api_error_outcome.
Proof.
  split.
  - intros l1 ls cs r _ HC client request response type_text msg_text Hcs Hans He Ht Hm.
    destruct (HC client request response type_text msg_text Hcs Hans He Ht Hm)
      as [Hr (before & a & res & -> & Hprops)].
    split; [exact Hr|]. exists (l1 ++ before), a, res.
    split; [now rewrite app_assoc | exact Hprops].
  - intros l1 e _ client request response type_text msg_text Hcs. discriminate.
Qed.

(** The part of the [try] block that follows the response. *)
Lemma after_response_run (response sessionId cwd modelId : value) :
  emits (fun ls cs r =>
           cs = []
           /\ forall type_text msg_text,
               is_error_response response = true ->
               to_string (error_type_of response) = Ok type_text ->
               to_string (error_message_of response) = Ok msg_text ->
               r = Ok tt /\ error_report response msg_text ls)
        (console_log (DEBUG "API response received") ;;
         console_log (DEBUG "Raw response:") ;;
         (if nullish response
          then throw "Cannot convert undefined or null to object"
          else console_log (DEBUG "Response keys:")) ;;
         console_log (DEBUG "Response.content:") ;;
         console_log (DEBUG "Response.usage:") ;;
         if is_error_response response
         then report_api_error response sessionId modelId
         else report_api_success response sessionId cwd modelId).
Proof.
  destruct (is_error_response response) eqn:He.
  - assert (Hn : nullish response = false) by (destruct response; try reflexivity; discriminate).
    rewrite Hn. intros w. unfold bind, console_log. cbn beta iota.
    set (w4 := with_stdout _ (with_stdout _ _)).
    assert (Hw4 : stdout w4 = stdout w ++ [DEBUG "API response received"; DEBUG "Raw response:";
                                           DEBUG "Response keys:"; DEBUG "Response.content:";
                                           DEBUG "Response.usage:"]
                  /\ calls w4 = calls w).
    { subst w4. cbn. rewrite <- !app_assoc. split; reflexivity. }
    destruct Hw4 as [Hl4 Hc4].
    destruct (silent_report_api_error response sessionId modelId w4)
      as (ls & cs & Hl & Hc & _ & -> & _).
    exists ([DEBUG "API response received"; DEBUG "Raw response:";
             DEBUG "Response keys:"; DEBUG "Response.content:";
             DEBUG "Response.usage:"] ++ ls), [].
    rewrite Hl, Hc, Hl4, Hc4, <- !app_assoc. repeat split.
    + destruct (report_api_error_run response sessionId modelId type_text msg_text w4 H1 H2)
        as (Hr & _). exact Hr.
    + destruct (report_api_error_run response sessionId modelId type_text msg_text w4 H1 H2)
        as (_ & _ & ls' & Hl' & before & a & res & -> & Hprops).
      rewrite Hl in Hl'. apply app_inv_head in Hl'. subst ls.
      exists ([DEBUG "API response received"; DEBUG "Raw response:";
               DEBUG "Response keys:"; DEBUG "Response.content:";
               DEBUG "Response.usage:"] ++ before), a, res.
      split; [now rewrite <- app_assoc | exact Hprops].
  - apply (emits_weaken (fun ls cs r => Forall any_line ls /\ cs = [] /\ r <> Unsettled)).
    { intros ls cs r (_ & -> & _). split; [reflexivity | discriminate]. }
    do 5 (apply silent_bind; [prove_silent | intros ?]).
    apply silent_report_api_success.
Qed.

Lemma sendMessageWithAnthropicSDK_run
    (message resumeSessionId cwd permissionMode model apiKey baseUrl : value) :
  emits (fun ls cs r =>
           exists ls0 r0,
             api_error_outcome ls0 cs r0
             /\ match r0 with
                | Settled (Ok _) => r = Ok tt /\ ls = ls0
                | Settled (Throw e) =>
                    r = Ok tt /\ ls = ls0 ++ [JSON_LINE (failure_record (VStr e))]
                | Unsettled => r = Unsettled /\ ls = ls0
                end)
        (sendMessageWithAnthropicSDK message resumeSessionId cwd permissionMode model
           apiKey baseUrl).
Proof.
  unfold sendMessageWithAnthropicSDK.
  apply try_catch_reports; [|apply sendMessage_reports].
  emits_chain any_line absorbs_api_error_outcome.
  match goal with
  | |- emits _ (bind (await_messages_create ?client ?request) _) =>
      apply (emits_bind
               (fun ls cs r =>
                  ls = [] /\ cs = [MessagesCreate client request]
                  /\ r = messages_create client request)
               (fun response ls cs r =>
                  cs = []
                  /\ forall type_text msg_text,
                      is_error_response response = true ->
                      to_string (error_type_of response) = Ok type_text ->
                      to_string (error_message_of response) = Ok msg_text ->
                      r = Ok tt /\ error_report response msg_text ls))
  end.
  - intros w. eexists [], [_]. cbn. rewrite app_nil_r. repeat split.
  - intros response. apply after_response_run.
  - intros l1 c1 response l2 c2 r (-> & -> & Hans) (-> & Hreport).
    intros client' request' response' type_text msg_text Hcs Hans' He Ht Hm.
    cbn [app] in *. injection Hcs as <- <-. injection Hans as Hans.
    rewrite <- Hans in Hans'. injection Hans' as <-.
    exact (Hreport type_text msg_text He Ht Hm).
  - intros l1 c1 e (-> & -> & Hans).
    intros client' request' response' type_text msg_text Hcs Hans' He Ht Hm.
    injection Hcs as <- <-. injection Hans as Hans. rewrite <- Hans in Hans'. discriminate.
  - intros l1 c1 (_ & _ & Hans). discriminate.
Qed.

(** C6, as amended.  On the fallback path, whenever the response to the
    request has a truthy [error] field or has [type: "error"], and the
    error's type and message convert to text, the bridge prints an
    assistant-shaped [[MESSAGE]] whose message has stop reason "error" and
    whose content is the diagnostic text, that text as [[CONTENT]], a
    result-shaped [[MESSAGE]] with [is_error: true], [[MESSAGE_END]] and
    finally the record [{success:false, error:<msg>}]; the function returns
    normally, nothing is rethrown. *)
Theorem api_error_is_reported
    (message resumeSessionId cwd permissionMode model apiKey baseUrl : value)
    (w : World) (client request response : value) (type_text msg_text : string) :
  let run :=
    sendMessageWithAnthropicSDK message resumeSessionId cwd permissionMode model
      apiKey baseUrl w in
  calls (snd run) = calls w ++ [MessagesCreate client request] ->
  messages_create client request = Ok response ->
  is_error_response response = true ->
  to_string (error_type_of response) = Ok type_text ->
  to_string (error_message_of response) = Ok msg_text ->
  fst run = Ok tt
  /\ exists before assistantMsg resultMsg,
      stdout (snd run)
      = stdout w ++ before
          ++ [MESSAGE assistantMsg; CONTENT (VStr (api_error_text msg_text));
              MESSAGE resultMsg; MESSAGE_END;
              JSON_LINE (failure_record (error_message_of response))]
      /\ prop "type" assistantMsg = VStr "assistant"
      /\ prop "stop_reason" (prop "message" assistantMsg) = VStr "error"
      /\ prop "content" (prop "message" assistantMsg)
         = VArr [text_block (VStr (api_error_text msg_text))]
      /\ prop "type" resultMsg = VStr "result"
      /\ prop "is_error" resultMsg = VBool true.
Proof.
  intros run Hcalls Hans He Ht Hm. subst run.
  destruct (sendMessageWithAnthropicSDK_run message resumeSessionId cwd permissionMode
              model apiKey baseUrl w)
    as (ls & cs & Hl & Hc & ls0 & r0 & HC & Hshape).
  rewrite Hc in Hcalls. apply app_inv_head in Hcalls. subst cs.
  destruct (HC client request response type_text msg_text eq_refl Hans He Ht Hm)
    as [-> (before & a & res & -> & Hprops)].
  destruct Hshape as [Hr ->]. split; [exact Hr|].
  exists before, a, res. split; [exact Hl | exact Hprops].
Qed.

End FallbackPath.

(** ** Sample runs of the senders *)

(** C1, as stated, fails: behind a custom endpoint the plain-text send
    operation still issues the native streaming call, and no non-streaming
    request. *)
Lemma sendMessage_custom_endpoint_goes_native :
  let h := Reference.host Scenario.greeting (Throw "unused") in
  let run :=
    @sendMessage h (VStr "hello") VUndefined VUndefined VUndefined VUndefined
      Scenario.proxied_world in
  fst (@setupApiKey h Scenario.proxied_world)
  = Ok {| apiKey := VStr "sk-test-0123456789abcdef";
          baseUrl := VStr "https://proxy.example.com";
          apiKeySource := "environment"; baseUrlSource := "environment" |}
  /\ isCustomBaseUrl (VStr "https://proxy.example.com") = Ok true
  /\ calls (snd run) = [Query (PromptText (VStr "hello")) (Scenario.options VUndefined)]
  /\ last (stdout (snd run)) = Some (JSON_LINE (success_record (VStr "sess-1"))).
Proof. vm_compute. repeat split; reflexivity. Qed.

(** A first "hello" on the fallback path, answered by an authentication
    error. *)
Lemma api_error_is_reported_witness :
  let h := Reference.host (Rejects "unused") (Ok Scenario.rejected) in
  let run :=
    @sendMessageWithAnthropicSDK h (VStr "hello") VUndefined VUndefined VUndefined
      VUndefined (VStr "sk-test-0123456789abcdef") (VStr "https://proxy.example.com")
      Scenario.keyed_world in
  calls (snd run) = [MessagesCreate Scenario.client Scenario.request]
  /\ @messages_create h Scenario.client Scenario.request = Ok Scenario.rejected
  /\ is_error_response Scenario.rejected = true
  /\ to_string (error_type_of Scenario.rejected) = Ok "authentication_error"
  /\ to_string (error_message_of Scenario.rejected) = Ok "invalid x-api-key"
  /\ fst run = Ok tt
  /\ exists before assistantMsg resultMsg,
      stdout (snd run)
      = before
          ++ [MESSAGE assistantMsg; CONTENT (VStr (api_error_text "invalid x-api-key"));
              MESSAGE resultMsg; MESSAGE_END;
              JSON_LINE (failure_record (VStr "invalid x-api-key"))]
      /\ prop "type" assistantMsg = VStr "assistant"
      /\ prop "stop_reason" (prop "message" assistantMsg) = VStr "error"
      /\ prop "content" (prop "message" assistantMsg)
         = VArr [text_block (VStr (api_error_text "invalid x-api-key"))]
      /\ prop "type" resultMsg = VStr "result"
      /\ prop "is_error" resultMsg = VBool true.
Proof.
  intros h run.
  assert (Hcalls : calls (snd run)
                   = calls Scenario.keyed_world
                       ++ [MessagesCreate Scenario.client Scenario.request])
    by (vm_compute; reflexivity).
  assert (Hans : @messages_create h Scenario.client Scenario.request = Ok Scenario.rejected)
    by reflexivity.
  assert (He : is_error_response Scenario.rejected = true) by reflexivity.
  assert (Ht : to_string (error_type_of Scenario.rejected) = Ok "authentication_error")
    by reflexivity.
  assert (Hm : to_string (error_message_of Scenario.rejected) = Ok "invalid x-api-key")
    by reflexivity.
  repeat (split; [assumption|]).
  exact (@api_error_is_reported h (VStr "hello") VUndefined VUndefined VUndefined
           VUndefined (VStr "sk-test-0123456789abcdef") (VStr "https://proxy.example.com")
           Scenario.keyed_world Scenario.client Scenario.request Scenario.rejected
           "authentication_error" "invalid x-api-key" Hcalls Hans He Ht Hm).
Defined.

(** C6, as stated, fails: a response that carries an [error] field whose
    value is [null] is relayed as a success. *)
Lemma null_error_field_is_a_success :
  let h := Reference.host (Rejects "unused") (Ok Scenario.answered) in
  let run :=
    @sendMessageWithAnthropicSDK h (VStr "hello") VUndefined VUndefined VUndefined
      VUndefined (VStr "sk-test-0123456789abcdef") (VStr "https://proxy.example.com")
      Scenario.keyed_world in
  (match Scenario.answered with
   | VObj fields => assoc "error" fields
   | _ => None
   end) = Some VNull
  /\ calls (snd run) = [MessagesCreate Scenario.client Scenario.request]
  /\ fst run = Ok tt
  /\ last (stdout (snd run)) = Some (JSON_LINE (success_record (VStr "uuid-0")))
  /\ List.filter (fun l => match l with
                           | MESSAGE msg => is_str "result" (prop "type" msg)
                           | _ => false
                           end) (stdout (snd run))
     = [MESSAGE (VObj [("type", VStr "result"); ("subtype", VStr "success");
                       ("is_error", VBool false); ("duration_ms", VNum 0);
                       ("num_turns", VNum 1); ("result", VStr "hi");
                       ("session_id", VStr "uuid-0"); ("total_cost_usd", VNum 0);
                       ("usage", zero_usage); ("uuid", VStr "uuid-5")])].
Proof. vm_compute. repeat split; reflexivity. Qed.
(** * Further properties *)

(** ** The single-use async channel: queueing *)

Lemma enqueue_all_no_reader (vs : list value) (s : AsyncStream.t) :
  AsyncStream.readResolve s = None ->
  AsyncStream.queue (enqueue_all vs s) = AsyncStream.queue s ++ vs
  /\ AsyncStream.readResolve (enqueue_all vs s) = None
  /\ AsyncStream.isDone (enqueue_all vs s) = AsyncStream.isDone s.
Proof.
  revert s. induction vs as [|v vs IH]; intros s Hs; cbn [enqueue_all fold_left].
  - now rewrite app_nil_r.
  - destruct (IH (AsyncStream.enqueue v s)) as (Hq & Hr & Hd).
    { unfold AsyncStream.enqueue. now rewrite Hs. }
    unfold enqueue_all in *. rewrite Hq, Hr, Hd.
    unfold AsyncStream.enqueue. rewrite Hs. cbn. now rewrite <- app_assoc.
Qed.

Lemma reads_finished (q : list value) (k : nat) (s : AsyncStream.t) :
  AsyncStream.queue s = q -> AsyncStream.isDone s = true ->
  reads (length q + k) s
  = map (fun v => AsyncStream.Now (AsyncStream.Yield v)) q
    ++ repeat (AsyncStream.Now AsyncStream.Finished) k.
Proof.
  revert s. induction q as [|v q IH]; intros s Hq Hd.
  - cbn [length plus map app]. revert s Hq Hd.
    induction k as [|k IHk]; intros s Hq Hd; [reflexivity|].
    cbn [reads repeat]. unfold AsyncStream.next. rewrite Hq, Hd. cbn [fst snd].
    f_equal. now apply IHk.
  - cbn [length plus reads map app]. unfold AsyncStream.next. rewrite Hq. cbn [fst snd].
    f_equal. now apply IH.
Qed.

(** X1.  Values enqueued on a new channel that is then marked finished are
    read back in the order they were enqueued, each by a read that settles
    at once, and every read after the last value reports the end of the
    sequence. *)
Theorem channel_reads_in_enqueue_order (vs : list value) (k : nat) :
  reads (length vs + k) (AsyncStream.done (enqueue_all vs AsyncStream.new))
  = map (fun v => AsyncStream.Now (AsyncStream.Yield v)) vs
    ++ repeat (AsyncStream.Now AsyncStream.Finished) k.
Proof.
  destruct (enqueue_all_no_reader vs AsyncStream.new eq_refl) as (Hq & Hr & Hd).
  apply reads_finished.
  - unfold AsyncStream.done. rewrite Hr. cbn. exact Hq.
  - unfold AsyncStream.done. now rewrite Hr.
Qed.

(** ** The single-use async channel: bookkeeping *)

Lemma channel_ok_new : channel_ok AsyncStream.new.
Proof.
  split; [|split]; cbn; [discriminate | constructor | constructor].
Qed.

Lemma channel_ok_step (o : AsyncStream.op) (s : AsyncStream.t) :
  channel_ok s -> channel_ok (AsyncStream.step o s).
Proof.
  intros Hok. pose proof Hok as (Hread & Hnodup & Hbound).
  destruct o; cbn [AsyncStream.step].
  - unfold AsyncStream.asyncIterator.
    destruct (AsyncStream.started s); exact Hok.
  - unfold AsyncStream.next.
    destruct (AsyncStream.queue s) as [|v q] eqn:Hq.
    + destruct (AsyncStream.isDone s); [exact Hok|].
      split; [|split]; cbn.
      * intros p Hp. injection Hp as <-. split; [reflexivity|]. split; [lia|].
        intros Hin. rewrite List.Forall_forall in Hbound.
        specialize (Hbound _ Hin). lia.
      * exact Hnodup.
      * eapply Forall_impl; [exact Hbound|]. cbn. intros; lia.
    + split; [|split]; cbn; [|exact Hnodup|exact Hbound].
      intros p Hp. destruct (Hread p Hp) as (Hnil & _). congruence.
  - unfold AsyncStream.enqueue.
    destruct (AsyncStream.readResolve s) as [p|] eqn:Hp.
    + destruct (Hread p eq_refl) as (Hq & Hlt & Hnot).
      split; [|split]; unfold settled_ids; cbn; [discriminate| |];
        rewrite map_app; cbn.
      * apply NoDup_app. split; [exact Hnodup|]. split; [|apply NoDup_singleton].
        intros x Hx Hx'. apply list_elem_of_In in Hx. apply list_elem_of_In in Hx'.
        destruct Hx' as [<-|[]]. contradiction.
      * apply Forall_app. split; [exact Hbound | now repeat constructor].
    + split; [|split]; cbn; [discriminate|exact Hnodup|exact Hbound].
  - unfold AsyncStream.done.
    destruct (AsyncStream.readResolve s) as [p|] eqn:Hp.
    + destruct (Hread p eq_refl) as (Hq & Hlt & Hnot).
      split; [|split]; unfold settled_ids; cbn; [discriminate| |];
        rewrite map_app; cbn.
      * apply NoDup_app. split; [exact Hnodup|]. split; [|apply NoDup_singleton].
        intros x Hx Hx'. apply list_elem_of_In in Hx. apply list_elem_of_In in Hx'.
        destruct Hx' as [<-|[]]. contradiction.
      * apply Forall_app. split; [exact Hbound | now repeat constructor].
    + split; [|split]; cbn; [discriminate|exact Hnodup|exact Hbound].
  - exact Hok.
Qed.

Lemma channel_ok_run (ops : list AsyncStream.op) (s : AsyncStream.t) :
  channel_ok s -> channel_ok (AsyncStream.run ops s).
Proof.
  revert s. induction ops as [|o ops IH]; intros s Hs; [exact Hs|].
  cbn [AsyncStream.run fold_left]. apply IH. now apply channel_ok_step.
Qed.




Lemma step_keeps_done (o : AsyncStream.op) (s : AsyncStream.t) :
  AsyncStream.isDone s = true -> AsyncStream.isDone (AsyncStream.step o s) = true.
Proof.
  intros Hd. destruct o; cbn [AsyncStream.step].
  - unfold AsyncStream.asyncIterator. destruct (AsyncStream.started s); exact Hd.
  - unfold AsyncStream.next.
    destruct (AsyncStream.queue s); [rewrite Hd|]; exact Hd.
  - unfold AsyncStream.enqueue. destruct (AsyncStream.readResolve s); exact Hd.
  - unfold AsyncStream.done. destruct (AsyncStream.readResolve s); reflexivity.
  - reflexivity.
Qed.

Lemma run_keeps_done (ops : list AsyncStream.op) (s : AsyncStream.t) :
  AsyncStream.isDone s = true -> AsyncStream.isDone (AsyncStream.run ops s) = true.
Proof.
  revert s. induction ops as [|o ops IH]; intros s Hd; [exact Hd|].
  cbn [AsyncStream.run fold_left]. apply IH. now apply step_keeps_done.
Qed.

Lemma next_when_done (s : AsyncStream.t) :
  AsyncStream.isDone s = true -> exists r, fst (AsyncStream.next s) = AsyncStream.Now r.
Proof.
  intros Hd. unfold AsyncStream.next.
  destruct (AsyncStream.queue s); [rewrite Hd|]; eexists; reflexivity.
Qed.

(** X4.  A channel that was marked finished, by the producer ([done()]) or
    by a consumer that stops early ([return()]), stays finished whatever
    happens next, and no later read is ever left waiting.  An early stop
    itself resolves nothing: a reader waiting at that moment is not
    notified. *)
Theorem finished_channel_never_suspends (s : AsyncStream.t) (ops : list AsyncStream.op) :
  let cancelled := snd (AsyncStream.return_ s) in
  AsyncStream.settled cancelled = AsyncStream.settled s
  /\ AsyncStream.readResolve cancelled = AsyncStream.readResolve s
  /\ AsyncStream.isDone (AsyncStream.run ops cancelled) = true
  /\ AsyncStream.isDone (AsyncStream.run ops (AsyncStream.done s)) = true
  /\ (exists r, fst (AsyncStream.next (AsyncStream.run ops cancelled)) = AsyncStream.Now r)
  /\ (exists r, fst (AsyncStream.next (AsyncStream.run ops (AsyncStream.done s)))
                = AsyncStream.Now r).
Proof.
  intros cancelled.
  assert (Hc : AsyncStream.isDone cancelled = true) by reflexivity.
  assert (Hd : AsyncStream.isDone (AsyncStream.done s) = true).
  { unfold AsyncStream.done. destruct (AsyncStream.readResolve s); reflexivity. }
  repeat split.
  - now apply run_keeps_done.
  - now apply run_keeps_done.
  - apply next_when_done. now apply run_keeps_done.
  - apply next_when_done. now apply run_keeps_done.
Qed.

(** ** The endpoint test *)

Lemma toLowerCase_app (s t : string) :
  Str.toLowerCase (s +:+ t) = Str.toLowerCase s +:+ Str.toLowerCase t.
Proof.
  induction s as [|c s IH]; [reflexivity|].
  rewrite app_cons. cbn [Str.toLowerCase]. now rewrite IH, app_cons.
Qed.

(** X5.  The endpoint test looks for the host name only: a base URL is
    taken as custom exactly when it is a non-empty string whose lower-cased
    text does not contain "api.anthropic.com"; the three listed official
    URLs are not compared with it.  So an absent or empty URL is official,
    and so is every URL that carries the host name anywhere, in any
    position. *)
Theorem isCustomBaseUrl_by_substring (url : string) :
  (isCustomBaseUrl (VStr url) = Ok true
   <-> url <> EmptyString /\ ~ contains "api.anthropic.com" (Str.toLowerCase url))
  /\ (isCustomBaseUrl (VStr url) = Ok false
      <-> url = EmptyString \/ contains "api.anthropic.com" (Str.toLowerCase url))
  /\ (forall before after,
        isCustomBaseUrl (VStr (before +:+ "api.anthropic.com" +:+ after)) = Ok false)
  /\ isCustomBaseUrl VUndefined = Ok false
  /\ isCustomBaseUrl VNull = Ok false.
Proof.
  assert (Hrun : forall s,
             isCustomBaseUrl (VStr s)
             = Ok (negb (Str.is_empty s)
                   && negb (Str.includes "api.anthropic.com" (Str.toLowerCase s)))).
  { intros [|c s]; [reflexivity|].
    unfold isCustomBaseUrl. cbn [truthy Str.is_empty negb officialUrls existsb andb].
    destruct (Str.includes _ _); reflexivity. }
  repeat split.
  - rewrite Hrun in H. injection H as H. destruct url; [discriminate | congruence].
  - rewrite Hrun in H. injection H as H. apply andb_true_iff in H as [_ H].
    apply negb_true_iff in H. now apply includes_false.
  - intros [Hne Hno]. rewrite Hrun. apply includes_false in Hno. rewrite Hno.
    destruct url; [congruence | reflexivity].
  - rewrite Hrun. intros Heq. injection Heq as Heq.
    apply andb_false_iff in Heq as [Heq|Heq].
    + left. destruct url; [reflexivity | discriminate].
    + right. apply negb_false_iff in Heq. now apply includes_spec.
  - rewrite Hrun. intros [->|Hin]; [reflexivity|].
    apply includes_spec in Hin. rewrite Hin. now rewrite andb_false_r.
  - intros before after. rewrite Hrun.
    assert (Hin : Str.includes "api.anthropic.com"
                    (Str.toLowerCase (before +:+ "api.anthropic.com" +:+ after)) = true).
    { apply includes_spec. rewrite !toLowerCase_app.
      exists (Str.toLowerCase before), (Str.toLowerCase after). reflexivity. }
    rewrite Hin. now rewrite andb_false_r.
Qed.

(** ** Temp directories on Windows *)

Lemma slash_backslashes_clean (s : string) : no_backslash_in (Str.slash_backslashes s).
Proof.
  induction s as [|c s IH]; intros before after Heq.
  - destruct before; discriminate.
  - cbn [Str.slash_backslashes] in Heq. destruct before as [|b before].
    + rewrite app_empty in Heq. injection Heq as Hc _.
      destruct (Ascii.eqb_spec c "\"%char); [discriminate | congruence].
    + rewrite app_cons in Heq. injection Heq as _ Heq. now apply IH in Heq.
Qed.

Lemma lower_ascii_backslash (c : ascii) : Str.lower_ascii c = "\"%char -> c = "\"%char.
Proof.
  unfold Str.lower_ascii.
  destruct ((65 <=? nat_of_ascii c)%nat && (nat_of_ascii c <=? 90)%nat) eqn:Hc;
    [|exact (fun Heq => Heq)].
  apply andb_true_iff in Hc as [Hlo Hhi].
  apply Nat.leb_le in Hlo, Hhi. intros Heq.
  apply (f_equal nat_of_ascii) in Heq. rewrite nat_ascii_embedding in Heq by lia.
  assert (E : nat_of_ascii "\"%char = 92) by reflexivity.
  rewrite E in Heq. lia.
Qed.

Lemma toLowerCase_clean (s : string) :
  no_backslash_in s -> no_backslash_in (Str.toLowerCase s).
Proof.
  induction s as [|c s IH]; intros Hs before after Heq.
  - destruct before; discriminate.
  - cbn [Str.toLowerCase] in Heq. destruct before as [|b before].
    + rewrite app_empty in Heq. injection Heq as Hc _.
      apply lower_ascii_backslash in Hc. subst c.
      apply (Hs EmptyString s). reflexivity.
    + rewrite app_cons in Heq. injection Heq as _ Heq.
      apply IH in Heq; [exact Heq|].
      intros before' after' Heq'. apply (Hs (String c before') after').
      rewrite app_cons. now rewrite Heq'.
Qed.

Lemma normalizePathForComparison_clean `{Host} (p : string) :
  no_backslash_in (normalizePathForComparison p).
Proof.
  unfold normalizePathForComparison.
  destruct (Str.is_empty p).
  - intros before after Heq. destruct before; discriminate.
  - destruct (Str.eqb platform "win32");
      [apply toLowerCase_clean|]; apply slash_backslashes_clean.
Qed.

Section WindowsTemp.
Context `{Host}.

Lemma windows_temp_prefixes (w : World) (p : string) :
  Str.eqb platform "win32" = true ->
  In p (temp_prefixes w)
  <-> In p (windows_environment_prefixes w) \/ p = "c:\windows\temp" \/ p = "c:\temp".
Proof.
  intros Hwin. unfold temp_prefixes, getTempPathPrefixes. rewrite Hwin.
  unfold bind, getenv, ret. cbn [fst].
  fold (env_value (env w) "TEMP") (env_value (env w) "TMP")
       (env_value (env w) "LOCALAPPDATA").
  rewrite dedupe_In. unfold windows_environment_prefixes.
  rewrite !in_app_iff. cbn [In existsb]. intuition congruence.
Qed.

Lemma no_backslash_prefix (p before after s : string) :
  p = before +:+ String "\"%char after -> no_backslash_in s -> ~ has_prefix p s.
Proof.
  intros -> Hs [rest Hrest]. apply (Hs before (after +:+ rest)).
  rewrite Hrest. clear. induction before as [|c before IH]; [reflexivity|].
  rewrite !app_cons. now rewrite IH.
Qed.

(** X6.  On Windows every path is compared in normalized form, with forward
    slashes only, and the two built-in prefixes [c:\windows\temp] and
    [c:\temp] are written with backslashes: they are a prefix of no
    normalized path.  A path is therefore judged temporary exactly when it
    starts with a prefix taken from [os.tmpdir()], [TEMP], [TMP] or
    [LOCALAPPDATA]; the built-in defaults never contribute. *)
Theorem windows_builtin_prefixes_never_match (n : string) (w : World) :
  Str.eqb platform "win32" = true ->
  (fst (isTempDirectory n w) = Ok true
   <-> exists p, In p (windows_environment_prefixes w) /\ p <> EmptyString
                 /\ has_prefix p (normalizePathForComparison n))
  /\ ~ has_prefix "c:\windows\temp" (normalizePathForComparison n)
  /\ ~ has_prefix "c:\temp" (normalizePathForComparison n).
Proof.
  intros Hwin.
  assert (H1 : ~ has_prefix "c:\windows\temp" (normalizePathForComparison n)).
  { apply (no_backslash_prefix _ "c:" "windows\temp"); [reflexivity|].
    apply normalizePathForComparison_clean. }
  assert (H2 : ~ has_prefix "c:\temp" (normalizePathForComparison n)).
  { apply (no_backslash_prefix _ "c:" "temp"); [reflexivity|].
    apply normalizePathForComparison_clean. }
  split; [|split; assumption].
  rewrite isTempDirectory_prefix. split.
  - intros (p & Hin & Hne & Hpre). exists p.
    apply (windows_temp_prefixes w p Hwin) in Hin as [Hin|[->| ->]];
      [now repeat split | contradiction | contradiction].
  - intros (p & Hin & Hne & Hpre). exists p. repeat split; try assumption.
    apply (windows_temp_prefixes w p Hwin). now left.
Qed.

End WindowsTemp.

(** A Windows process without [TEMP], [TMP] and [LOCALAPPDATA]: a directory
    below [C:\Windows\Temp] is not recognized, one below the system temp
    directory is. *)
Lemma windows_builtin_prefixes_never_match_witness :
  let w := Reference.world [] [] in
  Str.eqb (@platform windows_host) "win32" = true
  /\ fst (@isTempDirectory windows_host "C:\Windows\Temp\job" w) = Ok false
  /\ fst (@isTempDirectory windows_host "C:\Users\user\AppData\Local\Temp\job" w) = Ok true
  /\ ~ has_prefix "c:\windows\temp"
         (@normalizePathForComparison windows_host "C:\Windows\Temp\job").
Proof.
  intros w. split; [reflexivity|]. split; [reflexivity|]. split; [reflexivity|].
  exact (proj1 (proj2 (@windows_builtin_prefixes_never_match windows_host
                         "C:\Windows\Temp\job" w eq_refl))).
Defined.

(** ** Credentials *)

Section Credentials.
Context `{Host}.

Lemma loadClaudeSettings_run (w : World) :
  loadClaudeSettings w = (Ok (settings_of w), w).
Proof.
  unfold settings_of, loadClaudeSettings, try_catch, bind, readFileSync, ret, throw.
  destruct (files w !! _); [destruct (JSON_parse _)|case_decide]; reflexivity.
Qed.

Lemma setupApiKey_unconfigured (w : World) :
  truthy (configured_key w) = false ->
  setupApiKey w
  = (Throw "API Key not configured", with_stderr (stderr w ++ [missing_key_notice]) w).
Proof.
  unfold configured_key, settings_var, js_or. intros Hkey.
  unfold setupApiKey, bind. rewrite loadClaudeSettings_run. unfold getenv.
  cbn beta iota.
  fold (env_value (env w) "ANTHROPIC_API_KEY") (env_value (env w) "ANTHROPIC_BASE_URL").
  destruct (truthy (opt_prop "ANTHROPIC_API_KEY" _)) eqn:H1; [congruence|].
  destruct (truthy (opt_prop "ANTHROPIC_AUTH_TOKEN" _)) eqn:H2; [congruence|].
  rewrite Hkey.
  destruct (truthy (opt_prop "ANTHROPIC_BASE_URL" _)); [reflexivity|].
  destruct (truthy (env_value (env w) "ANTHROPIC_BASE_URL")); reflexivity.
Qed.

End Credentials.

Section CredentialResults.
Context `{Host}.

Lemma setupApiKey_configured (w : World) :
  truthy (configured_key w) = true ->
  exists keySource urlSource,
    setupApiKey w
    = match to_string (configured_key w) with
      | Throw e => (Throw e, w)
      | Ok key_text =>
          let w1 := with_env (insert "ANTHROPIC_API_KEY" key_text) w in
          if truthy (configured_url w) then
            match to_string (configured_url w) with
            | Throw e => (Throw e, w1)
            | Ok url_text =>
                (Ok {| apiKey := configured_key w; baseUrl := configured_url w;
                       apiKeySource := keySource; baseUrlSource := urlSource |},
                 with_env (insert "ANTHROPIC_BASE_URL" url_text) w1)
            end
          else
            (Ok {| apiKey := configured_key w; baseUrl := VUndefined;
                   apiKeySource := keySource; baseUrlSource := urlSource |}, w1)
      end.
Proof.
  unfold configured_key, configured_url, settings_var, js_or. intros Hkey.
  unfold setupApiKey, bind. rewrite loadClaudeSettings_run. unfold getenv.
  cbn beta iota.
  fold (env_value (env w) "ANTHROPIC_API_KEY") (env_value (env w) "ANTHROPIC_BASE_URL").
  set (k1 := opt_prop "ANTHROPIC_API_KEY" _) in *.
  set (k2 := opt_prop "ANTHROPIC_AUTH_TOKEN" _) in *.
  set (k3 := env_value (env w) "ANTHROPIC_API_KEY") in *.
  set (u1 := opt_prop "ANTHROPIC_BASE_URL" _) in *.
  set (u2 := env_value (env w) "ANTHROPIC_BASE_URL") in *.
  destruct (truthy k1) eqn:H1; [|destruct (truthy k2) eqn:H2];
    (destruct (truthy u1) eqn:Hu1; [|destruct (truthy u2) eqn:Hu2]);
    cbn beta iota zeta; rewrite ?H1, ?H2, ?Hkey, ?Hu1, ?Hu2; cbn [negb];
    unfold lift, setenv, ret;
    do 2 eexists;
    match goal with
    | |- context [to_string ?k] => destruct (to_string k); [|reflexivity]
    end;
    cbn beta iota zeta; rewrite ?Hu1, ?Hu2;
    try match goal with
    | |- context [to_string ?u] => destruct (to_string u)
    end; reflexivity.
Qed.

(** X7.  The API key is taken, in this order, from [env.ANTHROPIC_API_KEY]
    of the settings file, from its [env.ANTHROPIC_AUTH_TOKEN], and from the
    process environment; the base URL from the settings file and then from
    the process environment.  Without a key the setup fails with "API Key
    not configured" and leaves the environment alone.  When it succeeds it
    returns that key and has exported it as [ANTHROPIC_API_KEY]; a base URL
    is exported as [ANTHROPIC_BASE_URL] when one is configured, and the
    variable is left as it was otherwise.  It succeeds whenever the
    configured values are strings. *)
Theorem setupApiKey_precedence (w : World) :
  let key := configured_key w in
  let url := configured_url w in
  let after := snd (setupApiKey w) in
  (truthy key = false ->
   fst (setupApiKey w) = Throw "API Key not configured" /\ env after = env w)
  /\ (forall creds,
        fst (setupApiKey w) = Ok creds ->
        truthy key = true /\ apiKey creds = key
        /\ (exists key_text,
              to_string key = Ok key_text
              /\ env after !! "ANTHROPIC_API_KEY" = Some key_text)
        /\ (truthy url = true ->
            baseUrl creds = url
            /\ exists url_text,
                to_string url = Ok url_text
                /\ env after !! "ANTHROPIC_BASE_URL" = Some url_text)
        /\ (truthy url = false ->
            baseUrl creds = VUndefined
            /\ env after !! "ANTHROPIC_BASE_URL" = env w !! "ANTHROPIC_BASE_URL"))
  /\ (truthy key = true -> is_string key = true ->
      (truthy url = true -> is_string url = true) ->
      exists creds, fst (setupApiKey w) = Ok creds).
Proof.
  intros key url after. subst after. split; [|split].
  - intros Hkey. rewrite (setupApiKey_unconfigured w Hkey). now split.
  - intros creds Hok.
    destruct (truthy key) eqn:Hkey;
      [|rewrite (setupApiKey_unconfigured w Hkey) in Hok; discriminate].
    destruct (setupApiKey_configured w Hkey) as (ks & us & Hrun).
    fold key url in Hrun. rewrite Hrun in Hok |- *. clear Hrun.
    destruct (to_string key) as [key_text|e]; [|discriminate].
    cbn zeta in *.
    destruct (truthy url) eqn:Hurl.
    + destruct (to_string url) as [url_text|e]; [|discriminate].
      cbn [fst snd] in *. injection Hok as <-. cbn [apiKey baseUrl].
      repeat split; try discriminate.
      * exists key_text. split; [reflexivity|]. cbn.
        rewrite lookup_insert_ne by discriminate. apply lookup_insert_eq.
      * exists url_text. split; [reflexivity|]. cbn. apply lookup_insert_eq.
    + cbn [fst snd] in *. injection Hok as <-. cbn [apiKey baseUrl].
      repeat split; try discriminate.
      * exists key_text. split; [reflexivity|]. cbn. apply lookup_insert_eq.
      * cbn. now rewrite lookup_insert_ne by discriminate.
  - intros Hkey Hks Hus.
    destruct (setupApiKey_configured w Hkey) as (ks & us & Hrun).
    fold key url in Hrun. rewrite Hrun. clear Hrun.
    destruct key as [| | | |k| |]; try discriminate. cbn [to_string]. cbn zeta.
    destruct (truthy url) eqn:Hurl; [|eexists; reflexivity].
    specialize (Hus eq_refl).
    destruct url as [| | | |u| |]; try discriminate. cbn [to_string].
    eexists; reflexivity.
Qed.

End CredentialResults.

(** ** Running a sequence step by step *)

Lemma bind_ok {A B} (m : M A) (k : A -> M B) (w w' : World) (a : A) :
  m w = (Ok a, w') -> bind m k w = k a w'.
Proof. intros Hm. unfold bind. now rewrite Hm. Qed.

Lemma bind_throw {A B} (m : M A) (k : A -> M B) (w w' : World) (e : string) :
  m w = (Throw e, w') -> bind m k w = (Throw e, w').
Proof. intros Hm. unfold bind. now rewrite Hm. Qed.

Section MissingKey.
Context `{Host}.

Lemma configured_key_stable (w w' : World) :
  files w' = files w -> dirs w' = dirs w ->
  env w' !! "ANTHROPIC_API_KEY" = env w !! "ANTHROPIC_API_KEY" ->
  configured_key w' = configured_key w.
Proof.
  intros Hf Hd He.
  assert (Hs : settings_of w' = settings_of w).
  { unfold settings_of, loadClaudeSettings, try_catch, bind, readFileSync, ret, throw.
    rewrite Hf, Hd.
    destruct (files w !! _); [destruct (JSON_parse _)|case_decide]; reflexivity. }
  unfold configured_key, settings_var, env_value. now rewrite Hs, He.
Qed.

(** X8.  Without a configured API key neither sender reaches the SDK: the
    invocation ends normally, issues no request, prints no
    [[MESSAGE_START]], and closes with the record [{success:false,
    error:"API Key not configured"}]. *)
Theorem missing_key_fails_fast
    (message resumeSessionId cwd permissionMode model stdinData : value) (w : World) :
  truthy (configured_key w) = false ->
  let plain := sendMessage message resumeSessionId cwd permissionMode model w in
  let multimodal :=
    sendMessageWithAttachments message resumeSessionId cwd permissionMode model
      stdinData w in
  let record := JSON_LINE (failure_record (VStr "API Key not configured")) in
  (fst plain = Ok tt
   /\ stdout (snd plain) = stdout w ++ [DEBUG "CLAUDE_CODE_ENTRYPOINT:"; record]
   /\ calls (snd plain) = calls w)
  /\ (fst multimodal = Ok tt
      /\ stdout (snd multimodal) = stdout w ++ [record]
      /\ calls (snd multimodal) = calls w).
Proof.
  intros Hkey plain multimodal record. subst plain multimodal record. split.
  - unfold sendMessage. cbn zeta. unfold try_catch.
    erewrite bind_ok; [|reflexivity].
    erewrite bind_ok; [|reflexivity].
    erewrite bind_throw;
      [|apply setupApiKey_unconfigured;
        rewrite <- Hkey; f_equal; apply configured_key_stable; try reflexivity;
        cbn; now rewrite lookup_insert_ne by discriminate].
    cbn. rewrite <- app_assoc. now repeat split.
  - unfold sendMessageWithAttachments. cbn zeta. unfold try_catch.
    erewrite bind_ok; [|reflexivity].
    erewrite bind_throw;
      [|apply setupApiKey_unconfigured;
        rewrite <- Hkey; f_equal; apply configured_key_stable; try reflexivity;
        cbn; now rewrite lookup_insert_ne by discriminate].
    cbn. now repeat split.
Qed.

End MissingKey.

(** A process that was given no key and has no settings file. *)
Lemma missing_key_fails_fast_witness :
  let h := Reference.host Scenario.greeting (Throw "unused") in
  let w := Reference.world [] [] in
  let record := JSON_LINE (failure_record (VStr "API Key not configured")) in
  truthy (@configured_key h w) = false
  /\ stdout (snd (@sendMessage h (VStr "hello") VNull VNull VNull VNull w))
     = [DEBUG "CLAUDE_CODE_ENTRYPOINT:"; record]
  /\ stdout (snd (@sendMessageWithAttachments h (VStr "hello") VNull VNull VNull VNull
                    VNull w))
     = [record].
Proof.
  intros h w record.
  pose proof (@missing_key_fails_fast h (VStr "hello") VNull VNull VNull VNull VNull w
                eq_refl) as [(_ & Hplain & _) (_ & Hmulti & _)].
  split; [reflexivity|]. split; [exact Hplain | exact Hmulti].
Defined.

(** ** Relaying a stream *)

Lemma prints_ret {A} (a : A) : prints (ret a) a [].
Proof. intros w. unfold ret. now rewrite app_nil_r, with_stdout_id. Qed.

Lemma prints_console_log (l : line) : prints (console_log l) tt [l].
Proof. intros w. reflexivity. Qed.

Lemma prints_bind {A B} (m : M A) (k : A -> M B) (a : A) (b : B) (l1 l2 : list line) :
  prints m a l1 -> prints (k a) b l2 -> prints (bind m k) b (l1 ++ l2).
Proof.
  intros Hm Hk w. unfold bind. rewrite Hm, Hk. cbn.
  now rewrite with_stdout_twice, app_assoc.
Qed.

Lemma prints_lift {A} (a : A) : prints (lift (Ok a)) a [].
Proof. exact (prints_ret a). Qed.

Lemma open_line_app (l1 l2 : list line) :
  Forall open_line l1 -> Forall open_line l2 -> Forall open_line (l1 ++ l2).
Proof. intros H1 H2. apply Forall_app. now split. Qed.

(** What the relay of one content block prints. *)
Lemma relay_block_prints (block : value) :
  nullish block = false ->
  exists ls,
    prints (relay_block block) tt ls
    /\ messages_in ls = [] /\ session_ids_in ls = []
    /\ contents_in ls
       = (if is_str "text" (prop "type" block) then [prop "text" block] else [])
    /\ Forall open_line ls.
Proof.
  intros Hb. unfold relay_block, member. rewrite Hb.
  destruct (is_str "text" (prop "type" block)) eqn:Ht.
  - exists [CONTENT (prop "text" block)]. split.
    + apply (prints_bind _ _ (prop "type" block) tt [] _ (prints_lift _)).
      rewrite Ht. apply prints_console_log.
    + repeat split. now repeat constructor.
  - destruct (is_str "tool_use" (prop "type" block)) eqn:Hu.
    + exists [DEBUG "Tool use payload:"]. split.
      * apply (prints_bind _ _ (prop "type" block) tt [] _ (prints_lift _)).
        rewrite Ht, Hu. apply prints_console_log.
      * repeat split. now repeat constructor.
    + exists []. split.
      * apply (prints_bind _ _ (prop "type" block) tt [] [] (prints_lift _)).
        rewrite Ht, Hu. apply prints_ret.
      * repeat split. constructor.
Qed.

Lemma relay_blocks_prints (blocks : list value) :
  forallb (fun b => negb (nullish b)) blocks = true ->
  exists ls,
    prints (for_each relay_block blocks) tt ls
    /\ messages_in ls = [] /\ session_ids_in ls = []
    /\ contents_in ls
       = map (prop "text") (List.filter (fun b => is_str "text" (prop "type" b)) blocks)
    /\ Forall open_line ls.
Proof.
  induction blocks as [|b blocks IH]; intros Hall.
  - exists []. split; [apply prints_ret|]. repeat split. constructor.
  - cbn [forallb] in Hall. apply andb_true_iff in Hall as [Hb Hall].
    apply negb_true_iff in Hb.
    destruct (relay_block_prints b Hb) as (l1 & Hp1 & Hm1 & Hs1 & Hc1 & Ho1).
    destruct (IH Hall) as (l2 & Hp2 & Hm2 & Hs2 & Hc2 & Ho2).
    exists (l1 ++ l2). split; [|repeat split].
    + cbn [for_each]. now apply (prints_bind _ _ tt tt).
    + unfold messages_in in *. now rewrite omap_app, Hm1, Hm2.
    + unfold session_ids_in in *. now rewrite omap_app, Hs1, Hs2.
    + unfold contents_in in *. rewrite omap_app, Hc1, Hc2. cbn [List.filter].
      destruct (is_str "text" (prop "type" b)); reflexivity.
    + now apply open_line_app.
Qed.

(** What the relay of one event prints and returns. *)
Lemma relay_event_prints (msg sid : value) :
  relayable msg = true ->
  exists ls,
    prints (relay_event msg sid)
      (if announces msg then prop "session_id" msg else sid) ls
    /\ messages_in ls = [msg]
    /\ session_ids_in ls = (if announces msg then [prop "session_id" msg] else [])
    /\ contents_in ls = shown_texts msg
    /\ Forall open_line ls.
Proof.
  unfold relayable. intros Hmsg.
  apply andb_true_iff in Hmsg as [Hmsg Hblocks].
  apply andb_true_iff in Hmsg as [Hnull Htype].
  apply negb_true_iff in Hnull.
  destruct (to_string (prop "type" msg)) as [type_text|] eqn:Htext; [|discriminate].
  assert (Hshown :
            exists lc,
              prints (if is_str "assistant" (prop "type" msg) then
                        match opt_prop "content" (prop "message" msg) with
                        | VArr blocks => for_each relay_block blocks
                        | VStr _ =>
                            console_log (CONTENT (opt_prop "content" (prop "message" msg)))
                        | _ => ret tt
                        end
                      else ret tt) tt lc
              /\ messages_in lc = [] /\ session_ids_in lc = []
              /\ contents_in lc = shown_texts msg /\ Forall open_line lc).
  { unfold shown_texts.
    destruct (is_str "assistant" (prop "type" msg)).
    - destruct (opt_prop "content" (prop "message" msg)) as [| | | |text|blocks|fields];
        try (exists []; split; [apply prints_ret | repeat split; constructor]).
      + exists [CONTENT (VStr text)]. split; [apply prints_console_log|].
        repeat split. now repeat constructor.
      + now apply relay_blocks_prints.
    - exists []. split; [apply prints_ret | repeat split; constructor]. }
  destruct Hshown as (lc & Hpc & Hmc & Hsc & Hcc & Hoc).
  unfold relay_event, member. rewrite Hnull. cbv iota.
  destruct (announces msg) eqn:Ha.
  - exists ([] ++ [] ++ [DEBUG "Received message"] ++ [MESSAGE msg] ++ lc
            ++ [SESSION_ID (prop "session_id" msg)] ++ []).
    split.
    + eapply prints_bind; [apply prints_lift|]. cbv beta. rewrite Htext.
      eapply prints_bind; [apply prints_lift|]. cbv beta.
      do 2 (eapply prints_bind; [apply prints_console_log|]).
      eapply prints_bind; [exact Hpc|].
      unfold announces in Ha. rewrite Ha.
      eapply prints_bind; [apply prints_console_log | apply prints_ret].
    + cbn [app]. unfold messages_in, session_ids_in, contents_in in *.
      cbn [omap list_omap]. rewrite !omap_app, ?Hmc, ?Hsc, ?Hcc. cbn.
      rewrite app_nil_r. repeat split.
      repeat constructor. apply open_line_app; [exact Hoc | now repeat constructor].
  - exists ([] ++ [] ++ [DEBUG "Received message"] ++ [MESSAGE msg] ++ lc ++ []).
    split.
    + eapply prints_bind; [apply prints_lift|]. cbv beta. rewrite Htext.
      eapply prints_bind; [apply prints_lift|]. cbv beta.
      do 2 (eapply prints_bind; [apply prints_console_log|]).
      eapply prints_bind; [exact Hpc|].
      unfold announces in Ha. rewrite Ha. apply prints_ret.
    + cbn [app]. unfold messages_in, session_ids_in, contents_in in *.
      cbn [omap list_omap]. rewrite !omap_app, ?Hmc, ?Hsc, ?Hcc. cbn.
      rewrite app_nil_r. repeat split.
      repeat constructor. apply open_line_app; [exact Hoc | constructor].
Qed.

Lemma relay_events_prints (events : list value) (sid : value) :
  forallb relayable events = true ->
  exists ls,
    prints (relay_events events sid) (announced events sid) ls
    /\ messages_in ls = events
    /\ session_ids_in ls = announcements events
    /\ contents_in ls = flat_map shown_texts events
    /\ Forall open_line ls.
Proof.
  revert sid. induction events as [|msg events IH]; intros sid Hall.
  - exists []. split; [apply prints_ret|]. repeat split. constructor.
  - cbn [forallb] in Hall. apply andb_true_iff in Hall as [Hmsg Hall].
    destruct (relay_event_prints msg sid Hmsg) as (l1 & Hp1 & Hm1 & Hs1 & Hc1 & Ho1).
    destruct (IH (if announces msg then prop "session_id" msg else sid) Hall)
      as (l2 & Hp2 & Hm2 & Hs2 & Hc2 & Ho2).
    exists (l1 ++ l2). split; [|repeat split].
    + cbn [relay_events]. eapply prints_bind; [exact Hp1 | exact Hp2].
    + unfold messages_in in *. now rewrite omap_app, Hm1, Hm2.
    + unfold session_ids_in, announcements in *. rewrite omap_app, Hs1, Hs2.
      cbn [List.filter]. destruct (announces msg); reflexivity.
    + unfold contents_in in *. now rewrite omap_app, Hc1, Hc2.
    + now apply open_line_app.
Qed.

(** X9.  A stream of readable events is relayed completely and in order:
    the relay does not fail, changes nothing but the console, prints one
    [[MESSAGE]] line per event in stream order, the texts of the assistant
    events as [[CONTENT]] lines, and one [[SESSION_ID]] line per system event
    that carries a session id; it returns the last session id announced, or
    the id it was given when the stream announces none. *)
Theorem relay_events_in_order (events : list value) (sid : value) (w : World) :
  forallb relayable events = true ->
  exists ls,
    relay_events events sid w
    = (Ok (announced events sid), with_stdout (stdout w ++ ls) w)
    /\ messages_in ls = events
    /\ session_ids_in ls = announcements events
    /\ contents_in ls = flat_map shown_texts events
    /\ Forall open_line ls.
Proof.
  intros Hall.
  destruct (relay_events_prints events sid Hall) as (ls & Hp & Hrest).
  exists ls. split; [apply Hp | exact Hrest].
Qed.

(** The sample stream: a session announcement, then the answer "hi". *)
Lemma relay_events_in_order_witness :
  let events :=
    match Scenario.greeting with Streams events _ => events | _ => [] end in
  let w := Scenario.keyed_world in
  forallb relayable events = true
  /\ exists ls,
      relay_events events VNull w = (Ok (VStr "sess-1"), with_stdout (stdout w ++ ls) w)
      /\ messages_in ls = events
      /\ session_ids_in ls = [VStr "sess-1"]
      /\ contents_in ls = [VStr "hi"]
      /\ Forall open_line ls.
Proof.
  intros events w. split; [reflexivity|].
  exact (relay_events_in_order events VNull w eq_refl).
Defined.

(** ** The trace of a sender *)

Lemma emits_after_yield {A B} (P : line -> Prop)
    (C : list line -> list call -> fate B -> Prop) (R : A -> Prop)
    (m : M A) (k : A -> M B) :
  absorbs P C -> silent P m -> returns R m -> (forall a, R a -> emits C (k a)) ->
  emits C (bind m k).
Proof.
  intros [Hpre Hfail] Hm HR Hk w. unfold bind.
  destruct (Hm w) as (l1 & c1 & Hl1 & Hc1 & HP1 & -> & Hs).
  specialize (HR w).
  destruct (m w) as [[[a|e]|] w1]; cbn [fst snd] in *; [| |contradiction].
  - destruct (Hk a (HR a eq_refl) w1) as (l2 & c2 & Hl2 & Hc2 & HC2).
    exists (l1 ++ l2), c2.
    rewrite Hl2, Hc2, Hl1, Hc1, app_nil_r, <- app_assoc.
    repeat split. now apply Hpre.
  - exists l1, []. repeat split; [exact Hl1 | exact Hc1 | now apply Hfail].
Qed.

Lemma dedupe_fresh (seen xs : list string) :
  NoDup (dedupe seen xs).
Proof.
  revert seen. induction xs as [|x xs IH]; intros seen; cbn [dedupe]; [constructor|].
  destruct (existsb (Str.eqb x) seen) eqn:Hx; [apply IH|].
  apply NoDup_cons. split; [|apply IH].
  rewrite list_elem_of_In, dedupe_In. intros [_ Hno]. cbn [existsb] in Hno.
  unfold Str.eqb in Hno. now rewrite String.eqb_refl in Hno.
Qed.

Section TraceParts.
Context `{Host}.
Variable P : line -> Prop.
Hypothesis P_debug : forall text, P (DEBUG text).

(** Only debug lines are printed. *)
Ltac trace_leaf :=
  match goal with
  | |- silent _ (console_log (DEBUG _)) => apply silent_console_log, P_debug
  | |- silent _ (ret _) => apply silent_reader, reader_ret
  | |- silent _ (throw _) => apply silent_reader, reader_throw
  | |- silent _ (lift _) => apply silent_reader, reader_lift
  | |- silent _ (getenv _) => apply silent_reader, reader_getenv
  | |- silent _ (existsSync _) => apply silent_reader, reader_existsSync
  | |- silent _ _ => silent_step
  end.
Ltac trace_parts := repeat trace_leaf.

Lemma debugs_setupApiKey : silent P setupApiKey.
Proof.
  unfold setupApiKey.
  apply silent_bind; [apply silent_reader; unfold loadClaudeSettings; prove_reader
                     | intros settings].
  trace_parts.
Qed.

Lemma debugs_selectWorkingDirectory_loop (envp : value) (cs : list value) :
  silent P (selectWorkingDirectory_loop envp cs).
Proof.
  induction cs as [|c cs IH]; cbn [selectWorkingDirectory_loop]; [trace_parts|].
  apply silent_bind; [apply silent_reader, reader_sanitizePath | intros [n|]]; [|exact IH].
  apply silent_bind; [apply silent_reader, reader_isTempDirectory | intros temp].
  destruct (temp && truthy envp).
  - apply silent_bind; [trace_parts | intros _; exact IH].
  - apply silent_bind; [trace_parts | intros [|]; [trace_parts | exact IH]].
Qed.

Lemma debugs_selectWorkingDirectory (requestedCwd : value) :
  silent P (selectWorkingDirectory requestedCwd).
Proof.
  unfold selectWorkingDirectory.
  do 4 (apply silent_bind; [trace_parts | intros ?]).
  apply silent_bind; [apply debugs_selectWorkingDirectory_loop | intros ?].
  trace_parts.
Qed.

Lemma debugs_first_existing (verbose : bool) (paths : list string) :
  silent P (first_existing verbose paths).
Proof.
  induction paths as [|p paths IH]; cbn [first_existing]; [trace_parts|].
  apply silent_bind; [trace_parts | intros [|]]; [trace_parts | exact IH].
Qed.

Lemma debugs_locate_with (verbose : bool) (command : string) (first_line : bool) :
  silent P (locate_with verbose command first_line).
Proof. unfold locate_with. trace_parts. Qed.

Lemma debugs_getClaudeCliPath (verbose : bool) : silent P (getClaudeCliPath verbose).
Proof.
  unfold getClaudeCliPath.
  apply silent_bind; [apply debugs_locate_with | intros [p|]]; [trace_parts|].
  apply silent_bind; [apply debugs_locate_with | intros [p|]]; [trace_parts|].
  do 4 (apply silent_bind; [trace_parts | intros ?]).
  apply silent_bind; [apply debugs_first_existing | intros ?].
  trace_parts.
Qed.

Lemma debugs_build_options (workingDirectory : string) (permissionMode : value)
    (sdkModelName : string) (claudeCliPath : value) :
  silent P (build_options workingDirectory permissionMode sdkModelName claudeCliPath).
Proof. unfold build_options. trace_parts. Qed.

Lemma debugs_set_entrypoint : silent P set_entrypoint.
Proof. unfold set_entrypoint. trace_parts. Qed.

Lemma debugs_enter_directory (workingDirectory : string) :
  silent P (enter_directory workingDirectory).
Proof. unfold enter_directory. trace_parts. Qed.

Lemma debugs_loadAttachments (stdinData : value) : silent P (loadAttachments stdinData).
Proof. unfold loadAttachments, loadAttachmentsFromEnv. trace_parts. Qed.

Lemma debugs_attachment_blocks (attachments : list value) :
  silent P (attachment_blocks attachments).
Proof.
  induction attachments as [|a rest IH]; cbn [attachment_blocks]; [trace_parts|].
  apply silent_bind; [unfold attachment_block; trace_parts | intros ?].
  apply silent_bind; [exact IH | intros ?; trace_parts].
Qed.

End TraceParts.

(** One step of a sender's trace: a part that prints debug lines only, or a
    single line that [P] admits. *)
Ltac trace_step HD :=
  match goal with
  | |- silent _ setupApiKey => apply debugs_setupApiKey, HD
  | |- silent _ (selectWorkingDirectory _) => apply debugs_selectWorkingDirectory, HD
  | |- silent _ (getClaudeCliPath _) => apply debugs_getClaudeCliPath, HD
  | |- silent _ (build_options _ _ _ _) => apply debugs_build_options, HD
  | |- silent _ set_entrypoint => apply debugs_set_entrypoint, HD
  | |- silent _ (enter_directory _) => apply debugs_enter_directory, HD
  | |- silent _ (loadAttachments _) => apply debugs_loadAttachments, HD
  | |- silent _ (attachment_blocks _) => apply debugs_attachment_blocks, HD
  | |- silent _ (console_log _) => apply silent_console_log; solve [auto]
  | |- silent _ (ret _) => apply silent_reader, reader_ret
  | |- silent _ (lift _) => apply silent_reader, reader_lift
  | |- silent _ _ => silent_step
  end.
Ltac prove_trace HD := repeat trace_step HD.

(** Walks a sender's [try] block up to, not including, a step whose result
    is needed later. *)
Ltac trace_until P HD HC stop :=
  repeat (cbn zeta;
          match goal with
          | |- emits _ (bind ?m _) =>
              tryif stop m then fail 1
              else (apply (emits_after_silent P);
                    [exact HC | solve [prove_trace HD] | intros ?])
          end).

Ltac at_build_options m :=
  match m with build_options _ _ _ _ => idtac end.
Ltac at_resume m :=
  match m with (if resuming _ then _ else _) => idtac end.
Ltac at_attachments m :=
  match m with loadAttachments _ => idtac end.

Section Options.
Context `{Host}.

Lemma returns_build_options (workingDirectory : string) (permissionMode model : value)
    (claudeCliPath : value) :
  returns (fun o => requested_options VNull permissionMode model o)
    (build_options workingDirectory permissionMode (mapModelIdToSdkName model)
       claudeCliPath).
Proof.
  intros w o Ho. unfold build_options, bind, getenv, ret in Ho. cbn [fst] in Ho.
  injection Ho as <-. unfold requested_options. cbn.
  repeat split.
  - intros Hwd. apply dedupe_In. split; [|reflexivity].
    destruct workingDirectory; [congruence|]. cbn. now left.
  - apply dedupe_fresh.
Qed.

Lemma returns_resume (resumeSessionId permissionMode model : value) (o : query_options) :
  requested_options VNull permissionMode model o ->
  returns (requested_options resumeSessionId permissionMode model)
    (if resuming resumeSessionId then
       console_log (RESUMING resumeSessionId) ;;
       ret (set_resume resumeSessionId o)
     else ret o).
Proof.
  intros (Hp & Ht & Hm & Hn & Hs & Hr & Hc & Hd) w o' Ho'.
  unfold requested_options.
  destruct (resuming resumeSessionId).
  - injection Ho' as <-. cbn. now repeat split.
  - injection Ho' as <-. now repeat split.
Qed.

(** The request arguments with their defaults applied say the same. *)
Lemma requested_options_or_null (resumeSessionId permissionMode model : value)
    (o : query_options) :
  requested_options (or_null resumeSessionId) (or_null permissionMode) (or_null model) o
  <-> requested_options resumeSessionId permissionMode model o.
Proof.
  unfold requested_options.
  assert (Hp : js_or (or_null permissionMode) (VStr "default")
               = js_or permissionMode (VStr "default"))
    by now destruct permissionMode.
  assert (Ht : is_str "default" (or_null permissionMode) = is_str "default" permissionMode)
    by now destruct permissionMode.
  assert (Hm : mapModelIdToSdkName (or_null model) = mapModelIdToSdkName model)
    by now destruct model.
  assert (Hr : (if resuming (or_null resumeSessionId) then or_null resumeSessionId
                else VUndefined)
               = (if resuming resumeSessionId then resumeSessionId else VUndefined))
    by now destruct resumeSessionId.
  rewrite Hp, Ht, Hm, Hr. reflexivity.
Qed.

(** The [try] block of [sendMessage] satisfies whatever the race and the
    relay satisfy for options that follow the request, when the lines of
    the trace do not matter. *)
Lemma sendMessage_through (P : line -> Prop)
    (C : list line -> list call -> fate unit -> Prop)
    (message resumeSessionId cwd permissionMode model : value) :
  (forall text, P (DEBUG text)) -> P MESSAGE_START -> (forall id, P (RESUMING id)) ->
  absorbs P C ->
  (forall options,
      requested_options resumeSessionId permissionMode model options ->
      emits C (race_and_relay (PromptText message) options (or_null resumeSessionId))) ->
  emits (closed_by C) (sendMessage message resumeSessionId cwd permissionMode model).
Proof.
  intros HD HS HR HC Hrace. unfold sendMessage.
  apply try_catch_reports; [|apply sendMessage_reports].
  trace_until P HD HC at_build_options.
  apply (emits_after_yield P C
           (requested_options VNull (or_null permissionMode) (or_null model)));
    [exact HC | solve [prove_trace HD] | apply returns_build_options | intros options Ho].
  trace_until P HD HC at_resume.
  apply (emits_after_yield P C
           (requested_options (or_null resumeSessionId) (or_null permissionMode)
              (or_null model)));
    [exact HC | solve [prove_trace HD] | now apply returns_resume | intros options' Ho'].
  trace_until P HD HC at_resume.
  apply Hrace. now apply requested_options_or_null.
Qed.

End Options.

Section MultimodalTrace.
Context `{Host}.

Lemma returns_loadAttachments (stdinData : value) :
  returns (fun attachments =>
             forall items, direct_attachments stdinData = Some items -> attachments = items)
    (loadAttachments stdinData).
Proof.
  intros w attachments Hrun items Hdirect.
  unfold loadAttachments, bind, console_log, ret in Hrun.
  unfold direct_attachments in Hdirect.
  destruct stdinData as [| | | | |direct|fields]; try discriminate.
  - injection Hdirect as <-. cbn in Hrun. congruence.
  - cbn [truthy] in Hrun.
    destruct (prop "attachments" (VObj fields)); try discriminate.
    injection Hdirect as <-. cbn in Hrun. congruence.
Qed.

Lemma returns_attachment_block (a : value) :
  returns (stands_for a) (attachment_block a).
Proof.
  intros w block Hrun. unfold attachment_block, bind, lift, member in Hrun.
  destruct (nullish a) eqn:Hnull; [discriminate|].
  unfold stands_for.
  destruct (prop "mediaType" a) as [| | | |mt| |] eqn:Hmt; cbn [is_string as_str] in Hrun;
    try (change (Str.startsWith "image/" EmptyString) with false in Hrun;
         cbv iota in Hrun;
         destruct (to_string (js_or (prop "fileName" a) (VStr "附件"))) as [name|];
         [|discriminate];
         cbn in Hrun; injection Hrun as <-;
         split; [reflexivity | exists name; split; reflexivity]).
  destruct (Str.startsWith "image/" mt) eqn:Himage.
  - cbn in Hrun. injection Hrun as <-. cbn.
    destruct mt; [discriminate|]. now repeat split.
  - destruct (to_string (js_or (prop "fileName" a) (VStr "附件"))) as [name|];
      [|discriminate].
    cbn in Hrun. injection Hrun as <-.
    split; [reflexivity | exists name; split; reflexivity].
Qed.

Lemma returns_attachment_blocks (attachments : list value) :
  returns (Forall2 stands_for attachments) (attachment_blocks attachments).
Proof.
  induction attachments as [|a rest IH]; intros w blocks Hrun.
  - injection Hrun as <-. constructor.
  - cbn [attachment_blocks] in Hrun. unfold bind in Hrun.
    pose proof (returns_attachment_block a w) as Ha.
    destruct (attachment_block a w) as [[[block|]|] w1]; try discriminate.
    pose proof (IH w1) as Hrest.
    destruct (attachment_blocks rest w1) as [[[blocks'|]|] w2]; try discriminate.
    injection Hrun as <-. constructor; [now apply Ha | now apply Hrest].
Qed.

Lemma returns_blank (message : value) :
  returns (fun blank => blank = blank_message message)
    (if negb (truthy message) then ret true
     else
       text <- lift (string_method "userText.trim" message) ;;
       ret (Str.is_empty (Str.trim text))).
Proof.
  intros w blank Hrun. unfold blank_message.
  destruct (truthy message) eqn:Ht; cbn [negb orb] in *.
  - destruct message; try discriminate. cbn in Hrun. congruence.
  - injection Hrun as <-. reflexivity.
Qed.

Lemma returns_userText (blank : bool) (blocks : list value) (message : value) :
  returns (fun userText =>
             userText = if blank then VStr (placeholder_text blocks) else message)
    (if blank then
       console_log (DEBUG "Empty message replaced with:") ;;
       ret (VStr (placeholder_text blocks))
     else ret message).
Proof. intros w userText Hrun. destruct blank; injection Hrun as <-; reflexivity. Qed.

Lemma direct_attachments_or_null (stdinData : value) :
  direct_attachments (or_null stdinData) = direct_attachments stdinData.
Proof. now destruct stdinData. Qed.

Lemma sendMessageWithAttachments_through (P : line -> Prop)
    (C : list line -> list call -> fate unit -> Prop)
    (message resumeSessionId cwd permissionMode model stdinData : value) :
  (forall text, P (DEBUG text)) -> P MESSAGE_START -> (forall id, P (RESUMING id)) ->
  absorbs P C ->
  (forall attachments blocks options,
      (forall items, direct_attachments stdinData = Some items -> attachments = items) ->
      Forall2 stands_for attachments blocks ->
      requested_options resumeSessionId permissionMode model options ->
      emits C (race_and_relay
                 (PromptStream
                    (AsyncStream.done
                       (AsyncStream.enqueue
                          (user_message (blocks ++ [closing_text blocks message]))
                          AsyncStream.new)))
                 options (or_null resumeSessionId))) ->
  emits (closed_by C)
    (sendMessageWithAttachments message resumeSessionId cwd permissionMode model
       stdinData).
Proof.
  intros HD HS HR HC Hrace. unfold sendMessageWithAttachments.
  apply try_catch_reports; [|apply sendMessageWithAttachments_reports].
  trace_until P HD HC at_attachments.
  refine (emits_after_yield P _ _ _ _ HC _
            (returns_loadAttachments (or_null stdinData)) _);
    [solve [prove_trace HD]|].
  intros attachments Hdirect. rewrite direct_attachments_or_null in Hdirect.
  apply (emits_after_silent P); [exact HC | solve [prove_trace HD] | intros _].
  refine (emits_after_yield P _ _ _ _ HC _ (returns_attachment_blocks attachments) _);
    [solve [prove_trace HD]|].
  intros blocks Hblocks.
  refine (emits_after_yield P _ _ _ _ HC _ (returns_blank message) _);
    [solve [prove_trace HD]|].
  intros blank ->.
  refine (emits_after_yield P _ _ _ _ HC _
            (returns_userText (blank_message message) blocks message) _);
    [solve [prove_trace HD]|].
  intros userText ->.
  trace_until P HD HC at_build_options.
  apply (emits_after_yield P C
           (requested_options VNull (or_null permissionMode) (or_null model)));
    [exact HC | solve [prove_trace HD] | apply returns_build_options | intros options Ho].
  apply (emits_after_yield P C
           (requested_options (or_null resumeSessionId) (or_null permissionMode)
              (or_null model)));
    [exact HC | solve [prove_trace HD] | now apply returns_resume | intros options' Ho'].
  trace_until P HD HC at_resume.
  apply (Hrace attachments blocks options'); try assumption.
  now apply requested_options_or_null.
Qed.

End MultimodalTrace.

(** ** The frame of an exchange *)

Section RelayLines.
Variable P : line -> Prop.
Hypothesis P_debug : forall text, P (DEBUG text).
Hypothesis P_message : forall msg, P (MESSAGE msg).
Hypothesis P_content : forall text, P (CONTENT text).
Hypothesis P_session : forall id, P (SESSION_ID id).

Ltac relay_leaf :=
  first [ apply silent_console_log; solve [auto]
        | apply silent_reader, reader_ret
        | apply silent_reader, reader_lift ].

Lemma relays_block (block : value) : silent P (relay_block block).
Proof.
  unfold relay_block.
  apply silent_bind; [relay_leaf | intros type].
  destruct (is_str "text" type); [relay_leaf|].
  destruct (is_str "tool_use" type); relay_leaf.
Qed.

Lemma relays_blocks (blocks : list value) : silent P (for_each relay_block blocks).
Proof.
  induction blocks as [|b blocks IH]; cbn [for_each]; [relay_leaf|].
  apply silent_bind; [apply relays_block | intros _; exact IH].
Qed.

Lemma relays_event (msg currentSessionId : value) :
  silent P (relay_event msg currentSessionId).
Proof.
  unfold relay_event.
  do 4 (apply silent_bind; [relay_leaf | intros ?]).
  apply silent_bind.
  - destruct (is_str "assistant" _); [|relay_leaf].
    destruct (opt_prop "content" _); try relay_leaf. apply relays_blocks.
  - intros _. destruct (_ && _); [|relay_leaf].
    apply silent_bind; [relay_leaf | intros _; relay_leaf].
Qed.

Lemma relays_events (events : list value) (currentSessionId : value) :
  silent P (relay_events events currentSessionId).
Proof.
  revert currentSessionId.
  induction events as [|msg events IH]; intros sid; cbn [relay_events]; [relay_leaf|].
  apply silent_bind; [apply relays_event | intros ?; apply IH].
Qed.

Lemma absorbs_closes : absorbs P (fun ls cs r => closes P ls r).
Proof.
  split.
  - intros l1 ls cs [[[]|e]|] Hl1; cbn [closes].
    + intros (body & sid & -> & Hbody). exists (l1 ++ body), sid.
      split; [now rewrite app_assoc | apply Forall_app; now split].
    + intros Hls. apply Forall_app. now split.
    + intros Hls. apply Forall_app. now split.
  - intros l1 e Hl1. exact Hl1.
Qed.

(** What the race and the relay add: one streaming call and, after lines
    that [P] admits, the closing lines of a success; they stay unsettled
    only when the stream stalls. *)
Lemma race_and_relay_closes `{Host} (p : prompt) (options : query_options)
    (resumeSessionId : value) :
  emits (fun ls cs r =>
           cs = [Query p options] /\ closes P ls r
           /\ (r = Unsettled -> exists events, sdk_query p options = Stalls events))
        (race_and_relay p options resumeSessionId).
Proof.
  unfold race_and_relay.
  apply (emits_bind
           (fun ls cs r => ls = [] /\ cs = [Query p options] /\ r = Ok (sdk_query p options))
           (fun result ls cs r =>
              cs = [] /\ closes P ls r
              /\ (r = Unsettled -> exists events, result = Stalls events))).
  - intros w. exists [], [Query p options]. cbn. rewrite app_nil_r. now repeat split.
  - intros result.
    assert (Habs : absorbs P (fun ls cs (r : fate unit) =>
                                cs = [] /\ closes P ls r
                                /\ (r = Unsettled -> exists events, result = Stalls events))).
    { destruct absorbs_closes as [Hpre Hfail]. split.
      - intros l1 ls cs r Hl1 (-> & Hc & Hs).
        split; [reflexivity|]. split; [now apply (Hpre l1 ls []) | exact Hs].
      - intros l1 e Hl1. split; [reflexivity|]. split; [exact Hl1 | discriminate]. }
    destruct result as [events failure|events|message].
    + apply (emits_after_silent P); [exact Habs | relay_leaf | intros _].
      apply (emits_after_silent P); [exact Habs | apply relays_events | intros sid].
      destruct failure as [e|].
      * intros w. exists [], []. cbn. rewrite !app_nil_r.
        repeat split; [constructor | discriminate].
      * intros w.
        exists [DEBUG "Message loop completed."; MESSAGE_END;
                JSON_LINE (success_record sid)], [].
        cbn. rewrite app_nil_r, <- !app_assoc. repeat split; [|discriminate].
        exists [DEBUG "Message loop completed."], sid. split; [reflexivity|].
        repeat constructor. apply P_debug.
    + apply (emits_after_silent P); [exact Habs | relay_leaf | intros _].
      apply (emits_after_silent P); [exact Habs | apply relays_events | intros sid].
      intros w. exists [], []. cbn. rewrite !app_nil_r.
      repeat split; [constructor | now exists events].
    + intros w. exists [], []. cbn. rewrite !app_nil_r.
      repeat split; [constructor | discriminate].
  - intros l1 c1 result l2 c2 r (-> & -> & Hres) (-> & Hc & Hs). cbn [app].
    injection Hres as <-. now repeat split.
  - intros l1 c1 e (_ & _ & Hres). discriminate.
  - intros l1 c1 (_ & _ & Hres). discriminate.
Qed.

End RelayLines.

Ltac at_start m :=
  match m with console_log MESSAGE_START => idtac end.
Ltac nowhere m := fail.

Section Framing.
Context `{Host}.

Lemma absorbs_starts : absorbs debug_line starts.
Proof.
  split.
  - intros l1 ls cs r Hl1 [(Hls & -> & e & ->)|(pre & post & -> & Hpre & Hpost)].
    + left. repeat split; [apply Forall_app; now split | now exists e].
    + right. exists (l1 ++ pre), post.
      split; [now rewrite app_assoc | split; [apply Forall_app; now split | exact Hpost]].
  - intros l1 e Hl1. left. repeat split; [exact Hl1 | now exists e].
Qed.

Lemma absorbs_after_start : absorbs inner_line after_start.
Proof.
  destruct (absorbs_closes inner_line) as [Hpre Hfail]. split.
  - intros l1 ls cs r Hl1 [Hc Hs]. split; [now apply (Hpre l1 ls cs) | exact Hs].
  - intros l1 e Hl1. split; [exact Hl1 | discriminate].
Qed.

Lemma starts_at_marker (tail : unit -> M unit) :
  (forall u, emits after_start (tail u)) ->
  emits starts (bind (console_log MESSAGE_START) tail).
Proof.
  intros Htail.
  apply (emits_bind
           (fun ls cs r => ls = [MESSAGE_START] /\ cs = [] /\ r <> Unsettled)
           (fun _ => after_start)).
  - intros w. exists [MESSAGE_START], []. cbn. rewrite app_nil_r.
    repeat split. discriminate.
  - exact Htail.
  - intros l1 c1 [] l2 c2 r (-> & -> & _) [Hc Hs]. right. exists [], l2. now repeat split.
  - intros l1 c1 e (-> & -> & _). right. exists [], [].
    repeat split; [constructor | constructor | discriminate].
  - intros l1 c1 (_ & _ & Hs). contradiction.
Qed.

(** The closed form of a framed [try] block. *)
Lemma closed_by_starts_framed (ls : list line) (cs : list call) (r : fate unit) :
  closed_by starts ls cs r ->
  r = Ok tt /\ framed ls \/ r = Unsettled /\ open_frame ls /\ waits_on_stall cs.
Proof.
  intros (ls0 & r0 & Hstarts & Hls).
  destruct Hstarts as [(Hdebug & _ & e & ->)|(pre & post & -> & Hpre & Hpost & Hstall)].
  - destruct Hls as [-> ->]. left. split; [reflexivity|].
    exists ls0. split; [exact Hdebug|]. left. now exists e.
  - destruct r0 as [[[]|e]|]; cbn [closes] in Hpost; destruct Hls as [-> ->].
    + left. split; [reflexivity|]. exists pre. split; [exact Hpre|]. right. right.
      destruct Hpost as (body & sid & -> & Hbody).
      exists body, sid. split; [reflexivity | exact Hbody].
    + left. split; [reflexivity|]. exists pre. split; [exact Hpre|]. right. left.
      exists post, e. split; [|exact Hpost]. now rewrite <- app_assoc.
    + right. split; [reflexivity|]. split; [|now apply Hstall].
      exists pre, post. now repeat split.
Qed.

Let inner_debug : forall text, inner_line (DEBUG text) := fun _ => I.
Let inner_message : forall msg, inner_line (MESSAGE msg) := fun _ => I.
Let inner_content : forall text, inner_line (CONTENT text) := fun _ => I.
Let inner_session : forall id, inner_line (SESSION_ID id) := fun _ => I.
Let inner_resuming : forall id, inner_line (RESUMING id) := fun _ => I.
Let debug_debug : forall text, debug_line (DEBUG text) := fun _ => I.

Lemma race_and_relay_inner (p : prompt) (options : query_options) (resume : value) :
  emits after_start (race_and_relay p options resume).
Proof.
  refine (emits_weaken _ _ _ _
            (race_and_relay_closes inner_line inner_debug inner_message inner_content
               inner_session p options resume)).
  intros ls cs r (-> & Hc & Hs). split; [exact Hc|].
  intros Hr. destruct (Hs Hr) as [events Hq]. now exists p, options, events.
Qed.

Lemma sendMessage_framed (message resumeSessionId cwd permissionMode model : value) :
  emits (fun ls cs r =>
           r = Ok tt /\ framed ls \/ r = Unsettled /\ open_frame ls /\ waits_on_stall cs)
        (sendMessage message resumeSessionId cwd permissionMode model).
Proof.
  refine (emits_weaken _ _ _ closed_by_starts_framed _).
  unfold sendMessage. apply try_catch_reports; [|apply sendMessage_reports].
  trace_until debug_line debug_debug absorbs_starts at_start.
  apply starts_at_marker. intros _.
  trace_until inner_line inner_debug absorbs_after_start nowhere.
  apply race_and_relay_inner.
Qed.

Lemma sendMessageWithAttachments_framed
    (message resumeSessionId cwd permissionMode model stdinData : value) :
  emits (fun ls cs r =>
           r = Ok tt /\ framed ls \/ r = Unsettled /\ open_frame ls /\ waits_on_stall cs)
        (sendMessageWithAttachments message resumeSessionId cwd permissionMode model
           stdinData).
Proof.
  refine (emits_weaken _ _ _ closed_by_starts_framed _).
  unfold sendMessageWithAttachments.
  apply try_catch_reports; [|apply sendMessageWithAttachments_reports].
  trace_until debug_line debug_debug absorbs_starts at_start.
  apply starts_at_marker. intros _.
  trace_until inner_line inner_debug absorbs_after_start nowhere.
  apply race_and_relay_inner.
Qed.

(** X10.  The console lines of every native exchange, of [sendMessage] and
    of [sendMessageWithAttachments] alike, are framed, and the invocation
    never throws.  Either it ends normally, and what it printed is a run of
    debug lines followed either by the failure record alone, or by the one
    [[MESSAGE_START]], lines that are neither a marker nor a record, and the
    closing lines: a failure record, or [[MESSAGE_END]] followed by the
    success record.  Or it never ends: then the one request it issued is a
    streaming call whose stream stalls, and what it printed is a run of
    debug lines, the one [[MESSAGE_START]], and lines that are neither a
    marker nor a record; no record and no [[MESSAGE_END]] was printed. *)
Theorem native_exchange_is_framed
    (message resumeSessionId cwd permissionMode model stdinData : value) (w : World) :
  let plain := sendMessage message resumeSessionId cwd permissionMode model w in
  let multimodal :=
    sendMessageWithAttachments message resumeSessionId cwd permissionMode model
      stdinData w in
  (exists added cs,
      stdout (snd plain) = stdout w ++ added
      /\ calls (snd plain) = calls w ++ cs
      /\ (fst plain = Ok tt /\ framed added
          \/ fst plain = Unsettled /\ open_frame added /\ waits_on_stall cs))
  /\ (exists added cs,
        stdout (snd multimodal) = stdout w ++ added
        /\ calls (snd multimodal) = calls w ++ cs
        /\ (fst multimodal = Ok tt /\ framed added
            \/ fst multimodal = Unsettled /\ open_frame added /\ waits_on_stall cs)).
Proof.
  intros plain multimodal. split.
  - exact (sendMessage_framed message resumeSessionId cwd permissionMode model w).
  - exact (sendMessageWithAttachments_framed message resumeSessionId cwd
             permissionMode model stdinData w).
Qed.

End Framing.

(** ** What a sender asks of the SDK *)

Section Requests.
Context `{Host}.

Let any_debug : forall text, any_line (DEBUG text) := fun _ => I.
Let any_resuming : forall id, any_line (RESUMING id) := fun _ => I.

Lemma absorbs_any_calls (Q : list call -> Prop) :
  Q [] -> absorbs any_line (fun ls cs (r : fate unit) => Q cs).
Proof. intros HQ. split; [now intros l1 ls cs r _ HC | now intros l1 e _]. Qed.

Lemma closed_by_calls (Q : list call -> Prop) (ls : list line) (cs : list call)
    (r : fate unit) :
  closed_by (fun _ cs _ => Q cs) ls cs r -> Q cs.
Proof. now intros (ls0 & r0 & HQ & _). Qed.

(** X11.  The one request [sendMessage] can issue is the streaming call with
    the message as its prompt, and its options follow the arguments: the
    permission mode given, or 'default'; the permission callback only when
    'default' was given explicitly; the model tier of the model id; 100
    turns; the setting sources user, project and local; [resume] exactly for
    a non-empty resume id; and the working directory among the additional
    directories, which hold no duplicate. *)
Theorem sendMessage_asks_as_requested
    (message resumeSessionId cwd permissionMode model : value) (w : World) :
  exists cs,
    calls (snd (sendMessage message resumeSessionId cwd permissionMode model w))
    = calls w ++ cs
    /\ asks_as_requested message resumeSessionId permissionMode model cs.
Proof.
  set (Q := asks_as_requested message resumeSessionId permissionMode model).
  assert (Hrun : emits (closed_by (fun _ cs _ => Q cs))
                   (sendMessage message resumeSessionId cwd permissionMode model)).
  { apply (sendMessage_through any_line); try exact (fun _ => I); [exact I| |].
    - apply absorbs_any_calls. now left.
    - intros options Hoptions.
      refine (emits_weaken _ _ _ _
                (race_and_relay_run (PromptText message) options
                   (or_null resumeSessionId))).
      intros ls cs r ->. right. now exists options. }
  destruct (Hrun w) as (ls & cs & _ & Hcalls & Hclosed).
  exists cs. split; [exact Hcalls | exact (closed_by_calls Q ls cs _ Hclosed)].
Qed.

(** X12.  The one request [sendMessageWithAttachments] can issue is the
    streaming call whose prompt is a finished single-message stream: reading
    it hands out one user message and then reports the end, for ever.  The
    content of that message is one block per attachment, in order (an image
    block with the base64 data for an [image/...] media type, a text block
    naming the file otherwise), followed by one text block with the message,
    or with a placeholder when the message is blank.  The attachments are
    those the standard input delivered directly, when it did.  The options
    follow the arguments as for [sendMessage]. *)
Theorem sendMessageWithAttachments_asks_with_attachments
    (message resumeSessionId cwd permissionMode model stdinData : value) (w : World) :
  exists cs,
    calls (snd (sendMessageWithAttachments message resumeSessionId cwd permissionMode
                  model stdinData w))
    = calls w ++ cs
    /\ asks_with_attachments message resumeSessionId permissionMode model stdinData cs.
Proof.
  set (Q := asks_with_attachments message resumeSessionId permissionMode model stdinData).
  assert (Hrun : emits (closed_by (fun _ cs _ => Q cs))
                   (sendMessageWithAttachments message resumeSessionId cwd permissionMode
                      model stdinData)).
  { apply (sendMessageWithAttachments_through any_line); try exact (fun _ => I);
      [exact I| |].
    - apply absorbs_any_calls. now left.
    - intros attachments blocks options Hdirect Hblocks Hoptions.
      refine (emits_weaken _ _ _ _ (race_and_relay_run _ options (or_null resumeSessionId))).
      intros ls cs r ->. right.
      exists attachments, blocks, options. eexists.
      split; [reflexivity|]. split; [exact Hoptions|].
      split; [|split; assumption].
      intros k.
      apply (reads_finished [user_message (blocks ++ [closing_text blocks message])] k);
        reflexivity. }
  destruct (Hrun w) as (ls & cs & _ & Hcalls & Hclosed).
  exists cs. split; [exact Hcalls | exact (closed_by_calls Q ls cs _ Hclosed)].
Qed.

End Requests.

(** ** A stream that was delivered *)

Lemma trace_line_payload (ls : list line) :
  Forall trace_line ls ->
  messages_in ls = [] /\ session_ids_in ls = [] /\ contents_in ls = []
  /\ Forall open_line ls.
Proof.
  induction 1 as [|l ls Hl _ (Hm & Hs & Hc & Ho)]; [repeat split; constructor|].
  destruct l; try contradiction; cbn; repeat split; try assumption;
    constructor; try assumption; reflexivity.
Qed.

Section Delivered.
Context `{Host}.

Lemma race_and_relay_streams (p : prompt) (options : query_options) (resume : value)
    (events : list value) (failure : option string) (w : World) :
  sdk_query p options = Streams events failure ->
  forallb relayable events = true ->
  exists shown,
    race_and_relay p options resume w
    = (match failure with None => Ok tt | Some e => Throw e end,
       with_stdout
         (stdout w ++ [DEBUG "Starting message loop..."] ++ shown
            ++ match failure with
               | None =>
                   [DEBUG "Message loop completed."; MESSAGE_END;
                    JSON_LINE (success_record (announced events resume))]
               | Some _ => []
               end)
         (with_calls (calls w ++ [Query p options]) w))
    /\ messages_in shown = events
    /\ session_ids_in shown = announcements events
    /\ contents_in shown = flat_map shown_texts events
    /\ Forall open_line shown.
Proof.
  intros Hquery Hevents.
  destruct (relay_events_prints events resume Hevents) as (shown & Hprints & Hrest).
  exists shown. split; [|exact Hrest].
  unfold race_and_relay, bind, race_query. rewrite Hquery. cbn [console_log].
  rewrite Hprints. rewrite with_stdout_twice.
  destruct failure as [e|]; unfold throw, bind, console_log; cbn;
    rewrite ?app_nil_r, <- ?app_assoc; reflexivity.
Qed.

Lemma race_and_relay_reports (p : prompt) (options : query_options) (resume : value) :
  emits (stream_outcome resume) (race_and_relay p options resume).
Proof.
  intros w.
  destruct (race_and_relay_run p options resume w) as (ls & cs & Hl & Hc & ->).
  exists ls, [Query p options]. split; [exact Hl|]. split; [exact Hc|].
  intros p' options' events failure Hcs Hquery Hevents. injection Hcs as <- <-.
  destruct (race_and_relay_streams p options resume events failure w Hquery Hevents)
    as (shown & Hrun & Hm & Hs & Hc' & Ho).
  rewrite Hrun in Hl |- *. cbn [fst snd] in *. cbn in Hl.
  apply app_inv_head in Hl. subst ls.
  destruct failure as [e|].
  - exists (DEBUG "Starting message loop..." :: shown).
    rewrite app_nil_r. cbn. repeat split; try assumption.
    constructor; [reflexivity | exact Ho].
  - exists (DEBUG "Starting message loop..." :: shown ++ [DEBUG "Message loop completed."]).
    unfold messages_in, session_ids_in, contents_in in *.
    cbn [omap list_omap]. rewrite !omap_app, Hm, Hs, Hc'. cbn.
    rewrite !app_nil_r. repeat split.
    + constructor; [reflexivity|]. apply Forall_app. split; [exact Ho|].
      now repeat constructor.
    + now rewrite <- app_assoc.
Qed.

Lemma absorbs_stream_outcome (resume : value) : absorbs trace_line (stream_outcome resume).
Proof.
  split.
  - intros l1 ls cs r Hl1 HC p options events failure Hcs Hquery Hevents.
    destruct (HC p options events failure Hcs Hquery Hevents)
      as (body & Hm & Hs & Hc & Ho & Hend).
    destruct (trace_line_payload l1 Hl1) as (Hm1 & Hs1 & Hc1 & Ho1).
    exists (l1 ++ body).
    unfold messages_in, session_ids_in, contents_in in *.
    rewrite !omap_app, Hm1, Hs1, Hc1, Hm, Hs, Hc. repeat split.
    + apply Forall_app. now split.
    + destruct failure as [e|]; destruct Hend as [-> ->]; split; try reflexivity.
      now rewrite app_assoc.
  - intros l1 e _ p options events failure Hcs. discriminate.
Qed.

(** What a sender printed when its streaming call delivered a stream. *)
Lemma stream_report (resume : value) (m : M unit) (w : World) (p : prompt)
    (options : query_options) (events : list value) (failure : option string) :
  emits (closed_by (stream_outcome resume)) m ->
  sdk_query p options = Streams events failure ->
  forallb relayable events = true ->
  calls (snd (m w)) = calls w ++ [Query p options] ->
  fst (m w) = Ok tt
  /\ exists added,
      stdout (snd (m w)) = stdout w ++ added
      /\ stream_reported resume events failure added.
Proof.
  intros Hm Hquery Hevents Hcalls.
  destruct (Hm w) as (ls & cs & Hl & Hc & ls0 & r0 & HC & Hshape).
  rewrite Hc in Hcalls. apply app_inv_head in Hcalls. subst cs.
  destruct (HC p options events failure eq_refl Hquery Hevents)
    as (body & Hmsg & Hsid & Hcon & Hopen & Hend).
  assert (Hr : fst (m w) = Ok tt)
    by (destruct failure as [e|]; destruct Hend as [-> ->]; apply Hshape).
  split; [exact Hr|]. exists ls. split; [exact Hl|].
  exists body. repeat split; try assumption.
  destruct failure as [e|]; destruct Hend as [-> ->]; apply Hshape.
Qed.

(** X13.  On the native streaming path, of [sendMessage] and of
    [sendMessageWithAttachments] alike: when the streaming call the
    invocation issued delivers a stream of readable events, the invocation
    ends normally and its console output carries one [[MESSAGE]] line per
    event in stream order, the assistant texts as [[CONTENT]] lines and the
    announced session ids as [[SESSION_ID]] lines.  When the stream ends, the
    output closes with [[MESSAGE_END]] and [{success:true, sessionId}], where
    the session id is the last one the stream announced, or else the resume
    id that was passed ([null] when none was).  When the stream breaks with
    an error after these events, it closes with [{success:false, error}]
    carrying that error, and without [[MESSAGE_END]]. *)
Theorem delivered_stream_is_reported
    (message resumeSessionId cwd permissionMode model stdinData : value)
    (w : World) (p : prompt) (options : query_options)
    (events : list value) (failure : option string) :
  sdk_query p options = Streams events failure ->
  forallb relayable events = true ->
  let plain := sendMessage message resumeSessionId cwd permissionMode model w in
  let multimodal :=
    sendMessageWithAttachments message resumeSessionId cwd permissionMode model
      stdinData w in
  (calls (snd plain) = calls w ++ [Query p options] ->
   fst plain = Ok tt
   /\ exists added,
       stdout (snd plain) = stdout w ++ added
       /\ stream_reported (or_null resumeSessionId) events failure added)
  /\ (calls (snd multimodal) = calls w ++ [Query p options] ->
      fst multimodal = Ok tt
      /\ exists added,
          stdout (snd multimodal) = stdout w ++ added
          /\ stream_reported (or_null resumeSessionId) events failure added).
Proof.
  intros Hquery Hevents plain multimodal. subst plain multimodal. split.
  - apply (stream_report (or_null resumeSessionId)
             (sendMessage message resumeSessionId cwd permissionMode model)
             w p options events failure); try assumption.
    apply (sendMessage_through trace_line); try exact (fun _ => I); [exact I| |].
    + apply absorbs_stream_outcome.
    + intros o _. apply race_and_relay_reports.
  - apply (stream_report (or_null resumeSessionId)
             (sendMessageWithAttachments message resumeSessionId cwd permissionMode model
                stdinData)
             w p options events failure); try assumption.
    apply (sendMessageWithAttachments_through trace_line); try exact (fun _ => I);
      [exact I| |].
    + apply absorbs_stream_outcome.
    + intros attachments blocks o _ _ _. apply race_and_relay_reports.
Qed.

End Delivered.

(** The sample stream on the plain path: the session it announces is the one
    reported. *)
Lemma delivered_stream_is_reported_witness :
  let h := Reference.host Scenario.greeting (Throw "unused") in
  let p := PromptText (VStr "hello") in
  let options := Scenario.options VUndefined in
  let events := match Scenario.greeting with Streams events _ => events | _ => [] end in
  let plain :=
    @sendMessage h (VStr "hello") VUndefined VUndefined VUndefined VUndefined
      Scenario.keyed_world in
  @sdk_query h p options = Streams events None
  /\ forallb relayable events = true
  /\ calls (snd plain) = [Query p options]
  /\ fst plain = Ok tt
  /\ exists added,
      stdout (snd plain) = added
      /\ stream_reported VNull events None added.
Proof.
  intros h p options events plain.
  assert (Hquery : @sdk_query h p options = Streams events None) by reflexivity.
  assert (Hevents : forallb relayable events = true) by reflexivity.
  assert (Hcalls : calls (snd plain) = calls Scenario.keyed_world ++ [Query p options])
    by (vm_compute; reflexivity).
  split; [exact Hquery|]. split; [exact Hevents|]. split; [exact Hcalls|].
  destruct (@delivered_stream_is_reported h (VStr "hello") VUndefined VUndefined
              VUndefined VUndefined VUndefined Scenario.keyed_world p options events None
              Hquery Hevents)
    as [Hplain _].
  exact (Hplain Hcalls).
Defined.

(** ** A stream that stalls *)

Section Stalled.
Context `{Host}.

Lemma race_and_relay_stalls (p : prompt) (options : query_options) (resume : value)
    (events : list value) (w : World) :
  sdk_query p options = Stalls events ->
  forallb relayable events = true ->
  exists shown,
    race_and_relay p options resume w
    = (Unsettled,
       with_stdout (stdout w ++ [DEBUG "Starting message loop..."] ++ shown)
         (with_calls (calls w ++ [Query p options]) w))
    /\ messages_in shown = events
    /\ session_ids_in shown = announcements events
    /\ contents_in shown = flat_map shown_texts events
    /\ Forall open_line shown.
Proof.
  intros Hquery Hevents.
  destruct (relay_events_prints events resume Hevents) as (shown & Hprints & Hrest).
  exists shown. split; [|exact Hrest].
  unfold race_and_relay, bind, race_query. rewrite Hquery. cbn [console_log].
  rewrite Hprints. rewrite with_stdout_twice. unfold never. cbn.
  rewrite <- ?app_assoc. reflexivity.
Qed.

Lemma race_and_relay_stall_outcome (p : prompt) (options : query_options)
    (resume : value) :
  emits stall_outcome (race_and_relay p options resume).
Proof.
  intros w.
  destruct (race_and_relay_run p options resume w) as (ls & cs & Hl & Hc & ->).
  exists ls, [Query p options]. split; [exact Hl|]. split; [exact Hc|].
  intros p' options' events Hcs Hquery Hevents. injection Hcs as <- <-.
  destruct (race_and_relay_stalls p options resume events w Hquery Hevents)
    as (shown & Hrun & Hm & Hs & Hc' & Ho).
  rewrite Hrun in Hl |- *. cbn [fst snd] in *. cbn in Hl.
  apply app_inv_head in Hl. subst ls.
  split; [reflexivity|]. repeat split; try assumption.
  constructor; [reflexivity | exact Ho].
Qed.

Lemma absorbs_stall_outcome : absorbs trace_line stall_outcome.
Proof.
  split.
  - intros l1 ls cs r Hl1 HC p options events Hcs Hquery Hevents.
    destruct (HC p options events Hcs Hquery Hevents) as (-> & Hm & Hs & Hc & Ho).
    destruct (trace_line_payload l1 Hl1) as (Hm1 & Hs1 & Hc1 & Ho1).
    split; [reflexivity|].
    unfold stall_reported, messages_in, session_ids_in, contents_in in *.
    rewrite !omap_app, Hm1, Hs1, Hc1, Hm, Hs, Hc. repeat split.
    apply Forall_app. now split.
  - intros l1 e _ p options events Hcs. discriminate.
Qed.

(** What a sender printed when the stream of its streaming call stalled. *)
Lemma stall_report (m : M unit) (w : World) (p : prompt)
    (options : query_options) (events : list value) :
  emits (closed_by stall_outcome) m ->
  sdk_query p options = Stalls events ->
  forallb relayable events = true ->
  calls (snd (m w)) = calls w ++ [Query p options] ->
  fst (m w) = Unsettled
  /\ exists added,
      stdout (snd (m w)) = stdout w ++ added
      /\ stall_reported events added.
Proof.
  intros Hm Hquery Hevents Hcalls.
  destruct (Hm w) as (ls & cs & Hl & Hc & ls0 & r0 & HC & Hshape).
  rewrite Hc in Hcalls. apply app_inv_head in Hcalls. subst cs.
  destruct (HC p options events eq_refl Hquery Hevents) as (-> & Hreported).
  destruct Hshape as [Hr ->]. split; [exact Hr|]. exists ls0. now split.
Qed.

(** C3, on the code as written.  The 60-second timer bounds nothing: the
    streaming call hands back its stream at once, so the race against the
    timer is decided at once and the timer is cleared before the stream is
    read.  On the native streaming path, of [sendMessage] and of
    [sendMessageWithAttachments] alike: when the stream of the streaming
    call the invocation issued stalls after readable events, the invocation
    never ends.  It printed the events relayed so far, with a
    [[SESSION_ID]] line for each session id the stream announced, and
    neither [[MESSAGE_END]] nor any record: the record [{success:false,
    error:"Claude Code process aborted by user"}] is not produced. *)
Theorem stalled_stream_is_never_reported
    (message resumeSessionId cwd permissionMode model stdinData : value)
    (w : World) (p : prompt) (options : query_options) (events : list value) :
  sdk_query p options = Stalls events ->
  forallb relayable events = true ->
  let plain := sendMessage message resumeSessionId cwd permissionMode model w in
  let multimodal :=
    sendMessageWithAttachments message resumeSessionId cwd permissionMode model
      stdinData w in
  (calls (snd plain) = calls w ++ [Query p options] ->
   fst plain = Unsettled
   /\ exists added,
       stdout (snd plain) = stdout w ++ added /\ stall_reported events added)
  /\ (calls (snd multimodal) = calls w ++ [Query p options] ->
      fst multimodal = Unsettled
      /\ exists added,
          stdout (snd multimodal) = stdout w ++ added /\ stall_reported events added).
Proof.
  intros Hquery Hevents plain multimodal. subst plain multimodal. split.
  - apply (stall_report (sendMessage message resumeSessionId cwd permissionMode model)
             w p options events); try assumption.
    apply (sendMessage_through trace_line); try exact (fun _ => I); [exact I| |].
    + apply absorbs_stall_outcome.
    + intros o _. apply race_and_relay_stall_outcome.
  - apply (stall_report
             (sendMessageWithAttachments message resumeSessionId cwd permissionMode model
                stdinData)
             w p options events); try assumption.
    apply (sendMessageWithAttachments_through trace_line); try exact (fun _ => I);
      [exact I| |].
    + apply absorbs_stall_outcome.
    + intros attachments blocks o _ _ _. apply race_and_relay_stall_outcome.
Qed.

End Stalled.

(** A "hello" whose stream announces session [sess-1] and then stalls, on
    both senders: neither ends, and both printed the [[SESSION_ID]] line. *)
Lemma stalled_stream_is_never_reported_witness :
  let h := Reference.host Scenario.stalled (Throw "unused") in
  let events := match Scenario.stalled with Stalls events => events | _ => [] end in
  let options := Scenario.options VUndefined in
  let text := PromptText (VStr "hello") in
  let stream :=
    PromptStream
      (AsyncStream.done
         (AsyncStream.enqueue (user_message [closing_text [] (VStr "hello")])
            AsyncStream.new)) in
  let plain :=
    @sendMessage h (VStr "hello") VUndefined VUndefined VUndefined VUndefined
      Scenario.keyed_world in
  let multimodal :=
    @sendMessageWithAttachments h (VStr "hello") VUndefined VUndefined VUndefined
      VUndefined VNull Scenario.keyed_world in
  forallb relayable events = true
  /\ session_ids_in (stdout (snd plain)) = [VStr "sess-1"]
  /\ session_ids_in (stdout (snd multimodal)) = [VStr "sess-1"]
  /\ (calls (snd plain) = [Query text options]
      /\ fst plain = Unsettled
      /\ exists added, stdout (snd plain) = added /\ stall_reported events added)
  /\ (calls (snd multimodal) = [Query stream options]
      /\ fst multimodal = Unsettled
      /\ exists added, stdout (snd multimodal) = added /\ stall_reported events added).
Proof.
  intros h events options text stream plain multimodal.
  assert (Hevents : forallb relayable events = true) by reflexivity.
  assert (Hplain : calls (snd plain) = calls Scenario.keyed_world ++ [Query text options])
    by (vm_compute; reflexivity).
  assert (Hmultimodal :
            calls (snd multimodal) = calls Scenario.keyed_world ++ [Query stream options])
    by (vm_compute; reflexivity).
  split; [exact Hevents|].
  split; [vm_compute; reflexivity|]. split; [vm_compute; reflexivity|].
  split.
  - split; [exact Hplain|].
    exact (proj1 (@stalled_stream_is_never_reported h (VStr "hello") VUndefined VUndefined
                    VUndefined VUndefined VNull Scenario.keyed_world text options events
                    eq_refl Hevents) Hplain).
  - split; [exact Hmultimodal|].
    exact (proj2 (@stalled_stream_is_never_reported h (VStr "hello") VUndefined VUndefined
                    VUndefined VUndefined VNull Scenario.keyed_world stream options events
                    eq_refl Hevents) Hmultimodal).
Defined.

(** ** The session reader *)

Section SessionReader.
Context `{Host}.

Lemma stored_messages_filter (lines : list string) :
  List.filter not_null
    (map (fun line => match JSON_parse line with
                      | Some msg => msg
                      | None => VNull
                      end) lines)
  = omap (fun line => match JSON_parse line with
                      | Some VNull | None => None
                      | Some msg => Some msg
                      end) lines.
Proof.
  induction lines as [|line lines IH]; [reflexivity|].
  cbn [map List.filter omap list_omap]. rewrite IH.
  destruct (JSON_parse line) as [[]|]; reflexivity.
Qed.

Lemma transcript_file_or_null (sessionId projectPath : value) (w : World) :
  transcript_file sessionId (or_null projectPath) w = transcript_file sessionId projectPath w.
Proof. now destruct projectPath. Qed.

Lemma getSessionMessages_run (sessionId projectPath : value) (w : World) :
  exists errors,
    getSessionMessages sessionId projectPath w
    = (Ok tt,
       with_stderr (stderr w ++ errors)
         (with_stdout (stdout w ++ [JSON_LINE (session_answer sessionId projectPath w)]) w)).
Proof.
  unfold session_answer. rewrite <- transcript_file_or_null.
  unfold getSessionMessages, transcript_file, sanitizedCwd, sessionFileName.
  unfold try_catch, bind, process_cwd, lift, ret, console_error, console_log,
    existsSync, readFileSync.
  cbn beta iota zeta.
  destruct (string_method "replace" (js_or (or_null projectPath) (VStr (cwd w))))
    as [base|e]; [|eexists [_]; reflexivity].
  cbn beta iota zeta.
  destruct (to_string sessionId) as [id|e]; [|eexists [_]; reflexivity].
  cbn beta iota zeta.
  set (file := path_join [_; id +:+ ".jsonl"]).
  destruct (files w !! file) as [content|] eqn:Hfile.
  - cbn [is_Some bool_decide orb negb].
    rewrite bool_decide_eq_true_2 by (now exists content). cbn [orb negb].
    rewrite Hfile. exists []. cbn. rewrite app_nil_r.
    unfold stored_messages, transcript_lines. rewrite stored_messages_filter.
    destruct w; reflexivity.
  - rewrite (bool_decide_eq_false_2 (is_Some None)) by (intros [? ?]; discriminate).
    cbn [orb]. destruct (decide (file ∈ dirs w)) as [Hdir|Hdir].
    + rewrite (bool_decide_eq_true_2 _ Hdir). cbn [negb]. rewrite Hfile.
      destruct (decide (file ∈ dirs w)); [|contradiction].
      eexists [_]. reflexivity.
    + rewrite (bool_decide_eq_false_2 _ Hdir). cbn [negb].
      exists []. cbn. rewrite app_nil_r. destruct w; reflexivity.
Qed.

(** X14.  [getSessionMessages] only reads: it ends normally, issues no
    request, leaves files, directories, environment and working directory
    as they were, and prints exactly one line, a record.  The record is
    [{success:true, messages}] when the transcript file of the session
    exists; its messages are the non-blank lines of the file that are JSON
    and not the JSON [null], in file order, so unreadable lines are skipped.
    It is [{success:false, error:"Session file not found"}] when there is no
    such file, and a failure record with the error otherwise. *)
Theorem getSessionMessages_answers (sessionId projectPath : value) (w : World) :
  let run := getSessionMessages sessionId projectPath w in
  fst run = Ok tt
  /\ stdout (snd run) = stdout w ++ [JSON_LINE (session_answer sessionId projectPath w)]
  /\ calls (snd run) = calls w
  /\ files (snd run) = files w /\ dirs (snd run) = dirs w
  /\ env (snd run) = env w /\ cwd (snd run) = cwd w.
Proof.
  intros run. subst run.
  destruct (getSessionMessages_run sessionId projectPath w) as [errors ->].
  now repeat split.
Qed.

End SessionReader.

(** ** The command surface *)






Section Entry.
Context `{Host}.




Lemma known_command_cases (command : value) :
  known_command command = false ->
  is_str "send" command = false /\ is_str "sendWithAttachments" command = false
  /\ is_str "getSession" command = false.
Proof.
  unfold known_command. intros Hk.
  apply orb_false_iff in Hk as [Hk H3]. apply orb_false_iff in Hk as [H1 H2].
  now repeat split.
Qed.


End Entry.

(** ** The executable locator *)

Section Locator.
Context `{Host}.

Lemma existsSync_present (p : string) (w : World) :
  fst (existsSync p w) = Ok true -> present p w.
Proof.
  unfold existsSync, present. cbn [fst]. intros Hp. injection Hp as Hp.
  apply orb_true_iff in Hp as [Hp|Hp]; apply bool_decide_eq_true in Hp; tauto.
Qed.

Lemma first_existing_run (verbose : bool) (paths : list string) (w : World) :
  exists r l,
    first_existing verbose paths w = (Ok r, with_stdout l w)
    /\ forall p, r = Some p -> present p w.
Proof.
  induction paths as [|p paths IH]; cbn [first_existing].
  - exists None, (stdout w). rewrite with_stdout_id. split; [reflexivity | discriminate].
  - unfold bind. destruct (existsSync p w) as [r w0] eqn:Hp.
    assert (Hw0 : w0 = w) by (unfold existsSync in Hp; congruence). subst w0.
    assert (Hr : exists b, r = Ok b) by (unfold existsSync in Hp; injection Hp; eauto).
    destruct Hr as [b ->]. destruct b; [|exact IH].
    assert (Hpresent : present p w) by (apply existsSync_present; now rewrite Hp).
    destruct verbose; cbn.
    + eexists (Some p), _. split; [reflexivity|]. now intros p' [= <-].
    + exists (Some p), (stdout w). rewrite with_stdout_id.
      split; [reflexivity|]. now intros p' [= <-].
Qed.

Lemma locate_with_run (verbose : bool) (command : string) (first_line : bool) (w : World) :
  exists r l,
    locate_with verbose command first_line w = (Ok r, with_stdout l w)
    /\ forall p, r = Some p -> present p w.
Proof.
  unfold locate_with, try_catch, bind, run_command.
  destruct (execSync command) as [output|]; unfold ret, throw.
  - set (found := if first_line then _ else _).
    destruct (Str.is_empty found).
    + exists None, (stdout w). rewrite with_stdout_id. split; [reflexivity | discriminate].
    + destruct (existsSync found w) as [r w0] eqn:Hp.
      assert (Hw0 : w0 = w) by (unfold existsSync in Hp; congruence). subst w0.
      assert (Hr : exists b, r = Ok b) by (unfold existsSync in Hp; injection Hp; eauto).
      destruct Hr as [b ->]. destruct b.
      * assert (Hpresent : present found w) by (apply existsSync_present; now rewrite Hp).
        destruct verbose; cbn.
        -- eexists (Some found), _. split; [reflexivity|]. now intros p' [= <-].
        -- exists (Some found), (stdout w). rewrite with_stdout_id.
           split; [reflexivity|]. now intros p' [= <-].
      * exists None, (stdout w). rewrite with_stdout_id.
        split; [reflexivity | discriminate].
  - destruct verbose; cbn.
    + eexists None, _. split; [reflexivity | discriminate].
    + exists None, (stdout w). rewrite with_stdout_id. split; [reflexivity | discriminate].
Qed.

Lemma to_string_env (e : gmap string string) (name : string) :
  exists text, to_string (env_value e name) = Ok text.
Proof. unfold env_value. destruct (e !! name); eexists; reflexivity. Qed.

(** What the locator returns and leaves behind. *)
Lemma getClaudeCliPath_run (verbose : bool) (w : World) :
  exists found l,
    getClaudeCliPath verbose w = (Ok found, with_stdout l w)
    /\ (found = VUndefined \/ exists p, found = VStr p /\ present p w).
Proof.
  unfold getClaudeCliPath, bind.
  destruct (locate_with_run verbose "which claude" false w) as (r1 & l1 & -> & H1).
  destruct r1 as [p|].
  { exists (VStr p), l1. split; [reflexivity|]. right. exists p. split; [reflexivity|].
    now apply H1. }
  destruct (locate_with_run verbose "where claude" true (with_stdout l1 w))
    as (r2 & l2 & -> & H2).
  rewrite with_stdout_twice.
  destruct r2 as [p|].
  { exists (VStr p), l2. split; [reflexivity|]. right. exists p. split; [reflexivity|].
    now apply (H2 p). }
  unfold getenv, lift. cbn [env with_stdout].
  fold (env_value (env w) "HOME") (env_value (env w) "USERNAME").
  destruct (to_string_env (env w) "HOME") as [home ->].
  assert (Huser : exists user,
             to_string (js_or (env_value (env w) "USERNAME") (VStr EmptyString)) = Ok user).
  { unfold env_value, js_or. destruct (env w !! "USERNAME") as [[|c u]|];
      eexists; reflexivity. }
  destruct Huser as [user ->].
  match goal with
  | |- context [first_existing verbose ?paths ?w2] =>
      destruct (first_existing_run verbose paths w2) as (r3 & l3 & -> & H3)
  end.
  rewrite with_stdout_twice.
  destruct r3 as [p|].
  { exists (VStr p), l3. split; [reflexivity|]. right. exists p. split; [reflexivity|].
    now apply (H3 p). }
  destruct verbose; cbn.
  - eexists VUndefined, _. split; [reflexivity | now left].
  - exists VUndefined, l3. split; [reflexivity | now left].
Qed.

(** X16.  The executable locator never fails and changes nothing but the
    console.  It answers [undefined], which leaves the choice to the SDK, or
    a path that names something present in the file system: whether it came
    from [which claude], from [where claude] or from the list of common
    install places, a path is only returned after [existsSync] accepted
    it. *)
Theorem getClaudeCliPath_finds_existing (verbose : bool) (w : World) :
  exists found l,
    getClaudeCliPath verbose w = (Ok found, with_stdout l w)
    /\ (found = VUndefined \/ exists p, found = VStr p /\ present p w).
Proof. apply getClaudeCliPath_run. Qed.

End Locator.

(** ** Overlapping reads *)

Lemma abandoned_step (p : nat) (o : AsyncStream.op) (s : AsyncStream.t) :
  abandoned p s -> abandoned p (AsyncStream.step o s).
Proof.
  unfold abandoned, settled_ids. intros (Hp & Hr & Hs).
  destruct o; cbn [AsyncStream.step].
  - unfold AsyncStream.asyncIterator. destruct (AsyncStream.started s); now cbn.
  - unfold AsyncStream.next. destruct (AsyncStream.queue s); [|now cbn].
    destruct (AsyncStream.isDone s); [now cbn|]. cbn.
    repeat split; [lia | intros [= Heq]; lia | exact Hs].
  - unfold AsyncStream.enqueue. destruct (AsyncStream.readResolve s) as [q|] eqn:Hq.
    + cbn. repeat split; [exact Hp | discriminate|].
      rewrite map_app, in_app_iff. cbn. intros [Hin|[Heq|[]]]; [tauto | congruence].
    + cbn. now repeat split.
  - unfold AsyncStream.done. destruct (AsyncStream.readResolve s) as [q|] eqn:Hq.
    + cbn. repeat split; [exact Hp | discriminate|].
      rewrite map_app, in_app_iff. cbn. intros [Hin|[Heq|[]]]; [tauto | congruence].
    + cbn. now repeat split.
  - now cbn.
Qed.

Lemma abandoned_run (p : nat) (ops : list AsyncStream.op) (s : AsyncStream.t) :
  abandoned p s -> abandoned p (AsyncStream.run ops s).
Proof.
  revert s. induction ops as [|o ops IH]; intros s Hs; [exact Hs|].
  cbn [AsyncStream.run fold_left]. apply IH. now apply abandoned_step.
Qed.

(** X17.  The channel serves one reader at a time.  When a read is issued
    on a channel that is not finished while an earlier read still waits,
    the channel forgets the earlier one: the new read gets a promise of its
    own, and the earlier promise is never resolved, whatever is enqueued or
    finished afterwards. *)
Theorem overlapping_read_is_lost (ops later : list AsyncStream.op) (p : nat) :
  let s := AsyncStream.run ops AsyncStream.new in
  AsyncStream.readResolve s = Some p ->
  AsyncStream.isDone s = false ->
  fst (AsyncStream.next s) = AsyncStream.Pending (AsyncStream.promises s)
  /\ p <> AsyncStream.promises s
  /\ ~ In p (settled_ids (AsyncStream.run later (snd (AsyncStream.next s)))).
Proof.
  intros s Hp Hd.
  destruct (channel_ok_run ops AsyncStream.new channel_ok_new) as (Hread & _).
  fold s in Hread. destruct (Hread p Hp) as (Hq & Hlt & Hno).
  assert (Hnext : AsyncStream.next s
                  = (AsyncStream.Pending (AsyncStream.promises s),
                     {| AsyncStream.queue := AsyncStream.queue s;
                        AsyncStream.readResolve := Some (AsyncStream.promises s);
                        AsyncStream.isDone := AsyncStream.isDone s;
                        AsyncStream.started := AsyncStream.started s;
                        AsyncStream.promises := S (AsyncStream.promises s);
                        AsyncStream.settled := AsyncStream.settled s |})).
  { unfold AsyncStream.next. now rewrite Hq, Hd. }
  rewrite Hnext. cbn [fst snd]. split; [reflexivity|]. split; [lia|].
  apply abandoned_run. unfold abandoned, settled_ids. cbn.
  repeat split; [lia | intros [= Heq]; lia | exact Hno].
Qed.

(** Two reads on a new channel, then two values and the end: the second
    read gets the first value, the first read nothing. *)
Lemma overlapping_read_is_lost_witness :
  let s := AsyncStream.run [AsyncStream.OpNext] AsyncStream.new in
  let later :=
    [AsyncStream.OpEnqueue (VStr "a"); AsyncStream.OpEnqueue (VStr "b");
     AsyncStream.OpDone] in
  AsyncStream.readResolve s = Some 0
  /\ AsyncStream.isDone s = false
  /\ AsyncStream.settled (AsyncStream.run later (snd (AsyncStream.next s)))
     = [(1, AsyncStream.Yield (VStr "a"))]
  /\ ~ In 0 (settled_ids (AsyncStream.run later (snd (AsyncStream.next s)))).
Proof.
  intros s later. split; [reflexivity|]. split; [reflexivity|]. split; [reflexivity|].
  exact (proj2 (proj2 (overlapping_read_is_lost [AsyncStream.OpNext] later 0
                         eq_refl eq_refl))).
Defined.

(** ** Writing a transcript and reading it back *)

Lemma string_app_assoc (a b c : string) : (a +:+ b) +:+ c = a +:+ (b +:+ c).
Proof.
  induction a as [|x a IH]; [reflexivity|]. rewrite !app_cons. now rewrite IH.
Qed.

Lemma split_go_app (sep : ascii) (cur a b : string) :
  Str.split_go sep cur (a +:+ String sep b)
  = Str.split_go sep cur a ++ Str.split_go sep EmptyString b.
Proof.
  revert cur. induction a as [|c a IH]; intros cur.
  - rewrite app_empty. cbn [Str.split_go]. now rewrite Ascii.eqb_refl.
  - rewrite app_cons. cbn [Str.split_go].
    destruct (Ascii.eqb c sep); [cbn [app]; f_equal|]; apply IH.
Qed.

Lemma split_go_single (cur s : string) :
  single_line s = true ->
  Str.split_go Str.newline cur s = [String.rev_app cur s].
Proof.
  revert cur. induction s as [|c s IH]; intros cur Hs; [reflexivity|].
  cbn [single_line] in Hs. apply andb_true_iff in Hs as [Hc Hs].
  apply negb_true_iff in Hc. cbn [Str.split_go]. rewrite Hc, (IH _ Hs). reflexivity.
Qed.

Lemma whole_lines_cases (s : string) :
  whole_lines s = true ->
  s = EmptyString \/ exists body, s = body +:+ String Str.newline EmptyString.
Proof.
  induction s as [|c s IH]; [now left|]. intros Hs. right.
  destruct s as [|d s].
  - cbn in Hs. apply Ascii.eqb_eq in Hs. subst c. now exists EmptyString.
  - destruct IH as [Hnil|[body ->]]; [exact Hs | discriminate|].
    exists (String c body). now rewrite app_cons.
Qed.

Lemma transcript_lines_append (before written : string) :
  whole_lines before = true ->
  single_line written = true ->
  Str.is_empty (Str.trim written) = false ->
  transcript_lines (before +:+ (written +:+ nl))
  = transcript_lines before ++ [written].
Proof.
  intros Hbefore Hsingle Hink. unfold transcript_lines, Str.split, nl.
  rewrite <- string_app_assoc, split_go_app.
  destruct (whole_lines_cases before Hbefore) as [->|[body ->]].
  - rewrite app_empty, (split_go_single EmptyString written Hsingle).
    cbn [String.rev_app app List.filter Str.split_go].
    rewrite Hink. reflexivity.
  - rewrite string_app_assoc, app_cons, app_empty, !split_go_app.
    rewrite (split_go_single EmptyString written Hsingle).
    cbn [String.rev_app Str.split_go].
    rewrite !List.filter_app. cbn [List.filter]. rewrite Hink.
    change (negb (Str.is_empty (Str.trim EmptyString))) with false.
    cbn [negb]. now rewrite !app_nil_r.
Qed.

Section RoundTrip.
Context `{Host}.

Lemma stored_messages_append (before written : string) (entry : list (string * value)) :
  whole_lines before = true ->
  single_line written = true ->
  Str.is_empty (Str.trim written) = false ->
  JSON_parse written = Some (VObj entry) ->
  stored_messages (before +:+ (written +:+ nl)) = stored_messages before ++ [VObj entry].
Proof.
  intros Hbefore Hsingle Hink Hparse. unfold stored_messages.
  rewrite (transcript_lines_append before written Hbefore Hsingle Hink).
  rewrite omap_app. cbn [omap list_omap]. now rewrite Hparse.
Qed.

Lemma no_growth {A} (l : list A) (x : A) : l = l ++ [x] -> False.
Proof.
  intros Heq. rewrite <- (app_nil_r l) in Heq at 1.
  apply app_inv_head in Heq. discriminate.
Qed.

(** An append that reported success wrote to the transcript file of the
    session. *)
Lemma persistJsonlMessage_went_through (sessionId projectPath : value)
    (obj : list (string * value)) (w : World) (file : string) :
  let w1 := snd (persistJsonlMessage sessionId projectPath obj w) in
  let line :=
    JSON_stringify
      (VObj (enrich obj (randomUUID (uuids w)) sessionId (toISOString (ticks w))))
    +:+ nl in
  stdout w1 = stdout w ++ [PERSIST file] ->
  transcript_file sessionId projectPath w = Ok file
  /\ files w1 = <[file := default EmptyString (files w !! file) +:+ line]> (files w)
  /\ cwd w1 = cwd w.
Proof.
  intros w1 line. subst w1 line.
  unfold persistJsonlMessage, transcript_file, sanitizedCwd, sessionFileName.
  unfold try_catch, bind, process_cwd, lift, ret, console_error.
  destruct (string_method "replace" (js_or projectPath (VStr (cwd w)))) as [base|e];
    [|intros Hgrow; now apply no_growth in Hgrow].
  cbn beta iota zeta.
  unfold mkdirSync. case_decide; [intros Hgrow; now apply no_growth in Hgrow|].
  destruct (to_string sessionId) as [id|e];
    [|intros Hgrow; now apply no_growth in Hgrow].
  cbn beta iota zeta.
  unfold draw_uuid, now_iso, appendFileSync. cbn beta iota zeta.
  case_decide; [intros Hgrow; now apply no_growth in Hgrow|].
  cbn. intros Hgrow. apply app_inv_head in Hgrow. injection Hgrow as <-.
  now repeat split.
Qed.

(** X18.  What the append operation writes, the session reader reads back.
    After an append that went through, to a transcript that held whole
    lines, [getSessionMessages] for the same session and project answers
    [{success:true, messages}] with the messages the transcript held before
    followed by the entry just written, identifier, session id and timestamp
    included.  The hypotheses say that the JSON printer and reader of the
    host agree on this entry and that its text is one non-blank line. *)
Theorem persisted_entry_is_read_back (sessionId projectPath : value)
    (obj : list (string * value)) (w : World) (file : string) :
  let entry := enrich obj (randomUUID (uuids w)) sessionId (toISOString (ticks w)) in
  let before := default EmptyString (files w !! file) in
  let w1 := snd (persistJsonlMessage sessionId projectPath obj w) in
  let answer := getSessionMessages sessionId projectPath w1 in
  stdout w1 = stdout w ++ [PERSIST file] ->
  whole_lines before = true ->
  single_line (JSON_stringify (VObj entry)) = true ->
  Str.is_empty (Str.trim (JSON_stringify (VObj entry))) = false ->
  JSON_parse (JSON_stringify (VObj entry)) = Some (VObj entry) ->
  fst answer = Ok tt
  /\ stdout (snd answer)
     = stdout w1
         ++ [JSON_LINE (VObj [("success", VBool true);
                              ("messages",
                                VArr (stored_messages before ++ [VObj entry]))])].
Proof.
  intros entry before w1 answer Hwent Hbefore Hsingle Hink Hparse. subst answer.
  destruct (persistJsonlMessage_went_through sessionId projectPath obj w file Hwent)
    as (Hfile & Hfiles & Hcwd).
  fold w1 in Hfiles, Hcwd.
  destruct (getSessionMessages_run sessionId projectPath w1) as [errors ->].
  cbn [fst snd]. split; [reflexivity|]. cbn. do 3 f_equal.
  unfold session_answer.
  assert (Hfile1 : transcript_file sessionId projectPath w1 = Ok file).
  { unfold transcript_file in *. now rewrite Hcwd. }
  rewrite Hfile1, Hfiles, lookup_insert_eq. do 5 f_equal.
  now apply stored_messages_append.
Qed.

End RoundTrip.

(** A first entry written to a new transcript on the reference host, and
    read back. *)
Lemma persisted_entry_is_read_back_witness :
  let h := Reference.host (Rejects "unused") (Throw "unused") in
  let obj := [("type", VStr "user"); ("message", VObj [("content", VStr "hello")])] in
  let w := Reference.world [] [] in
  let file := "/home/user/.claude/projects/-home-user-proj/s1.jsonl" in
  let entry := obj ++ [("uuid", VStr "uuid-0"); ("sessionId", VStr "s1");
                       ("timestamp", VStr "2025-01-01T00:00:00.0Z")] in
  let w1 := snd (@persistJsonlMessage h (VStr "s1") VNull obj w) in
  stdout w1 = [PERSIST file]
  /\ stdout (snd (@getSessionMessages h (VStr "s1") VNull w1))
     = [PERSIST file;
        JSON_LINE (VObj [("success", VBool true); ("messages", VArr [VObj entry])])].
Proof.
  intros h obj w file entry w1.
  assert (Hwent : stdout w1 = stdout w ++ [PERSIST file]) by (vm_compute; reflexivity).
  split; [exact Hwent|].
  destruct (@persisted_entry_is_read_back h (VStr "s1") VNull obj w file Hwent
              ltac:(vm_compute; reflexivity) ltac:(vm_compute; reflexivity)
              ltac:(vm_compute; reflexivity) ltac:(vm_compute; reflexivity))
    as [_ Hread].
  fold w1 in Hread. rewrite Hread, Hwent. reflexivity.
Defined.

(** ** The directory a sender works in *)

Lemma keeps_reader {X A} (V : World -> X) (m : M A) : reader m -> keeps V m.
Proof. intros Hm w. now rewrite (reader_run m w Hm). Qed.

Lemma keeps_bind {X A B} (V : World -> X) (m : M A) (k : A -> M B) :
  keeps V m -> (forall a, keeps V (k a)) -> keeps V (bind m k).
Proof.
  intros Hm Hk w. unfold bind. specialize (Hm w).
  destruct (m w) as [[[a|e]|] w1]; cbn [snd] in *; [|exact Hm|exact Hm].
  now rewrite Hk.
Qed.

Lemma keeps_try_catch {X A} (V : World -> X) (m : M A) (h : string -> M A) :
  keeps V m -> (forall e, keeps V (h e)) -> keeps V (try_catch m h).
Proof.
  intros Hm Hh w. unfold try_catch. specialize (Hm w).
  destruct (m w) as [[[a|e]|] w1]; cbn [snd] in *; [exact Hm| |exact Hm].
  now rewrite Hh.
Qed.

Lemma emits_from_any {X A} (V : World -> X) (x : X)
    (C : list line -> list call -> fate A -> Prop) (m : M A) :
  emits C m -> emits_from V x C m.
Proof. intros Hm w _. apply Hm. Qed.

Lemma emits_from_step {X A B} (V : World -> X) (x : X) (P : line -> Prop)
    (C : list line -> list call -> fate B -> Prop) (m : M A) (k : A -> M B) :
  absorbs P C -> silent P m -> keeps V m -> (forall a, emits_from V x C (k a)) ->
  emits_from V x C (bind m k).
Proof.
  intros [Hpre Hfail] Hm Hkeep Hk w Hw. unfold bind.
  destruct (Hm w) as (l1 & c1 & Hl1 & Hc1 & HP1 & -> & Hs).
  specialize (Hkeep w).
  destruct (m w) as [[[a|e]|] w1]; cbn [fst snd] in *; [| |contradiction].
  - destruct (Hk a w1 (eq_trans Hkeep Hw)) as (l2 & c2 & Hl2 & Hc2 & HC2).
    exists (l1 ++ l2), c2.
    rewrite Hl2, Hc2, Hl1, Hc1, app_nil_r, <- app_assoc.
    repeat split. now apply Hpre.
  - exists l1, []. repeat split; [exact Hl1 | exact Hc1 | now apply Hfail].
Qed.

Lemma emits_from_yield {X A B} (V : World -> X) (x : X) (P : line -> Prop)
    (C : list line -> list call -> fate B -> Prop) (R : A -> Prop)
    (m : M A) (k : A -> M B) :
  absorbs P C -> silent P m ->
  (forall w a, V w = x -> fst (m w) = Ok a -> R a) ->
  (forall a, R a -> emits C (k a)) ->
  emits_from V x C (bind m k).
Proof.
  intros [Hpre Hfail] Hm HR Hk w Hw. unfold bind.
  destruct (Hm w) as (l1 & c1 & Hl1 & Hc1 & HP1 & -> & Hs).
  specialize (HR w).
  destruct (m w) as [[[a|e]|] w1]; cbn [fst snd] in *; [| |contradiction].
  - destruct (Hk a (HR a Hw eq_refl) w1) as (l2 & c2 & Hl2 & Hc2 & HC2).
    exists (l1 ++ l2), c2.
    rewrite Hl2, Hc2, Hl1, Hc1, app_nil_r, <- app_assoc.
    repeat split. now apply Hpre.
  - exists l1, []. repeat split; [exact Hl1 | exact Hc1 | now apply Hfail].
Qed.

Lemma keeps_resolver_console_log (l : line) : keeps resolver_inputs (console_log l).
Proof. intros w. reflexivity. Qed.

Lemma keeps_resolver_console_error (tag text : string) :
  keeps resolver_inputs (console_error tag text).
Proof. intros w. reflexivity. Qed.

Lemma keeps_resolver_setenv (name text : string) :
  name = "CLAUDE_CODE_ENTRYPOINT" \/ name = "ANTHROPIC_API_KEY"
  \/ name = "ANTHROPIC_BASE_URL" ->
  keeps resolver_inputs (setenv name text).
Proof.
  intros Hname w. unfold resolver_inputs, setenv. cbn.
  destruct Hname as [->|[->| ->]]; now rewrite !lookup_insert_ne by discriminate.
Qed.

(** Decomposes a goal [keeps resolver_inputs m] along the structure of [m]. *)
Ltac keeps_step :=
  match goal with
  | |- keeps _ (bind _ _) => apply keeps_bind; [|intros ?]
  | |- keeps _ (try_catch _ _) => apply keeps_try_catch; [|intros ?]
  | |- keeps _ (console_log _) => apply keeps_resolver_console_log
  | |- keeps _ (console_error _ _) => apply keeps_resolver_console_error
  | |- keeps _ (setenv _ _) => apply keeps_resolver_setenv; tauto
  | |- keeps _ (ret _) => apply keeps_reader, reader_ret
  | |- keeps _ (throw _) => apply keeps_reader, reader_throw
  | |- keeps _ (lift _) => apply keeps_reader, reader_lift
  | |- keeps _ (getenv _) => apply keeps_reader, reader_getenv
  | |- keeps _ (if ?b then _ else _) => destruct b
  | |- keeps _ (let '(_, _) := ?x in _) => destruct x
  end.
Ltac prove_keeps := repeat keeps_step.

Section Directory.
Context `{Host}.

Lemma keeps_resolver_setupApiKey : keeps resolver_inputs setupApiKey.
Proof.
  unfold setupApiKey.
  apply keeps_bind; [apply keeps_reader; unfold loadClaudeSettings; prove_reader
                    | intros settings].
  prove_keeps.
Qed.

Lemma keeps_resolver_set_entrypoint : keeps resolver_inputs set_entrypoint.
Proof. unfold set_entrypoint. prove_keeps. Qed.

Lemma sanitizePath_same (c : value) (w w' : World) :
  cwd w = cwd w' -> fst (sanitizePath c w) = fst (sanitizePath c w').
Proof.
  intros Hcwd. unfold sanitizePath.
  destruct (_ || _); [reflexivity|].
  unfold try_catch, bind, resolve, ret. cbn. now rewrite Hcwd.
Qed.

Lemma isTempDirectory_same (n : string) (w w' : World) :
  map (fun name => env w !! name) ["TMPDIR"; "TEMP"; "TMP"; "LOCALAPPDATA"]
  = map (fun name => env w' !! name) ["TMPDIR"; "TEMP"; "TMP"; "LOCALAPPDATA"] ->
  fst (isTempDirectory n w) = fst (isTempDirectory n w').
Proof.
  cbn [map]. intros [= H1 H2 H3 H4].
  unfold isTempDirectory. destruct (Str.is_empty n); [reflexivity|].
  unfold bind, getTempPathPrefixes.
  destruct (Str.eqb platform "win32"); unfold bind, getenv, ret; cbn;
    now rewrite ?H1, ?H2, ?H3, ?H4.
Qed.

Lemma first_accepted_same (envp : value) (cs : list value) (w w' : World) :
  resolver_inputs w = resolver_inputs w' ->
  first_accepted envp w cs = first_accepted envp w' cs.
Proof.
  unfold resolver_inputs. cbn [map]. intros [= H1 H2 H3 H4 H5 H6 Hcwd Hdirs Hfiles].
  induction cs as [|c cs IH]; [reflexivity|].
  cbn [first_accepted]. rewrite IH.
  assert (Hj : judged envp w c = judged envp w' c).
  { rewrite !judged_formula, (sanitizePath_same c w w' Hcwd).
    destruct (fst (sanitizePath c w')) as [[[n|]|]|]; try reflexivity.
    rewrite (isTempDirectory_same n w w') by (cbn [map]; congruence).
    now rewrite Hdirs. }
  now rewrite Hj.
Qed.

(** The resolver answers the same in worlds that agree on what it reads. *)
Lemma selectWorkingDirectory_same (requestedCwd : value) (w w' : World) :
  resolver_inputs w = resolver_inputs w' ->
  fst (selectWorkingDirectory requestedCwd w) = fst (selectWorkingDirectory requestedCwd w').
Proof.
  intros Hsame.
  destruct (selectWorkingDirectory_run requestedCwd w) as [l ->].
  destruct (selectWorkingDirectory_run requestedCwd w') as [l' ->].
  cbn [fst].
  assert (Henv : env_project_path w = env_project_path w').
  { unfold resolver_inputs in Hsame. cbn [map] in Hsame.
    injection Hsame as H1 H2 _ _ _ _ _ _ _.
    unfold env_project_path, env_value. now rewrite H1, H2. }
  assert (Hcwd : cwd w = cwd w').
  { unfold resolver_inputs in Hsame. now injection Hsame. }
  now rewrite Henv, Hcwd, (first_accepted_same _ _ w w' Hsame).
Qed.

Lemma returns_opt_cwd (workingDirectory : string) (permissionMode : value)
    (sdkModelName : string) (claudeCliPath : value) :
  returns (fun o => opt_cwd o = workingDirectory)
    (build_options workingDirectory permissionMode sdkModelName claudeCliPath).
Proof.
  intros w o Ho. unfold build_options, bind, getenv, ret in Ho. cbn [fst] in Ho.
  now injection Ho as <-.
Qed.

Lemma returns_resume_cwd (resumeSessionId : value) (o : query_options)
    (workingDirectory : string) :
  opt_cwd o = workingDirectory ->
  returns (fun o' => opt_cwd o' = workingDirectory)
    (if resuming resumeSessionId then
       console_log (RESUMING resumeSessionId) ;;
       ret (set_resume resumeSessionId o)
     else ret o).
Proof.
  intros Ho w o' Ho'. destruct (resuming resumeSessionId); now injection Ho' as <-.
Qed.

End Directory.

Ltac at_resolver m :=
  match m with selectWorkingDirectory _ => idtac end.

(** Walks the start of a sender's [try] block, whose steps leave the inputs
    of the resolver alone. *)
Ltac trace_from HC :=
  repeat (cbn zeta;
          match goal with
          | |- emits_from _ _ _ (bind ?m _) =>
              tryif at_resolver m then fail 1
              else (apply (emits_from_step resolver_inputs _ any_line);
                    [exact HC
                    | solve [prove_trace (fun text : string => I)]
                    | first [apply keeps_resolver_setupApiKey
                            | apply keeps_resolver_set_entrypoint
                            | solve [prove_keeps]]
                    | intros ?])
          end).

Section DirectoryUsed.
Context `{Host}.

Let any_debug : forall text, any_line (DEBUG text) := fun _ => I.

Lemma try_catch_reports_from {X} (V : World -> X) (x : X)
    (C : list line -> list call -> fate unit -> Prop)
    (body : M unit) (handler : string -> M unit) :
  emits_from V x C body -> reports_failure handler ->
  emits_from V x (closed_by C) (try_catch body handler).
Proof.
  intros Hbody Hhandler w Hw. unfold try_catch.
  destruct (Hbody w Hw) as (l1 & c1 & Hl1 & Hc1 & HC).
  destruct (body w) as [[[[]|e]|] w1]; cbn [fst snd] in *.
  - exists l1, c1. repeat split; [exact Hl1 | exact Hc1|].
    exists l1, (Settled (Ok tt)). now split.
  - destruct (Hhandler e w1) as (l2 & c2 & Hl2 & Hc2 & -> & -> & Hr).
    exists (l1 ++ [JSON_LINE (failure_record (VStr e))]), c1.
    rewrite Hl2, Hc2, Hl1, Hc1, app_nil_r, <- app_assoc.
    repeat split. exists l1, (Settled (Throw e)). now split.
  - exists l1, c1. repeat split; [exact Hl1 | exact Hc1|].
    exists l1, Unsettled. now split.
Qed.

Lemma selectWorkingDirectory_or_null (requestedCwd : value) :
  selectWorkingDirectory (or_null requestedCwd) = selectWorkingDirectory requestedCwd.
Proof. now destruct requestedCwd. Qed.

(** From the resolver to the call: the options carry the directory the
    resolver returned. *)
Ltac from_resolver wd HC Hwd :=
  trace_until any_line any_debug HC at_build_options;
  refine (emits_after_yield any_line _ _ _ _ HC _ (returns_opt_cwd wd _ _ _) _);
    [solve [prove_trace any_debug]|];
  let options := fresh "options" in
  let Hoptions := fresh "Hoptions" in
  intros options Hoptions;
  trace_until any_line any_debug HC at_resume;
  refine (emits_after_yield any_line _ _ _ _ HC _
            (returns_resume_cwd _ options wd Hoptions) _);
    [solve [prove_trace any_debug]|];
  let options' := fresh "options" in
  let Hoptions' := fresh "Hoptions" in
  intros options' Hoptions';
  trace_until any_line any_debug HC at_resume;
  refine (emits_weaken _ _ _ _ (race_and_relay_run _ options' _));
  let ls := fresh "ls" in
  let cs := fresh "cs" in
  let r := fresh "r" in
  intros ls cs r ->; right; eexists _, options';
  split; [reflexivity | now rewrite Hoptions'].

Lemma sendMessage_asks_in (message resumeSessionId cwd permissionMode model : value)
    (w : World) :
  emits_from resolver_inputs (resolver_inputs w)
    (closed_by (fun _ cs _ => asks_in (fst (selectWorkingDirectory cwd w)) cs))
    (sendMessage message resumeSessionId cwd permissionMode model).
Proof.
  set (Q := asks_in (fst (selectWorkingDirectory cwd w))).
  assert (HC : absorbs any_line (fun _ cs (_ : fate unit) => Q cs))
    by (apply absorbs_any_calls; now left).
  unfold sendMessage. cbn zeta.
  apply try_catch_reports_from; [|apply sendMessage_reports].
  trace_from HC.
  apply (emits_from_yield resolver_inputs _ any_line _
           (fun wd => fst (selectWorkingDirectory cwd w) = Ok wd));
    [exact HC | solve [prove_trace any_debug] | |].
  - intros w1 wd Hw1 Hwd. rewrite selectWorkingDirectory_or_null in Hwd.
    now rewrite (selectWorkingDirectory_same cwd w w1 (eq_sym Hw1)).
  - intros wd Hwd. from_resolver wd HC Hwd.
Qed.

Lemma sendMessageWithAttachments_asks_in
    (message resumeSessionId cwd permissionMode model stdinData : value) (w : World) :
  emits_from resolver_inputs (resolver_inputs w)
    (closed_by (fun _ cs _ => asks_in (fst (selectWorkingDirectory cwd w)) cs))
    (sendMessageWithAttachments message resumeSessionId cwd permissionMode model
       stdinData).
Proof.
  set (Q := asks_in (fst (selectWorkingDirectory cwd w))).
  assert (HC : absorbs any_line (fun _ cs (_ : fate unit) => Q cs))
    by (apply absorbs_any_calls; now left).
  unfold sendMessageWithAttachments. cbn zeta.
  apply try_catch_reports_from; [|apply sendMessageWithAttachments_reports].
  trace_from HC.
  apply (emits_from_yield resolver_inputs _ any_line _
           (fun wd => fst (selectWorkingDirectory cwd w) = Ok wd));
    [exact HC | solve [prove_trace any_debug] | |].
  - intros w1 wd Hw1 Hwd. rewrite selectWorkingDirectory_or_null in Hwd.
    now rewrite (selectWorkingDirectory_same cwd w w1 (eq_sym Hw1)).
  - intros wd Hwd. from_resolver wd HC Hwd.
Qed.

(** X19.  Both senders work in the directory the resolver picks: the
    streaming call is made with, as [cwd] option, the directory that
    [selectWorkingDirectory] returns for the requested directory in the
    world the sender was started in.  What the sender does before it
    resolves the directory (the entry point and the credentials it exports
    to the environment) does not influence the choice. *)
Theorem senders_work_in_the_resolved_directory
    (message resumeSessionId cwd permissionMode model stdinData : value) (w : World) :
  let plain := sendMessage message resumeSessionId cwd permissionMode model w in
  let multimodal :=
    sendMessageWithAttachments message resumeSessionId cwd permissionMode model
      stdinData w in
  (exists cs,
      calls (snd plain) = calls w ++ cs
      /\ asks_in (fst (selectWorkingDirectory cwd w)) cs)
  /\ (exists cs,
        calls (snd multimodal) = calls w ++ cs
        /\ asks_in (fst (selectWorkingDirectory cwd w)) cs).
Proof.
  intros plain multimodal. split.
  - destruct (sendMessage_asks_in message resumeSessionId cwd permissionMode model w w
                eq_refl)
      as (ls & cs & _ & Hcalls & Hclosed).
    exists cs. split; [exact Hcalls | exact (closed_by_calls _ ls cs _ Hclosed)].
  - destruct (sendMessageWithAttachments_asks_in message resumeSessionId cwd
                permissionMode model stdinData w w eq_refl)
      as (ls & cs & _ & Hcalls & Hclosed).
    exists cs. split; [exact Hcalls | exact (closed_by_calls _ ls cs _ Hclosed)].
Qed.

End DirectoryUsed.

(** ** What a run leaves alone *)

Section KeptView.
Context `{Host}.
Variable name : string.
Hypothesis name_free : exported name = false.

Let V := kept_view name.

Lemma keeps_view_console_log (l : line) : keeps V (console_log l).
Proof. intros w. reflexivity. Qed.

Lemma keeps_view_console_error (tag text : string) : keeps V (console_error tag text).
Proof. intros w. reflexivity. Qed.

Lemma keeps_view_process_chdir (d : string) : keeps V (process_chdir d).
Proof. intros w. unfold process_chdir. case_decide; reflexivity. Qed.

Lemma keeps_view_race_query (p : prompt) (options : query_options) :
  keeps V (race_query p options).
Proof. intros w. reflexivity. Qed.

Lemma keeps_view_setenv (variable text : string) :
  exported variable = true -> keeps V (setenv variable text).
Proof.
  intros Hv w. unfold V, kept_view, setenv. cbn. f_equal.
  apply lookup_insert_ne. intros ->. congruence.
Qed.

(** Decomposes a goal [keeps V m] along the structure of [m]. *)
Ltac view_step :=
  match goal with
  | |- keeps _ (bind _ _) => apply keeps_bind; [|intros ?]
  | |- keeps _ (try_catch _ _) => apply keeps_try_catch; [|intros ?]
  | |- keeps _ (console_log _) => apply keeps_view_console_log
  | |- keeps _ (console_error _ _) => apply keeps_view_console_error
  | |- keeps _ (process_chdir _) => apply keeps_view_process_chdir
  | |- keeps _ (setenv _ _) => apply keeps_view_setenv; reflexivity
  | |- keeps _ (ret _) => apply keeps_reader, reader_ret
  | |- keeps _ (throw _) => apply keeps_reader, reader_throw
  | |- keeps _ (lift _) => apply keeps_reader, reader_lift
  | |- keeps _ (getenv _) => apply keeps_reader, reader_getenv
  | |- keeps _ (existsSync _) => apply keeps_reader, reader_existsSync
  | |- keeps _ (if ?b then _ else _) => destruct b
  | |- keeps _ (match ?x with _ => _ end) => destruct x
  | |- keeps _ (let '(_, _) := ?x in _) => destruct x
  | |- keeps _ _ => solve [apply keeps_reader; prove_reader]
  end.
Ltac prove_view := repeat view_step.

Lemma keeps_view_setupApiKey : keeps V setupApiKey.
Proof.
  unfold setupApiKey.
  apply keeps_bind; [apply keeps_reader; unfold loadClaudeSettings; prove_reader
                    | intros settings].
  prove_view.
Qed.

Lemma keeps_view_set_entrypoint : keeps V set_entrypoint.
Proof. unfold set_entrypoint. prove_view. Qed.

Lemma keeps_view_selectWorkingDirectory (requestedCwd : value) :
  keeps V (selectWorkingDirectory requestedCwd).
Proof.
  intros w. destruct (selectWorkingDirectory_run requestedCwd w) as [l ->]. reflexivity.
Qed.

Lemma keeps_view_enter_directory (workingDirectory : string) :
  keeps V (enter_directory workingDirectory).
Proof. unfold enter_directory. prove_view. Qed.

Lemma keeps_view_getClaudeCliPath (verbose : bool) : keeps V (getClaudeCliPath verbose).
Proof.
  intros w. destruct (getClaudeCliPath_run verbose w) as (found & l & -> & _).
  reflexivity.
Qed.

Lemma keeps_view_build_options (workingDirectory : string) (permissionMode : value)
    (sdkModelName : string) (claudeCliPath : value) :
  keeps V (build_options workingDirectory permissionMode sdkModelName claudeCliPath).
Proof. unfold build_options. prove_view. Qed.

Lemma keeps_view_loadAttachments (stdinData : value) : keeps V (loadAttachments stdinData).
Proof. unfold loadAttachments, loadAttachmentsFromEnv. prove_view. Qed.

Lemma keeps_view_attachment_blocks (attachments : list value) :
  keeps V (attachment_blocks attachments).
Proof.
  induction attachments as [|a rest IH]; cbn [attachment_blocks]; [prove_view|].
  apply keeps_bind; [unfold attachment_block; prove_view | intros ?].
  apply keeps_bind; [exact IH | intros ?; prove_view].
Qed.

Lemma keeps_view_relay_events (events : list value) (sid : value) :
  keeps V (relay_events events sid).
Proof.
  revert sid. induction events as [|msg events IH]; intros sid; cbn [relay_events];
    [prove_view|].
  apply keeps_bind; [|intros ?; apply IH].
  unfold relay_event.
  do 4 (apply keeps_bind; [prove_view | intros ?]).
  apply keeps_bind; [|intros ?; prove_view].
  destruct (is_str "assistant" _); [|prove_view].
  destruct (opt_prop "content" _); try solve [prove_view].
  match goal with |- keeps _ (for_each _ ?blocks) => induction blocks as [|b bs IHb] end;
    cbn [for_each]; [prove_view|].
  apply keeps_bind; [unfold relay_block; prove_view | intros ?; exact IHb].
Qed.

Lemma keeps_view_race_and_relay (p : prompt) (options : query_options) (resume : value) :
  keeps V (race_and_relay p options resume).
Proof.
  unfold race_and_relay.
  apply keeps_bind; [apply keeps_view_race_query | intros [events failure|events|message]].
  - apply keeps_bind; [prove_view | intros ?].
    apply keeps_bind; [apply keeps_view_relay_events | intros ?]. prove_view.
  - apply keeps_bind; [prove_view | intros ?].
    apply keeps_bind; [apply keeps_view_relay_events | intros ?]. now intros w.
  - prove_view.
Qed.

Ltac sender_step :=
  first [ apply keeps_view_setupApiKey
        | apply keeps_view_set_entrypoint
        | apply keeps_view_selectWorkingDirectory
        | apply keeps_view_enter_directory
        | apply keeps_view_getClaudeCliPath
        | apply keeps_view_build_options
        | apply keeps_view_loadAttachments
        | apply keeps_view_attachment_blocks
        | apply keeps_view_race_and_relay
        | view_step ].
Ltac prove_sender := repeat sender_step.

Lemma keeps_view_sendMessage (message resumeSessionId cwd permissionMode model : value) :
  keeps V (sendMessage message resumeSessionId cwd permissionMode model).
Proof. unfold sendMessage. cbn zeta. prove_sender. Qed.

Lemma keeps_view_sendMessageWithAttachments
    (message resumeSessionId cwd permissionMode model stdinData : value) :
  keeps V (sendMessageWithAttachments message resumeSessionId cwd permissionMode model
             stdinData).
Proof. unfold sendMessageWithAttachments. cbn zeta. prove_sender. Qed.

Lemma keeps_view_getSessionMessages (sessionId projectPath : value) :
  keeps V (getSessionMessages sessionId projectPath).
Proof.
  intros w. destruct (getSessionMessages_run sessionId projectPath w) as [errors ->].
  reflexivity.
Qed.

Lemma keeps_view_readStdinData (stdin : stdin_behaviour) : keeps V (readStdinData stdin).
Proof. unfold readStdinData. prove_view. Qed.

Lemma keeps_view_dispatch (command : value) (args : list value) (stdin : stdin_behaviour) :
  keeps V (dispatch command args stdin).
Proof.
  unfold dispatch.
  destruct (is_str "send" command);
    [apply keeps_bind; [apply keeps_view_sendMessage | intros ?; prove_view]|].
  destruct (is_str "sendWithAttachments" command).
  { apply keeps_bind; [apply keeps_view_readStdinData | intros ?].
    apply keeps_bind; [apply keeps_view_sendMessageWithAttachments | intros ?; prove_view]. }
  destruct (is_str "getSession" command);
    [apply keeps_bind; [apply keeps_view_getSessionMessages | intros ?; prove_view]|].
  prove_view.
Qed.

Lemma main_keeps_view (command : value) (args : list value) (stdin : stdin_behaviour)
    (w : World) :
  V (snd (main command args stdin w)) = V w.
Proof.
  unfold main.
  pose proof (keeps_try_catch V (dispatch command args stdin)
                (fun error =>
                   console_error "[COMMAND_ERROR]" error ;;
                   console_log (JSON_LINE (failure_record (VStr error))) ;;
                   ret (Some 1%Z))
                (keeps_view_dispatch command args stdin)
                ltac:(intros e; cbv beta; prove_view) w) as Hkeep.
  destruct (try_catch _ _ w) as [[[exit|reason]|] w1]; cbn [snd] in *; exact Hkeep.
Qed.

End KeptView.

(** X20.  The code of the bridge reads the file system and never writes to
    it: whatever the command, its arguments, the standard input and the
    world, the files and directories after a run are those before (the SDK
    call is a service of the host, and what that does is not part of the
    run).  Of the environment of the process the run changes at most
    [CLAUDE_CODE_ENTRYPOINT], [ANTHROPIC_API_KEY] and [ANTHROPIC_BASE_URL]. *)
Theorem main_writes_no_file `{Host} (command : value) (args : list value)
    (stdin : stdin_behaviour) (w : World) :
  let after := snd (main command args stdin w) in
  files after = files w
  /\ dirs after = dirs w
  /\ forall name, exported name = false -> env after !! name = env w !! name.
Proof.
  intros after. subst after.
  pose proof (main_keeps_view "HOME" eq_refl command args stdin w) as Hfs.
  unfold kept_view in Hfs. injection Hfs as Hfiles Hdirs _.
  split; [exact Hfiles|]. split; [exact Hdirs|].
  intros name Hname.
  pose proof (main_keeps_view name Hname command args stdin w) as Hv.
  unfold kept_view in Hv. now injection Hv.
Qed.

(** ** Writing a message and loading the history *)

Section HistoryAfterWrite.
Context `{Host}.




End HistoryAfterWrite.


(** ** An explicit directory *)

Section ExplicitDirectory.
Context `{Host}.

(** X22.  An explicit request is honoured: when the requested directory is
    a non-blank string other than "undefined" and "null", and the path it
    resolves to is an existing directory that is not skipped as a temp
    directory (it is not under a temp prefix, or no project path is set in
    the environment), the resolver returns that path, whatever the
    environment, the current directory and the home directory are. *)
Theorem requested_directory_is_honoured (requested : string) (w : World) :
  let normalized := path_resolve (cwd w) (Str.trim requested) in
  Str.is_empty (Str.trim requested) = false ->
  requested <> "undefined" -> requested <> "null" ->
  normalized ∈ dirs w ->
  fst (isTempDirectory normalized w) = Ok false
  \/ truthy (env_project_path w) = false ->
  fst (selectWorkingDirectory (VStr requested) w) = Ok normalized.
Proof.
  intros normalized Hink Hundefined Hnull Hdir Htemp.
  assert (Hfilled : requested <> EmptyString) by (intros ->; discriminate).
  destruct (selectWorkingDirectory_run (VStr requested) w) as [l ->]. cbn [fst].
  unfold selectWorkingDirectory_candidates.
  assert (Hasked : truthy (VStr requested) && negb (is_str "undefined" (VStr requested))
                   && negb (is_str "null" (VStr requested)) = true).
  { destruct requested as [|c r]; [congruence|]. cbn [truthy is_str andb].
    rewrite !andb_true_iff, !negb_true_iff. repeat split.
    - apply String.eqb_neq. congruence.
    - apply String.eqb_neq. congruence. }
  rewrite Hasked. cbn [app first_accepted].
  assert (Hjudged : judged (env_project_path w) w (VStr requested) = Some normalized).
  { rewrite judged_formula.
    assert (Hpath : fst (sanitizePath (VStr requested) w) = Ok (Some normalized)).
    { unfold sanitizePath. destruct requested as [|c r]; [congruence|].
      cbn [truthy is_string as_str negb orb]. rewrite Hink. reflexivity. }
    rewrite Hpath.
    destruct (isTempDirectory_run normalized w) as [b Hb]. rewrite Hb in *. cbn [fst] in *.
    rewrite (bool_decide_eq_true_2 _ Hdir).
    destruct Htemp as [[= ->]| ->]; [reflexivity | now rewrite andb_false_r]. }
  now rewrite Hjudged.
Qed.

End ExplicitDirectory.

(** The project directory asked for explicitly, with another project path in
    the environment. *)
Lemma requested_directory_is_honoured_witness :
  let h := Reference.host (Rejects "unused") (Throw "unused") in
  let w := Reference.world [("PROJECT_PATH", "/home/user")] [] in
  Str.is_empty (Str.trim " /home/user/proj ") = false
  /\ @path_resolve h (cwd w) (Str.trim " /home/user/proj ") = "/home/user/proj"
  /\ fst (@selectWorkingDirectory h (VStr " /home/user/proj ") w) = Ok "/home/user/proj".
Proof.
  intros h w. split; [reflexivity|]. split; [reflexivity|].
  exact (@requested_directory_is_honoured h " /home/user/proj " w eq_refl
           ltac:(discriminate) ltac:(discriminate)
           ltac:(vm_compute; reflexivity) (or_introl eq_refl)).
Defined.
